(** * CPU scheduler: the in-process simulator and the kernel module

    A shallow embedding of the two realisations of the priority + aging
    scheduler of this repository:

    - [Sim]  : the C++ simulator (process.cpp, ready_queue.cpp, scheduler.cpp);
    - [Kmod] : the kernel module (custom_scheduler.c).

    Conventions of the embedding.

    - A [std::shared_ptr<Process>] (resp. a [struct custom_pcb *]) is an index
      into the list of all processes, which owns every PCB and only grows.
      The ready queue, the running slot and the blocked list hold such
      indices, so a field written through one of them is seen through all.
    - A C++ [int] is a [Z]; signed overflow is undefined in C++ and is not
      part of the model.  A division that traps (by zero, or of [INT_MIN]
      by -1) is an error ([None]).
    - The kernel is built with wrapping signed arithmetic, so kernel [int]
      and [unsigned long] operations are written with their wrap-around
      ([to_int], [to_ulong]).
    - Clock readings ([steady_clock::now()], [jiffies]), [rand()] and the
      outcome of [kmalloc] are inputs of the step that reads them.
    - Threads interleave at the granularity of the steps below: a Control
      API call or a write to /proc/sched_stats is one step; a pass of the
      simulator's loop is one step (its sleep comes last); a pass of the
      kernel thread is two steps, split at the sleep during which the
      thread holds its process and its slice in local variables.  A run of
      steps is an execution in which the steps do not overlap; the code
      holds its locks for shorter stretches than a step (see [Sim.event],
      [Kmod.kevent] and [Kmod.cmd_new_link]). *)

From Stdlib Require Import ZArith QArith List Bool Lia.
From stdpp Require Import base decidable option list numbers strings sorting.

Local Open Scope Z_scope.

(** ** Machine integers *)

Definition to_ulong (z : Z) : Z := z mod 2 ^ 64.
Definition to_uint (z : Z) : Z := z mod 2 ^ 32.
Definition to_int (z : Z) : Z := (z + 2 ^ 31) mod 2 ^ 32 - 2 ^ 31.
Definition to_long (z : Z) : Z := (z + 2 ^ 63) mod 2 ^ 64 - 2 ^ 63.

Definition int_range (z : Z) : Prop := - 2 ^ 31 <= z < 2 ^ 31.
Definition ulong_range (z : Z) : Prop := 0 <= z < 2 ^ 64.

(** [find_index f l]: position of the first element accepted by [f]; the
    shape of the loops [for (auto& p : allProcesses_) if (...) { ...; break; }]. *)
Fixpoint find_index {A} (f : A -> bool) (l : list A) : option nat :=
  match l with
  | [] => None
  | x :: l' => if f x then Some O else S <$> find_index f l'
  end.

(** [positions c l]: the positions of the list [l] that hold the value [c]. *)
Definition positions {A} `{EqDecision A} (c : A) (l : list A) : list nat :=
  filter (fun i => l !! i = Some c) (seq 0 (length l)).

(** * The simulator *)

Module Sim.

(** ** process.h / process.cpp *)

Inductive ProcessState := NEW | READY | RUNNING | WAITING | TERMINATED.

#[global] Instance ProcessState_eq_dec : EqDecision ProcessState.
Proof. solve_decision. Defined.

Record Process := mkProcess {
  pid_ : Z;
  name_ : string;
  basePriority_ : Z;
  effectivePriority_ : Z;
  burstTime_ : Z;
  remainingTime_ : Z;
  state_ : ProcessState;
  arrivalTime : Z;
  waitTime : Z;
  turnaroundTime : Z
}.

(** [Process::Process(pid, name, priority, burstTime)] *)
Definition new_Process (pid : Z) (name : string) (priority burstTime : Z)
  : Process :=
  mkProcess pid name priority priority burstTime burstTime NEW 0 0 0.

#[global] Instance Process_inhabited : Inhabited Process :=
  populate (new_Process 0 ""%string 0 0).

Definition setState (st : ProcessState) (p : Process) : Process :=
  mkProcess (pid_ p) (name_ p) (basePriority_ p) (effectivePriority_ p)
    (burstTime_ p) (remainingTime_ p) st
    (arrivalTime p) (waitTime p) (turnaroundTime p).

Definition set_remainingTime (r : Z) (p : Process) : Process :=
  mkProcess (pid_ p) (name_ p) (basePriority_ p) (effectivePriority_ p)
    (burstTime_ p) r (state_ p)
    (arrivalTime p) (waitTime p) (turnaroundTime p).

Definition set_effectivePriority (e : Z) (p : Process) : Process :=
  mkProcess (pid_ p) (name_ p) (basePriority_ p) e
    (burstTime_ p) (remainingTime_ p) (state_ p)
    (arrivalTime p) (waitTime p) (turnaroundTime p).

Definition set_arrivalTime (a : Z) (p : Process) : Process :=
  mkProcess (pid_ p) (name_ p) (basePriority_ p) (effectivePriority_ p)
    (burstTime_ p) (remainingTime_ p) (state_ p)
    a (waitTime p) (turnaroundTime p).

Definition set_waitTime (w : Z) (p : Process) : Process :=
  mkProcess (pid_ p) (name_ p) (basePriority_ p) (effectivePriority_ p)
    (burstTime_ p) (remainingTime_ p) (state_ p)
    (arrivalTime p) w (turnaroundTime p).

Definition set_turnaroundTime (t : Z) (p : Process) : Process :=
  mkProcess (pid_ p) (name_ p) (basePriority_ p) (effectivePriority_ p)
    (burstTime_ p) (remainingTime_ p) (state_ p)
    (arrivalTime p) (waitTime p) t.

(** [Process::execute(timeSlice)] *)
Definition execute (timeSlice : Z) (p : Process) : Process :=
  if bool_decide (state_ p ≠ RUNNING) then p
  else
    let execTime := Z.min timeSlice (remainingTime_ p) in
    let p1 := set_remainingTime (remainingTime_ p - execTime) p in
    if remainingTime_ p1 =? 0 then setState TERMINATED p1 else p1.

(** The operands for which the [int] division [waitTime / agingFactor] is
    undefined, and traps on the usual targets: a zero divisor, and
    [INT_MIN / -1], whose quotient is not an [int]. *)
Definition division_traps (agingFactor : Z) (p : Process) : bool :=
  (agingFactor =? 0) || ((waitTime p =? - 2 ^ 31) && (agingFactor =? -1)).

(** [Process::applyAging(agingFactor)]; the C++ [/] on [int] truncates
    towards zero; [None] is the trap of the division. *)
Definition applyAging (agingFactor : Z) (p : Process) : option Process :=
  if division_traps agingFactor p then None
  else Some (set_effectivePriority
               (basePriority_ p + Z.quot (waitTime p) agingFactor) p).

(** ** ready_queue.h / ready_queue.cpp

    The queue is [std::priority_queue] over a [std::vector] of shared
    pointers with [ProcessComparator].  [push] is [push_back] followed by
    [std::push_heap], [pop] is [std::pop_heap] followed by [pop_back]; the
    two heap procedures are written as in GNU libstdc++ (bits/stl_heap.h).
    The comparator reads the priorities through the pointers, that is, in
    the store [st]. *)

Section ReadyQueue.

Variable st : list Process.

(** [ProcessComparator::operator()] *)
Definition ProcessComparator (a b : nat) : bool :=
  effectivePriority_ (st !!! b) <? effectivePriority_ (st !!! a).

(** [std::__push_heap]: the loop runs at most once per level of the heap. *)
Fixpoint push_heap_loop (fuel : nat) (v : list nat)
    (holeIndex topIndex value : nat) : list nat :=
  let parent := ((holeIndex - 1) / 2)%nat in
  match fuel with
  | O => <[holeIndex := value]> v
  | S fuel' =>
      if (topIndex <? holeIndex)%nat && ProcessComparator (v !!! parent) value
      then push_heap_loop fuel' (<[holeIndex := v !!! parent]> v)
             parent topIndex value
      else <[holeIndex := value]> v
  end.

(** The first loop of [std::__adjust_heap]: the hole moves down to a leaf. *)
Fixpoint adjust_heap_loop (fuel : nat) (v : list nat)
    (holeIndex secondChild len : nat) : list nat * nat * nat :=
  match fuel with
  | O => (v, holeIndex, secondChild)
  | S fuel' =>
      if (secondChild <? (len - 1) / 2)%nat then
        let sc := (2 * (secondChild + 1))%nat in
        let sc := if ProcessComparator (v !!! sc) (v !!! (sc - 1)%nat)
                  then (sc - 1)%nat else sc in
        adjust_heap_loop fuel' (<[holeIndex := v !!! sc]> v) sc sc len
      else (v, holeIndex, secondChild)
  end.

(** [std::__adjust_heap(first, holeIndex, len, value, comp)] *)
Definition adjust_heap (v : list nat) (holeIndex len value : nat) : list nat :=
  let '(v1, hole1, sc1) := adjust_heap_loop len v holeIndex holeIndex len in
  let '(v2, hole2) :=
    if Nat.even len && (sc1 =? (len - 2) / 2)%nat then
      let sc := (2 * (sc1 + 1))%nat in
      (<[hole1 := v1 !!! (sc - 1)%nat]> v1, (sc - 1)%nat)
    else (v1, hole1) in
  push_heap_loop len v2 hole2 holeIndex value.

(** [priority_queue::push] *)
Definition pq_push (v : list nat) (x : nat) : list nat :=
  let v' := v ++ [x] in
  push_heap_loop (length v') v' (length v' - 1)%nat O x.

(** [priority_queue::pop] on a non-empty queue *)
Definition pq_pop (v : list nat) : list nat :=
  let last := (length v - 1)%nat in
  if (1 <? length v)%nat then
    let value := v !!! last in
    let v' := <[last := v !!! O]> v in
    take last (adjust_heap v' O last value)
  else take last v.

(** [priority_queue::top] *)
Definition pq_top (v : list nat) : option nat := v !! O.

End ReadyQueue.

(** [ReadyQueue::enqueue] *)
Definition enqueue (st : list Process) (queue_ : list nat) (proc : nat)
  : list nat :=
  pq_push st queue_ proc.

(** [ReadyQueue::dequeue]: [None] is the null pointer. *)
Definition dequeue (st : list Process) (queue_ : list nat)
  : option nat * list nat :=
  match pq_top queue_ with
  | None => (None, queue_)
  | Some top => (Some top, pq_pop st queue_)
  end.

(** [ReadyQueue::empty] *)
Definition empty (queue_ : list nat) : bool :=
  match queue_ with [] => true | _ => false end.

(** The first loop of [ReadyQueue::applyAging]: pop every process, age it,
    append it to [temp]. *)
Fixpoint applyAging_drain (fuel : nat) (agingFactor : Z)
    (st : list Process) (queue_ temp : list nat)
  : option (list Process * list nat * list nat) :=
  match fuel with
  | O => Some (st, queue_, temp)
  | S fuel' =>
      match pq_top queue_ with
      | None => Some (st, queue_, temp)
      | Some proc =>
          let queue1 := pq_pop st queue_ in
          match applyAging agingFactor (st !!! proc) with
          | None => None
          | Some p' =>
              applyAging_drain fuel' agingFactor (<[proc := p']> st)
                queue1 (temp ++ [proc])
          end
      end
  end.

(** [ReadyQueue::applyAging(agingFactor)] *)
Definition ReadyQueue_applyAging (agingFactor : Z)
    (st : list Process) (queue_ : list nat)
  : option (list Process * list nat) :=
  match applyAging_drain (length queue_) agingFactor st queue_ [] with
  | None => None
  | Some (st', queue', temp) =>
      Some (st', fold_left (pq_push st') temp queue')
  end.

(** ** scheduler.h / scheduler.cpp *)

(** The two averages are [double]s in the source; the embedding keeps their
    exact rational value. *)
Record SchedulerStats := mkStats {
  totalProcesses : Z;
  runningProcesses : Z;
  readyProcesses : Z;
  waitingProcesses : Z;
  terminatedProcesses : Z;
  cpuUtilization : Z;
  contextSwitchCount : Z;
  averageWaitTime : Q;
  averageTurnaroundTime : Q
}.

Definition SchedulerStats_default : SchedulerStats :=
  mkStats 0 0 0 0 0 0 0 (0 # 1) (0 # 1).

Record Scheduler := mkScheduler {
  readyQueue_ : list nat;
  allProcesses_ : list Process;
  currentProcess_ : option nat;
  running_ : bool;
  paused_ : bool;
  timeQuantumMs_ : Z;
  agingFactorSec_ : Z;
  stats_ : SchedulerStats;
  blockedProcesses_ : list (nat * Z);
  ioSimulationCounter_ : Z;
  nextPid : Z          (* [static int nextPid] of [createProcess] *)
}.

(** [Scheduler::Scheduler()] with the member initialisers of scheduler.h.
    [nextPid] is not a member: it is a function-static of [createProcess],
    shared by all [Scheduler] objects of the program and carried here with
    the state of the one that is observed.  It holds 1 for the first
    [Scheduler] of a program, as long as no other has created a process. *)
Definition Scheduler_new : Scheduler :=
  mkScheduler [] [] None false false 100 5 SchedulerStats_default [] 0 1.

Definition set_readyQueue (q : list nat) (s : Scheduler) : Scheduler :=
  mkScheduler q (allProcesses_ s) (currentProcess_ s) (running_ s) (paused_ s)
    (timeQuantumMs_ s) (agingFactorSec_ s) (stats_ s) (blockedProcesses_ s)
    (ioSimulationCounter_ s) (nextPid s).

Definition set_allProcesses (l : list Process) (s : Scheduler) : Scheduler :=
  mkScheduler (readyQueue_ s) l (currentProcess_ s) (running_ s) (paused_ s)
    (timeQuantumMs_ s) (agingFactorSec_ s) (stats_ s) (blockedProcesses_ s)
    (ioSimulationCounter_ s) (nextPid s).

Definition set_currentProcess (c : option nat) (s : Scheduler) : Scheduler :=
  mkScheduler (readyQueue_ s) (allProcesses_ s) c (running_ s) (paused_ s)
    (timeQuantumMs_ s) (agingFactorSec_ s) (stats_ s) (blockedProcesses_ s)
    (ioSimulationCounter_ s) (nextPid s).

Definition set_flags (r p : bool) (s : Scheduler) : Scheduler :=
  mkScheduler (readyQueue_ s) (allProcesses_ s) (currentProcess_ s) r p
    (timeQuantumMs_ s) (agingFactorSec_ s) (stats_ s) (blockedProcesses_ s)
    (ioSimulationCounter_ s) (nextPid s).

Definition set_stats (st : SchedulerStats) (s : Scheduler) : Scheduler :=
  mkScheduler (readyQueue_ s) (allProcesses_ s) (currentProcess_ s)
    (running_ s) (paused_ s)
    (timeQuantumMs_ s) (agingFactorSec_ s) st (blockedProcesses_ s)
    (ioSimulationCounter_ s) (nextPid s).

Definition set_blockedProcesses (b : list (nat * Z)) (s : Scheduler)
  : Scheduler :=
  mkScheduler (readyQueue_ s) (allProcesses_ s) (currentProcess_ s)
    (running_ s) (paused_ s)
    (timeQuantumMs_ s) (agingFactorSec_ s) (stats_ s) b
    (ioSimulationCounter_ s) (nextPid s).

Definition set_ioSimulationCounter (c : Z) (s : Scheduler) : Scheduler :=
  mkScheduler (readyQueue_ s) (allProcesses_ s) (currentProcess_ s)
    (running_ s) (paused_ s)
    (timeQuantumMs_ s) (agingFactorSec_ s) (stats_ s) (blockedProcesses_ s)
    c (nextPid s).

Definition set_nextPid (n : Z) (s : Scheduler) : Scheduler :=
  mkScheduler (readyQueue_ s) (allProcesses_ s) (currentProcess_ s)
    (running_ s) (paused_ s)
    (timeQuantumMs_ s) (agingFactorSec_ s) (stats_ s) (blockedProcesses_ s)
    (ioSimulationCounter_ s) n.

(** [Scheduler::setTimeQuantum], [Scheduler::setAgingFactor] *)
Definition setTimeQuantum (ms : Z) (s : Scheduler) : Scheduler :=
  mkScheduler (readyQueue_ s) (allProcesses_ s) (currentProcess_ s)
    (running_ s) (paused_ s)
    ms (agingFactorSec_ s) (stats_ s) (blockedProcesses_ s)
    (ioSimulationCounter_ s) (nextPid s).

Definition setAgingFactor (seconds : Z) (s : Scheduler) : Scheduler :=
  mkScheduler (readyQueue_ s) (allProcesses_ s) (currentProcess_ s)
    (running_ s) (paused_ s)
    (timeQuantumMs_ s) seconds (stats_ s) (blockedProcesses_ s)
    (ioSimulationCounter_ s) (nextPid s).

(** The per-process body of the loop of [Scheduler::updateStats]. *)
Definition updateStats_process (timeQuantumMs currentTime : Z) (p : Process)
  : Process :=
  let p1 := if bool_decide (state_ p = READY)
            then set_waitTime (waitTime p + timeQuantumMs) p else p in
  if bool_decide (state_ p1 ≠ TERMINATED)
  then set_turnaroundTime (currentTime - arrivalTime p1) p1 else p1.

Definition count_state (st : ProcessState) (l : list Process) : Z :=
  Z.of_nat (length (filter (λ p, state_ p = st) l)).

Definition sum_Z (l : list Z) : Z := fold_right Z.add 0 l.

(** [Scheduler::updateStats()]; [currentTime] is the clock reading.  The
    statistics callback is an observer outside the scheduler state. *)
Definition updateStats (currentTime : Z) (s : Scheduler) : Scheduler :=
  let l := map (updateStats_process (timeQuantumMs_ s) currentTime)
             (allProcesses_ s) in
  let total := Z.of_nat (length l) in
  let running := count_state RUNNING l in
  let totalWait := sum_Z (map waitTime l) in
  let totalTurnaround := sum_Z (map turnaroundTime l) in
  let newStats :=
    mkStats total running (count_state READY l) (count_state WAITING l)
      (count_state TERMINATED l)
      (if 0 <? running then 100 else 0)
      (contextSwitchCount (stats_ s))
      (if 0 <? total then (totalWait # Z.to_pos total) else (0 # 1))
      (if 0 <? total then (totalTurnaround # Z.to_pos total) else (0 # 1)) in
  set_stats newStats (set_allProcesses l s).

(** [Scheduler::createProcess(name, priority, burstTime)]; [arrival] and
    [currentTime] are the two clock readings.  Returns the new pointer. *)
Definition createProcess (name : string) (priority burstTime : Z)
    (arrival currentTime : Z) (s : Scheduler) : nat * Scheduler :=
  let proc := length (allProcesses_ s) in
  let p := set_arrivalTime arrival
             (setState NEW (new_Process (nextPid s) name priority burstTime)) in
  let s1 := set_nextPid (nextPid s + 1) s in
  let s2 := set_allProcesses (allProcesses_ s1 ++ [p]) s1 in
  let s3 := set_readyQueue
              (enqueue (allProcesses_ s2) (readyQueue_ s2) proc) s2 in
  let s4 := set_allProcesses (alter (setState READY) proc (allProcesses_ s3))
              s3 in
  (proc, updateStats currentTime s4).

(** [Scheduler::terminateProcess(pid)] *)
Definition terminateProcess (pid : Z) (currentTime : Z) (s : Scheduler)
  : Scheduler :=
  let s1 :=
    match find_index (λ p, pid_ p =? pid) (allProcesses_ s) with
    | Some i =>
        set_allProcesses (alter (setState TERMINATED) i (allProcesses_ s)) s
    | None => s
    end in
  updateStats currentTime s1.

(** [Scheduler::blockProcess(pid)] *)
Definition blockProcess (pid : Z) (currentTime : Z) (s : Scheduler)
  : Scheduler :=
  let s1 :=
    match find_index
            (λ p, (pid_ p =? pid) && bool_decide (state_ p = RUNNING))
            (allProcesses_ s) with
    | Some i =>
        set_allProcesses (alter (setState WAITING) i (allProcesses_ s)) s
    | None => s
    end in
  updateStats currentTime s1.

(** [Scheduler::unblockProcess(pid)] *)
Definition unblockProcess (pid : Z) (currentTime : Z) (s : Scheduler)
  : Scheduler :=
  let s1 :=
    match find_index
            (λ p, (pid_ p =? pid) && bool_decide (state_ p = WAITING))
            (allProcesses_ s) with
    | Some i =>
        let s' := set_allProcesses
                    (alter (setState READY) i (allProcesses_ s)) s in
        set_readyQueue (enqueue (allProcesses_ s') (readyQueue_ s') i) s'
    | None => s
    end in
  updateStats currentTime s1.

(** [Scheduler::start], [Scheduler::pause], [Scheduler::stop] *)
Definition start (s : Scheduler) : Scheduler :=
  if running_ s then s else set_flags true false s.
Definition pause (s : Scheduler) : Scheduler := set_flags (running_ s) true s.
Definition stop (s : Scheduler) : Scheduler := set_flags false (paused_ s) s.

(** [Scheduler::selectNextProcess()] *)
Definition selectNextProcess (s : Scheduler) : Scheduler :=
  let vacant :=
    match currentProcess_ s with
    | None => true
    | Some c => bool_decide (state_ (allProcesses_ s !!! c) = TERMINATED)
    end in
  if vacant && negb (empty (readyQueue_ s)) then
    match dequeue (allProcesses_ s) (readyQueue_ s) with
    | (Some c, q) =>
        set_allProcesses (alter (setState RUNNING) c (allProcesses_ s))
          (set_currentProcess (Some c) (set_readyQueue q s))
    | (None, _) => s
    end
  else s.

(** [Scheduler::applyAging()] *)
Definition Scheduler_applyAging (s : Scheduler) : option Scheduler :=
  match ReadyQueue_applyAging (agingFactorSec_ s)
          (allProcesses_ s) (readyQueue_ s) with
  | None => None
  | Some (st', q') => Some (set_readyQueue q' (set_allProcesses st' s))
  end.

(** The [if (currentProcess_) { ... }] block of [schedulerLoop]: execute the
    running process for one quantum, then the I/O simulation and the
    termination test.  [rnd] is the value of [rand()]. *)
Definition run_current (rnd : Z) (s : Scheduler) : Scheduler :=
  match currentProcess_ s with
  | None => s
  | Some c =>
      let s1 := set_allProcesses
                  (alter (execute (timeQuantumMs_ s)) c (allProcesses_ s)) s in
      let s2 := set_ioSimulationCounter (ioSimulationCounter_ s1 + 1) s1 in
      let p := allProcesses_ s2 !!! c in
      if (Z.rem (ioSimulationCounter_ s2) 10 =? 0)
         && bool_decide (state_ p ≠ TERMINATED)
         && (500 <? remainingTime_ p)
      then
        let ioTime := 100 + Z.rem rnd 200 in
        let s3 := set_allProcesses
                    (alter (setState WAITING) c (allProcesses_ s2)) s2 in
        let s4 := set_blockedProcesses
                    (blockedProcesses_ s3 ++ [(c, ioTime)]) s3 in
        set_currentProcess None s4
      else if bool_decide (state_ p = TERMINATED)
      then set_currentProcess None s2
      else s2
  end.

(** The loop over [blockedProcesses_] of [schedulerLoop]: returns the store,
    the ready queue and the entries that stay blocked. *)
Fixpoint check_blocked (timeQuantumMs : Z) (blocked : list (nat * Z))
    (st : list Process) (q : list nat)
  : list Process * list nat * list (nat * Z) :=
  match blocked with
  | [] => (st, q, [])
  | (proc, io) :: rest =>
      let io' := io - timeQuantumMs in
      if io' <=? 0 then
        let st' := alter (setState READY) proc st in
        check_blocked timeQuantumMs rest st' (enqueue st' q proc)
      else
        let '(st', q', rest') := check_blocked timeQuantumMs rest st q in
        (st', q', (proc, io') :: rest')
  end.

(** One pass through the body of the [while (running_)] loop of
    [Scheduler::schedulerLoop()]. *)
Definition schedulerLoop_body (rnd currentTime : Z) (s : Scheduler)
  : option Scheduler :=
  if paused_ s then Some s
  else
    let s1 := selectNextProcess s in
    let s2 := run_current rnd s1 in
    let '(st, q, blocked) :=
      check_blocked (timeQuantumMs_ s2) (blockedProcesses_ s2)
        (allProcesses_ s2) (readyQueue_ s2) in
    let s3 := set_blockedProcesses blocked
                (set_readyQueue q (set_allProcesses st s2)) in
    match Scheduler_applyAging s3 with
    | None => None
    | Some s4 => Some (updateStats currentTime s4)
    end.

(** ** The simulator as a transition system

    The GUI thread issues the Control API calls, the detached worker thread
    runs passes of the loop while [running_] holds.  An event is one call,
    or one pass of the loop, run to its end: a run of events is an
    execution in which calls and passes do not overlap.  (The worker
    sleeps a quantum after every pass.  [start] after [stop] can leave a
    second worker behind; its passes are [EvLoop] events as well, as long as
    no pass runs inside another.)  [updateStats] and the test of
    [selectNextProcess] run outside the lock, so that what overlapping
    calls and passes do is not described by [run]. *)
Inductive event :=
  | EvCreate (name : string) (priority burstTime arrival currentTime : Z)
  | EvTerminate (pid currentTime : Z)
  | EvBlock (pid currentTime : Z)
  | EvUnblock (pid currentTime : Z)
  | EvSetTimeQuantum (ms : Z)
  | EvSetAgingFactor (seconds : Z)
  | EvStart
  | EvPause
  | EvStop
  | EvLoop (rnd currentTime : Z).

Definition do_event (e : event) (s : Scheduler) : option Scheduler :=
  match e with
  | EvCreate name priority burstTime arrival currentTime =>
      Some (snd (createProcess name priority burstTime arrival currentTime s))
  | EvTerminate pid currentTime => Some (terminateProcess pid currentTime s)
  | EvBlock pid currentTime => Some (blockProcess pid currentTime s)
  | EvUnblock pid currentTime => Some (unblockProcess pid currentTime s)
  | EvSetTimeQuantum ms => Some (setTimeQuantum ms s)
  | EvSetAgingFactor seconds => Some (setAgingFactor seconds s)
  | EvStart => Some (start s)
  | EvPause => Some (pause s)
  | EvStop => Some (stop s)
  | EvLoop rnd currentTime =>
      if running_ s then schedulerLoop_body rnd currentTime s else Some s
  end.

Fixpoint run (es : list event) (s : Scheduler) : option Scheduler :=
  match es with
  | [] => Some s
  | e :: es' =>
      match do_event e s with
      | Some s' => run es' s'
      | None => None
      end
  end.

(** Inputs within the ranges of the data model: no negative burst, no
    negative quantum. *)
Definition event_in_range (e : event) : Prop :=
  match e with
  | EvCreate _ _ burstTime _ _ => 0 <= burstTime
  | EvSetTimeQuantum ms => 0 <= ms
  | _ => True
  end.

(** ** Predicates of the data model *)

(** The bound on the remaining time of a PCB. *)
Definition remaining_bounded (p : Process) : Prop :=
  0 <= remainingTime_ p <= burstTime_ p.

(** The bound on the priorities of a PCB. *)
Definition priority_bounded (p : Process) : Prop :=
  0 <= effectivePriority_ p <= basePriority_ p /\ basePriority_ p <= 10.

(** Invariant of the simulator for inputs in range. *)
Definition remaining_inv (s : Scheduler) : Prop :=
  0 <= timeQuantumMs_ s /\ Forall remaining_bounded (allProcesses_ s).

(** The context-switch counter that the statistics report. *)
Definition switches (s : Scheduler) : Z := contextSwitchCount (stats_ s).

(** The clock reading that a Control API call hands to [updateStats]. *)
Definition control_call (e : event) : option Z :=
  match e with
  | EvCreate _ _ _ _ currentTime => Some currentTime
  | EvTerminate _ currentTime => Some currentTime
  | EvBlock _ currentTime => Some currentTime
  | EvUnblock _ currentTime => Some currentTime
  | _ => None
  end.

(** [accrued quantum now p p']: [p'] is [p] after one recomputation of the
    statistics at time [now], whatever else happened to its state: a full
    quantum of wait if it is READY, a fresh turnaround unless TERMINATED. *)
Definition accrued (quantum now : Z) (p p' : Process) : Prop :=
  waitTime p' =
    (if bool_decide (state_ p' = READY) then waitTime p + quantum
     else waitTime p) /\
  turnaroundTime p' =
    (if bool_decide (state_ p' <> TERMINATED) then now - arrivalTime p
     else turnaroundTime p) /\
  pid_ p' = pid_ p /\ arrivalTime p' = arrivalTime p /\
  remainingTime_ p' = remainingTime_ p.

(** ** Observers and further predicates *)

(** [ReadyQueue::peek]: [None] is the null pointer. *)
Definition peek (queue_ : list nat) : option nat := pq_top queue_.

(** [Scheduler::getProcessList], [Scheduler::getStats] *)
Definition getProcessList (s : Scheduler) : list Process := allProcesses_ s.
Definition getStats (s : Scheduler) : SchedulerStats := stats_ s.

(** The states of the PCBs, by position. *)
Definition states (s : Scheduler) : list ProcessState :=
  state_ <$> allProcesses_ s.

(** The fields of a PCB that are written once, when it is created. *)
Definition identity (p : Process) : Z * string * Z * Z * Z :=
  (pid_ p, name_ p, basePriority_ p, burstTime_ p, arrivalTime p).

(** No PCB is NEW, and only the PCB in the running slot is RUNNING. *)
Definition slot_inv (sts : list ProcessState) (cur : option nat) : Prop :=
  Forall (fun c => c <> NEW) sts /\
  forall i, sts !! i = Some RUNNING -> cur = Some i.

(** The statistics are those of the current process list. *)
Definition stats_fresh (s : Scheduler) : Prop :=
  totalProcesses (stats_ s) = Z.of_nat (length (allProcesses_ s)) /\
  runningProcesses (stats_ s) = count_state RUNNING (allProcesses_ s) /\
  readyProcesses (stats_ s) = count_state READY (allProcesses_ s) /\
  waitingProcesses (stats_ s) = count_state WAITING (allProcesses_ s) /\
  terminatedProcesses (stats_ s) = count_state TERMINATED (allProcesses_ s) /\
  cpuUtilization (stats_ s)
    = (if 0 <? count_state RUNNING (allProcesses_ s) then 100 else 0).

(** The events that [start] and the worker thread produce. *)
Definition start_or_loop (e : event) : Prop :=
  match e with EvStart | EvLoop _ _ => True | _ => False end.

(** [rand()] returns a value that is not negative. *)
Definition rand_in_range (e : event) : Prop :=
  match e with EvLoop rnd _ => 0 <= rnd | _ => True end.

(** The bound on the timers of the blocked list. *)
Definition io_bounded (s : Scheduler) : Prop :=
  0 <= timeQuantumMs_ s /\
  Forall (fun e : nat * Z => 0 < e.2 < 300) (blockedProcesses_ s).

(** The processes whose timer runs out in a pass over the blocked list with
    the given quantum, in the order of the list. *)
Definition io_complete (timeQuantumMs : Z) (blocked : list (nat * Z))
  : list nat :=
  (filter (fun e : nat * Z => e.2 - timeQuantumMs <= 0) blocked).*1.

(** ** The heap of the ready queue *)

(** The key of the PCB at position [i] of the store [st]. *)
Definition key (st : list Process) (i : nat) : Z :=
  effectivePriority_ (st !!! i).

(** The first [len] entries of the vector [v] form a binary heap for the
    comparator: no entry has a key below the key of its parent. *)
Definition is_heap (st : list Process) (v : list nat) (len : nat) : Prop :=
  forall i, (0 < i < len)%nat ->
            key st (v !!! ((i - 1) / 2)%nat) <= key st (v !!! i).

(** The invariant of the sift-up with the hole at [h]. *)
Definition push_inv (st : list Process) (v : list nat) (len h : nat)
    (value : nat) : Prop :=
  (h < len <= length v)%nat /\
  (forall i, (0 < i < len)%nat -> i <> h -> ((i - 1) / 2)%nat <> h ->
             key st (v !!! ((i - 1) / 2)%nat) <= key st (v !!! i)) /\
  (forall c, (0 < c < len)%nat -> ((c - 1) / 2)%nat = h ->
             key st value <= key st (v !!! c)) /\
  (forall c, (0 < c < len)%nat -> ((c - 1) / 2)%nat = h -> (0 < h)%nat ->
             key st (v !!! ((h - 1) / 2)%nat) <= key st (v !!! c)).

(** The invariant of the sift-down with the hole at [h]. *)
Definition down_inv (st : list Process) (v : list nat) (len h : nat) : Prop :=
  (h < len <= length v)%nat /\
  (forall i, (0 < i < len)%nat -> i <> h -> ((i - 1) / 2)%nat <> h ->
             key st (v !!! ((i - 1) / 2)%nat) <= key st (v !!! i)) /\
  (forall c, (0 < c < len)%nat -> ((c - 1) / 2)%nat = h -> (0 < h)%nat ->
             key st (v !!! ((h - 1) / 2)%nat) <= key st (v !!! c)).

(** The ready queue is a heap of valid pointers, and the blocked list and
    the running slot hold valid pointers. *)
Definition heap_inv (s : Scheduler) : Prop :=
  is_heap (allProcesses_ s) (readyQueue_ s) (length (readyQueue_ s)) /\
  Forall (fun i => (i < length (allProcesses_ s))%nat) (readyQueue_ s) /\
  Forall (fun e : nat * Z => (e.1 < length (allProcesses_ s))%nat)
    (blockedProcesses_ s) /\
  (forall c, currentProcess_ s = Some c -> (c < length (allProcesses_ s))%nat).

(** What [Process::applyAging] with a factor that is not zero makes of a
    PCB. *)
Definition aged (agingFactor : Z) (p : Process) : Process :=
  set_effectivePriority
    (basePriority_ p + Z.quot (waitTime p) agingFactor) p.

End Sim.

(** * The kernel module *)

Module Kmod.

Inductive proc_state :=
  PROC_NEW | PROC_READY | PROC_RUNNING | PROC_WAITING | PROC_TERMINATED.

#[global] Instance proc_state_eq_dec : EqDecision proc_state.
Proof. solve_decision. Defined.

(** [struct custom_pcb]; the two [list_head] links are represented by the
    position of the PCB in [all_processes] and by the membership of that
    position in the ready queue. *)
Record custom_pcb := mkPcb {
  pid : Z;
  name : string;
  base_priority : Z;
  effective_priority : Z;
  burst_time_ms : Z;
  remaining_time_ms : Z;
  state : proc_state;
  arrival_time_jiffies : Z;
  wait_time_ms : Z;
  turnaround_time_ms : Z;
  last_update_jiffies : Z;
  wakeup_time_jiffies : Z
}.

#[global] Instance custom_pcb_inhabited : Inhabited custom_pcb :=
  populate (mkPcb 0 ""%string 0 0 0 0 PROC_NEW 0 0 0 0 0).

Definition set_state (s : proc_state) (p : custom_pcb) : custom_pcb :=
  mkPcb (pid p) (name p) (base_priority p) (effective_priority p)
    (burst_time_ms p) (remaining_time_ms p) s (arrival_time_jiffies p)
    (wait_time_ms p) (turnaround_time_ms p) (last_update_jiffies p)
    (wakeup_time_jiffies p).

Definition set_effective_priority (e : Z) (p : custom_pcb) : custom_pcb :=
  mkPcb (pid p) (name p) (base_priority p) e
    (burst_time_ms p) (remaining_time_ms p) (state p) (arrival_time_jiffies p)
    (wait_time_ms p) (turnaround_time_ms p) (last_update_jiffies p)
    (wakeup_time_jiffies p).

Definition set_remaining_time_ms (r : Z) (p : custom_pcb) : custom_pcb :=
  mkPcb (pid p) (name p) (base_priority p) (effective_priority p)
    (burst_time_ms p) r (state p) (arrival_time_jiffies p)
    (wait_time_ms p) (turnaround_time_ms p) (last_update_jiffies p)
    (wakeup_time_jiffies p).

Definition set_wait_time_ms (w : Z) (p : custom_pcb) : custom_pcb :=
  mkPcb (pid p) (name p) (base_priority p) (effective_priority p)
    (burst_time_ms p) (remaining_time_ms p) (state p) (arrival_time_jiffies p)
    w (turnaround_time_ms p) (last_update_jiffies p)
    (wakeup_time_jiffies p).

Definition set_turnaround_time_ms (t : Z) (p : custom_pcb) : custom_pcb :=
  mkPcb (pid p) (name p) (base_priority p) (effective_priority p)
    (burst_time_ms p) (remaining_time_ms p) (state p) (arrival_time_jiffies p)
    (wait_time_ms p) t (last_update_jiffies p)
    (wakeup_time_jiffies p).

Definition set_last_update_jiffies (j : Z) (p : custom_pcb) : custom_pcb :=
  mkPcb (pid p) (name p) (base_priority p) (effective_priority p)
    (burst_time_ms p) (remaining_time_ms p) (state p) (arrival_time_jiffies p)
    (wait_time_ms p) (turnaround_time_ms p) j
    (wakeup_time_jiffies p).

Definition set_wakeup_time_jiffies (j : Z) (p : custom_pcb) : custom_pcb :=
  mkPcb (pid p) (name p) (base_priority p) (effective_priority p)
    (burst_time_ms p) (remaining_time_ms p) (state p) (arrival_time_jiffies p)
    (wait_time_ms p) (turnaround_time_ms p) (last_update_jiffies p) j.

(** [struct sched_stats] *)
Record sched_stats := mkSchedStats {
  total_processes : Z;
  running_processes : Z;
  ready_processes : Z;
  waiting_processes : Z;
  terminated_processes : Z;
  context_switches : Z;
  cpu_utilization_percent : Z;
  avg_wait_time_ms : Z;
  avg_turnaround_time_ms : Z;
  total_cpu_time_ms : Z;
  total_idle_time_ms : Z
}.

(** The global data of the module; [ready_q_head] and [ready_q_count] are
    the two data fields of [struct ready_queue].  An intrusive list links a
    node at most once, so the queue is a list of PCB positions. *)
Record kstate := mkKstate {
  time_quantum_ms : Z;
  aging_factor_sec : Z;
  ready_q_head : list nat;
  ready_q_count : Z;
  current_proc : option nat;
  stats : sched_stats;
  scheduler_running : bool;
  all_processes : list custom_pcb;
  next_pid : Z
}.

(** The globals after [custom_scheduler_init], for given module parameters. *)
Definition kstate_init (quantum aging : Z) : kstate :=
  mkKstate quantum aging [] 0 None
    (mkSchedStats 0 0 0 0 0 0 0 0 0 0 0) true [] 1.

Definition set_ready_q (q : list nat) (c : Z) (s : kstate) : kstate :=
  mkKstate (time_quantum_ms s) (aging_factor_sec s) q c (current_proc s)
    (stats s) (scheduler_running s) (all_processes s) (next_pid s).

Definition set_current_proc (c : option nat) (s : kstate) : kstate :=
  mkKstate (time_quantum_ms s) (aging_factor_sec s) (ready_q_head s)
    (ready_q_count s) c
    (stats s) (scheduler_running s) (all_processes s) (next_pid s).

Definition set_stats (st : sched_stats) (s : kstate) : kstate :=
  mkKstate (time_quantum_ms s) (aging_factor_sec s) (ready_q_head s)
    (ready_q_count s) (current_proc s)
    st (scheduler_running s) (all_processes s) (next_pid s).

Definition set_all_processes (l : list custom_pcb) (s : kstate) : kstate :=
  mkKstate (time_quantum_ms s) (aging_factor_sec s) (ready_q_head s)
    (ready_q_count s) (current_proc s)
    (stats s) (scheduler_running s) l (next_pid s).

Definition set_next_pid (n : Z) (s : kstate) : kstate :=
  mkKstate (time_quantum_ms s) (aging_factor_sec s) (ready_q_head s)
    (ready_q_count s) (current_proc s)
    (stats s) (scheduler_running s) (all_processes s) n.

(** A write to the module parameters through sysfs. *)
Definition set_params (quantum aging : Z) (s : kstate) : kstate :=
  mkKstate quantum aging (ready_q_head s)
    (ready_q_count s) (current_proc s)
    (stats s) (scheduler_running s) (all_processes s) (next_pid s).

Definition set_context_switches (c : Z) (st : sched_stats) : sched_stats :=
  mkSchedStats (total_processes st) (running_processes st)
    (ready_processes st) (waiting_processes st) (terminated_processes st)
    c (cpu_utilization_percent st) (avg_wait_time_ms st)
    (avg_turnaround_time_ms st) (total_cpu_time_ms st) (total_idle_time_ms st).

Definition set_total_cpu_time_ms (c : Z) (st : sched_stats) : sched_stats :=
  mkSchedStats (total_processes st) (running_processes st)
    (ready_processes st) (waiting_processes st) (terminated_processes st)
    (context_switches st) (cpu_utilization_percent st) (avg_wait_time_ms st)
    (avg_turnaround_time_ms st) c (total_idle_time_ms st).

Definition set_total_idle_time_ms (c : Z) (st : sched_stats) : sched_stats :=
  mkSchedStats (total_processes st) (running_processes st)
    (ready_processes st) (waiting_processes st) (terminated_processes st)
    (context_switches st) (cpu_utilization_percent st) (avg_wait_time_ms st)
    (avg_turnaround_time_ms st) (total_cpu_time_ms st) c.

(** [time_after_eq(a, b)], that is [(long)((a) - (b)) >= 0] *)
Definition time_after_eq (a b : Z) : bool := 0 <=? to_long (a - b).

(** The insertion loop of [enqueue_process]: before the first member whose
    effective priority is numerically greater, else at the tail. *)
Fixpoint insert_by_priority (st : list custom_pcb) (proc : nat)
    (q : list nat) : list nat :=
  match q with
  | [] => [proc]
  | pos :: rest =>
      if effective_priority (st !!! proc) <? effective_priority (st !!! pos)
      then proc :: pos :: rest
      else pos :: insert_by_priority st proc rest
  end.

(** [enqueue_process(proc)] *)
Definition enqueue_process (proc : nat) (s : kstate) : kstate :=
  set_ready_q (insert_by_priority (all_processes s) proc (ready_q_head s))
    (to_int (ready_q_count s + 1)) s.

(** [dequeue_process()] *)
Definition dequeue_process (s : kstate) : option nat * kstate :=
  match ready_q_head s with
  | [] => (None, s)
  | proc :: rest => (Some proc, set_ready_q rest (to_int (ready_q_count s - 1)) s)
  end.

(** [list_del(&p->list); ready_q.count--;] of the WAIT command *)
Definition remove_process (proc : nat) (s : kstate) : kstate :=
  set_ready_q (filter (λ j, j ≠ proc) (ready_q_head s))
    (to_int (ready_q_count s - 1)) s.

Section KernelApi.

(** Constants and helpers of the kernel that the module uses: the tick rate
    [HZ] (a positive build-time constant) and the two time conversions. *)
Variable HZ : Z.
Variable msecs_to_jiffies : Z -> Z.
Variable jiffies_to_msecs : Z -> Z.

(** The body of the loop of [apply_aging] for one member of the queue. *)
Definition apply_aging_pcb (aging_factor_sec current_jiffies : Z)
    (proc : custom_pcb) : custom_pcb :=
  if bool_decide (state proc = PROC_READY) then
    let wait_sec := to_ulong (current_jiffies - last_update_jiffies proc) / HZ in
    if 0 <? aging_factor_sec then
      let e := to_int (to_ulong (to_ulong (base_priority proc)
                                 - wait_sec / to_ulong aging_factor_sec)) in
      set_effective_priority (if e <? 0 then 0 else e) proc
    else proc
  else proc.

(** [apply_aging()]; [current_jiffies] is the reading of [jiffies]. *)
Definition apply_aging (current_jiffies : Z) (s : kstate) : kstate :=
  set_all_processes
    (fold_left
       (λ st proc,
          alter (apply_aging_pcb (aging_factor_sec s) current_jiffies) proc st)
       (ready_q_head s) (all_processes s))
    s.

(** The body of the loop of [check_waiting_processes] for the PCB at
    position [proc]. *)
Definition wake_process (jiffies : Z) (s : kstate) (proc : nat) : kstate :=
  let p := all_processes s !!! proc in
  if bool_decide (state p = PROC_WAITING)
     && time_after_eq jiffies (wakeup_time_jiffies p)
  then
    enqueue_process proc
      (set_all_processes
         (alter (λ p, set_last_update_jiffies jiffies (set_state PROC_READY p))
            proc (all_processes s))
         s)
  else s.

(** [check_waiting_processes()] *)
Definition check_waiting_processes (jiffies : Z) (s : kstate) : kstate :=
  fold_left (wake_process jiffies) (seq 0 (length (all_processes s))) s.

(** [select_next_process()] *)
Definition select_next_process (s : kstate) : option nat * kstate :=
  let still_running :=
    match current_proc s with
    | Some c => bool_decide (state (all_processes s !!! c) = PROC_RUNNING)
    | None => false
    end in
  if still_running then (current_proc s, s)
  else
    match dequeue_process s with
    | (Some proc, s1) =>
        (Some proc,
         set_stats
           (set_context_switches
              (to_ulong (context_switches (stats s1) + 1)) (stats s1))
           (set_current_proc (Some proc)
              (set_all_processes
                 (alter (set_state PROC_RUNNING) proc (all_processes s1))
                 s1)))
    | (None, s1) => (None, s1)
    end.

Definition count_state (st : proc_state) (l : list custom_pcb) : Z :=
  Z.of_nat (length (filter (λ p, state p = st) l)).

Definition sum_ulong (l : list Z) : Z :=
  fold_left (λ acc x, to_ulong (acc + x)) l 0.

(** [update_statistics()] *)
Definition update_statistics (s : kstate) : kstate :=
  let l := all_processes s in
  let st := stats s in
  let count := to_int (Z.of_nat (length l)) in
  let total_wait := sum_ulong (map wait_time_ms l) in
  let total_turnaround := sum_ulong (map turnaround_time_ms l) in
  let busy := total_cpu_time_ms st in
  let idle := total_idle_time_ms st in
  set_stats
    (mkSchedStats
       (to_ulong count)
       (count_state PROC_RUNNING l) (count_state PROC_READY l)
       (count_state PROC_WAITING l) (count_state PROC_TERMINATED l)
       (context_switches st)
       (if 0 <? to_ulong (busy + idle)
        then to_ulong (busy * 100) / to_ulong (busy + idle)
        else cpu_utilization_percent st)
       (if 0 <? count then total_wait / to_ulong count
        else avg_wait_time_ms st)
       (if 0 <? count then total_turnaround / to_ulong count
        else avg_turnaround_time_ms st)
       busy idle)
    s.

(** The scheduler thread keeps [proc] and [exec_time] in local variables
    while it sleeps; commands can run in between. *)
Inductive thread_pc :=
  | LoopTop
  | Executing (proc : nat) (exec_time : Z)
  | Idling.

(** The first half of one pass of the loop of [scheduler_thread_fn], up to
    the [msleep]: wake, age, select, and the idle accounting.  The two
    arguments are the readings of [jiffies] of the first two phases. *)
Definition iteration_begin (jiffies_wake jiffies_age : Z) (s : kstate)
  : thread_pc * kstate :=
  let s1 := check_waiting_processes jiffies_wake s in
  let s2 := apply_aging jiffies_age s1 in
  match select_next_process s2 with
  | (Some proc, s3) =>
      let exec_time :=
        Z.min (time_quantum_ms s3)
          (remaining_time_ms (all_processes s3 !!! proc)) in
      (Executing proc exec_time, s3)
  | (None, s3) =>
      (Idling,
       set_stats
         (set_total_idle_time_ms
            (to_ulong (total_idle_time_ms (stats s3)
                       + to_ulong (time_quantum_ms s3)))
            (stats s3))
         s3)
  end.

(** The locked block after [msleep(exec_time)]: account the slice, then the
    post-execute decision. *)
Definition post_execute (proc : nat) (exec_time jiffies : Z) (s : kstate)
  : kstate :=
  let l1 := alter (λ p, set_remaining_time_ms
                          (to_int (remaining_time_ms p - exec_time)) p)
              proc (all_processes s) in
  let st1 := set_total_cpu_time_ms
               (to_ulong (total_cpu_time_ms (stats s) + to_ulong exec_time))
               (stats s) in
  let l2 := map (λ p, if bool_decide (state p = PROC_READY)
                      then set_wait_time_ms
                             (to_ulong (wait_time_ms p + to_ulong exec_time)) p
                      else p) l1 in
  let s2 := set_stats st1 (set_all_processes l2 s) in
  let p := all_processes s2 !!! proc in
  if bool_decide (state p = PROC_WAITING) then
    set_current_proc None s2
  else if remaining_time_ms p <=? 0 then
    set_current_proc None
      (set_all_processes
         (alter (λ p, set_turnaround_time_ms
                        (jiffies_to_msecs
                           (to_ulong (jiffies - arrival_time_jiffies p)))
                        (set_state PROC_TERMINATED p))
            proc (all_processes s2))
         s2)
  else
    set_current_proc None
      (enqueue_process proc
         (set_all_processes
            (alter (λ p, set_last_update_jiffies jiffies
                           (set_state PROC_READY p))
               proc (all_processes s2))
            s2)).

(** The second half of the pass: after the sleep, then [update_statistics]. *)
Definition iteration_end (pc : thread_pc) (jiffies : Z) (s : kstate)
  : kstate :=
  match pc with
  | Executing proc exec_time =>
      update_statistics (post_execute proc exec_time jiffies s)
  | Idling => update_statistics s
  | LoopTop => s
  end.

(** What [sscanf] and [copy_from_user] make of the text written to
    /proc/sched_stats. *)
Inductive command :=
  | CmdNEW (name : string) (burst_time priority : Z)
  | CmdWAIT (pid wait_ms : Z)
  | CmdRejected          (* too long, malformed arguments or unknown verb *)
  | CmdFault.            (* [copy_from_user] failed *)

Inductive write_result := Written | EINVAL | ENOMEM | EFAULT.

(** The first [strncpy(proc->name, name, 31)] characters of the name. *)
Fixpoint strncpy (n : nat) (s : string) : string :=
  match n, s with
  | S n', String c s' => String c (strncpy n' s')
  | _, _ => ""%string
  end.

#[global] Arguments strncpy : simpl never.

(** The NEW branch of [sched_stats_write]; [alloc_ok] is the outcome of
    [kmalloc]. *)
Definition cmd_new (name : string) (burst_time priority : Z)
    (alloc_ok : bool) (jiffies : Z) (s : kstate) : write_result * kstate :=
  if (burst_time <=? 0) || (priority <? 0) || (10 <? priority) then (EINVAL, s)
  else if negb alloc_ok then (ENOMEM, s)
  else
    let new_pid := to_int (next_pid s + 1) in
    let proc := mkPcb new_pid (strncpy 31 name) priority priority
                  burst_time burst_time PROC_READY jiffies 0 0 jiffies 0 in
    let s1 := set_next_pid new_pid s in
    let s2 := set_all_processes (all_processes s1 ++ [proc]) s1 in
    (Written, enqueue_process (length (all_processes s1)) s2).

(** The NEW branch up to the end of its first critical section: the
    arguments are validated, the PCB is allocated, takes the next pid, is
    filled in and, under [sched_lock], linked into [all_processes].  The
    call of [enqueue_process] follows after the lock is released:
    [cmd_new] is this function followed by [enqueue_process], and the
    scheduler thread or another writer can run in between.  Returns the
    pointer to the new PCB. *)
Definition cmd_new_link (name : string) (burst_time priority : Z)
    (alloc_ok : bool) (jiffies : Z) (s : kstate)
  : write_result * option nat * kstate :=
  if (burst_time <=? 0) || (priority <? 0) || (10 <? priority)
  then (EINVAL, None, s)
  else if negb alloc_ok then (ENOMEM, None, s)
  else
    let new_pid := to_int (next_pid s + 1) in
    let proc := mkPcb new_pid (strncpy 31 name) priority priority
                  burst_time burst_time PROC_READY jiffies 0 0 jiffies 0 in
    let s1 := set_next_pid new_pid s in
    (Written, Some (length (all_processes s1)),
     set_all_processes (all_processes s1 ++ [proc]) s1).

(** The WAIT branch of [sched_stats_write]. *)
Definition cmd_wait (pid wait_ms : Z) (jiffies : Z) (s : kstate)
  : write_result * kstate :=
  match find_index (λ p, Kmod.pid p =? pid) (all_processes s) with
  | Some i =>
      let p := all_processes s !!! i in
      if bool_decide (state p = PROC_RUNNING)
         || bool_decide (state p = PROC_READY)
      then
        let s1 := if bool_decide (state p = PROC_RUNNING)
                  then set_current_proc None s
                  else remove_process i s in
        (Written,
         set_all_processes
           (alter (λ p, set_wakeup_time_jiffies
                          (to_ulong (jiffies + msecs_to_jiffies wait_ms))
                          (set_state PROC_WAITING p))
              i (all_processes s1))
           s1)
      else (Written, s)
  | None => (Written, s)
  end.

(** [sched_stats_write] *)
Definition sched_stats_write (c : command) (alloc_ok : bool) (jiffies : Z)
    (s : kstate) : write_result * kstate :=
  match c with
  | CmdNEW name burst_time priority =>
      cmd_new name burst_time priority alloc_ok jiffies s
  | CmdWAIT pid wait_ms => cmd_wait pid wait_ms jiffies s
  | CmdRejected => (EINVAL, s)
  | CmdFault => (EFAULT, s)
  end.

(** ** The module as a transition system: the scheduler thread, the
    writers of /proc/sched_stats and the writers of the module parameters.

    An event is one write, or one half of a pass of the thread, run to its
    end: a run of events is an execution in which these do not overlap.
    The module holds its locks for shorter stretches: the first half of a
    pass is three critical sections, and a NEW write takes its pid before
    it locks, links the PCB under [sched_lock] and enqueues it after the
    unlock ([cmd_new_link], then [enqueue_process]).  What holds over
    [krun] holds of the executions without overlap; it holds of all
    executions when every critical section keeps it on its own. *)
Inductive kevent :=
  | KWrite (c : command) (alloc_ok : bool) (jiffies : Z)
  | KParams (quantum aging : Z)
  | KBegin (jiffies_wake jiffies_age : Z)
  | KEnd (jiffies : Z).

Definition kstep (e : kevent) (cfg : thread_pc * kstate)
  : thread_pc * kstate :=
  let '(pc, s) := cfg in
  match e with
  | KWrite c alloc_ok jiffies => (pc, snd (sched_stats_write c alloc_ok jiffies s))
  | KParams quantum aging => (pc, set_params quantum aging s)
  | KBegin jiffies_wake jiffies_age =>
      match pc with
      | LoopTop => iteration_begin jiffies_wake jiffies_age s
      | _ => cfg
      end
  | KEnd jiffies =>
      match pc with
      | LoopTop => cfg
      | _ => (LoopTop, iteration_end pc jiffies s)
      end
  end.

Definition krun (es : list kevent) (cfg : thread_pc * kstate)
  : thread_pc * kstate :=
  fold_left (λ c e, kstep e c) es cfg.

(** Inputs within range: [%d] yields an [int], and the quantum is not
    negative. *)
Definition kevent_in_range (e : kevent) : Prop :=
  match e with
  | KWrite (CmdNEW _ burst_time _) _ _ => int_range burst_time
  | KParams quantum _ => 0 <= quantum
  | _ => True
  end.

End KernelApi.

(** ** Predicates of the data model *)

(** The bound on the remaining time of a PCB (the fields are [int]s). *)
Definition remaining_bounded (p : custom_pcb) : Prop :=
  0 <= remaining_time_ms p <= burst_time_ms p /\ int_range (burst_time_ms p).

(** The bound on the priorities of a PCB. *)
Definition priority_bounded (p : custom_pcb) : Prop :=
  0 <= effective_priority p <= base_priority p /\ base_priority p <= 10.

(** The part of [priority_bounded] that needs no proviso on the clock. *)
Definition priority_floor (p : custom_pcb) : Prop :=
  0 <= effective_priority p /\ 0 <= base_priority p <= 10.

(** The context-switch counter. *)
Definition switches (s : kstate) : Z := context_switches (stats s).

(** The key of the PCB at position [i] of the store [st]. *)
Definition key (st : list custom_pcb) (i : nat) : Z :=
  effective_priority (st !!! i).

(** The ready queue [q] is in ascending order of effective priority. *)
Definition queue_sorted (st : list custom_pcb) (q : list nat) : Prop :=
  StronglySorted (fun i j => key st i <= key st j) q.

(** The running slot does not hold a RUNNING process. *)
Definition slot_vacant (s : kstate) : Prop :=
  match current_proc s with
  | Some c => state (all_processes s !!! c) <> PROC_RUNNING
  | None => True
  end.

(** The states of the PCBs, by position. *)
Definition states (s : kstate) : list proc_state := state <$> all_processes s.

(** Membership invariants of the data model: the ready queue holds the
    READY PCBs, each once, and only the PCB in the running slot is RUNNING. *)
Definition membership_inv (q : list nat) (sts : list proc_state)
    (cur : option nat) : Prop :=
  NoDup q /\
  (forall i, i ∈ q <-> sts !! i = Some PROC_READY) /\
  (forall i, sts !! i = Some PROC_RUNNING -> cur = Some i).

(** What the scheduler thread knows of its process while it sleeps: it is
    RUNNING in the running slot, or a WAIT command has taken it away. *)
Definition thread_inv (pc : thread_pc) (sts : list proc_state)
    (cur : option nat) : Prop :=
  match pc with
  | Executing proc _ =>
      (sts !! proc = Some PROC_RUNNING /\ cur = Some proc) \/
      (sts !! proc = Some PROC_WAITING /\ cur = None)
  | _ => cur = None
  end.

Definition queue_inv (cfg : thread_pc * kstate) : Prop :=
  membership_inv (ready_q_head cfg.2) (states cfg.2) (current_proc cfg.2) /\
  thread_inv cfg.1 (states cfg.2) (current_proc cfg.2).

(** Invariant of the module for inputs in range; a sleeping scheduler
    thread holds a slice that fits the remaining time of its process. *)
Definition remaining_inv (cfg : thread_pc * kstate) : Prop :=
  0 <= time_quantum_ms cfg.2 /\
  Forall remaining_bounded (all_processes cfg.2) /\
  match cfg.1 with
  | Executing proc exec_time =>
      0 <= exec_time <= remaining_time_ms (all_processes cfg.2 !!! proc)
  | _ => True
  end.

(** The counter of the ready queue is the length of the list, as an [int]. *)
Definition count_inv (s : kstate) : Prop :=
  ready_q_count s = to_int (Z.of_nat (length (ready_q_head s))).

(** The fields of a PCB that are written once, when it is created. *)
Definition identity (p : custom_pcb) : Z * string * Z * Z * Z :=
  (pid p, name p, base_priority p, burst_time_ms p, arrival_time_jiffies p).

(** The pids are handed out in sequence; [atomic_inc_return] on a counter
    that starts at 1 gives 2 first. *)
Definition pid_inv (s : kstate) : Prop :=
  next_pid s = to_int (Z.of_nat (length (all_processes s)) + 1) /\
  pid <$> all_processes s
    = (fun i => to_int (Z.of_nat i + 2)) <$> seq 0 (length (all_processes s)).

(** The test of [check_waiting_processes] on one PCB at the reading
    [jiffies], and what the loop body makes of the PCB. *)
Definition due (jiffies : Z) (p : custom_pcb) : bool :=
  bool_decide (state p = PROC_WAITING)
  && time_after_eq jiffies (wakeup_time_jiffies p).

Definition woken (jiffies : Z) (p : custom_pcb) : custom_pcb :=
  if due jiffies p
  then set_last_update_jiffies jiffies (set_state PROC_READY p) else p.

(** The positions among [idx] of the PCBs that a pass wakes. *)
Definition due_positions (jiffies : Z) (l : list custom_pcb) (idx : list nat)
  : list nat :=
  filter (fun i => due jiffies (l !!! i) = true) idx.

(** The CPU time a PCB has received, and the sum over the PCBs. *)
Definition work (p : custom_pcb) : Z := burst_time_ms p - remaining_time_ms p.
Definition work_done (l : list custom_pcb) : Z := foldr Z.add 0 (work <$> l).

(** The busy time of the statistics is the work done, as an
    [unsigned long]. *)
Definition cpu_inv (s : kstate) : Prop :=
  total_cpu_time_ms (stats s) = to_ulong (work_done (all_processes s)).

End Kmod.

(** * Concrete runs

    The runs on which the two programs are evaluated below.  Every input is
    in the range its program accepts. *)

Module Scenario.

(** The kernel constants for a build with [HZ = 1000]: a jiffy is a
    millisecond ([msecs_to_jiffies] and [jiffies_to_msecs] of
    include/linux/jiffies.h and kernel/time/time.c). *)
Definition HZ : Z := 1000.
Definition msecs_to_jiffies (m : Z) : Z :=
  if to_int m <? 0 then 2 ^ 62 - 2   (* MAX_JIFFY_OFFSET, (LONG_MAX >> 1) - 1 *)
  else to_uint m.
Definition jiffies_to_msecs (j : Z) : Z := to_uint j.

Definition krun := Kmod.krun HZ msecs_to_jiffies jiffies_to_msecs.

(** A READY process of the simulator that has accumulated 100 ms of wait. *)
Definition waited_100 : Sim.Process :=
  Sim.set_waitTime 100 (Sim.setState Sim.READY (Sim.new_Process 2 "B"%string 5 300)).

(** Two processes of priority 5, then one pass of the scheduling loop. *)
Definition two_processes : list Sim.event :=
  [Sim.EvCreate "A"%string 5 300 0 0; Sim.EvCreate "B"%string 5 300 0 0;
   Sim.EvStart; Sim.EvLoop 0 100].

(** A process is created and killed before the scheduler starts. *)
Definition kill_ready : list Sim.event :=
  [Sim.EvCreate "A"%string 5 300 0 0; Sim.EvTerminate 1 10].

(** ... then the scheduler runs. *)
Definition kill_ready_then_run : list Sim.event :=
  kill_ready ++ [Sim.EvStart; Sim.EvLoop 0 100].

(** The running process is blocked by [blockProcess] while a second one is
    ready. *)
Definition block_running : list Sim.event :=
  two_processes ++ [Sim.EvBlock 1 150].

Definition block_running_then_run : list Sim.event :=
  block_running ++ [Sim.EvLoop 0 200; Sim.EvLoop 0 300; Sim.EvLoop 0 400].

(** A ready process is the target of [blockProcess]. *)
Definition block_ready : list Sim.event :=
  [Sim.EvCreate "A"%string 5 300 0 0; Sim.EvBlock 1 50].

(** A creation with a priority and a burst out of range. *)
Definition create_out_of_range : Sim.event := Sim.EvCreate "x"%string 11 0 0 0.

(** One process, the scheduler started. *)
Definition one_ready : list Sim.event :=
  [Sim.EvCreate "A"%string 5 300 0 0; Sim.EvStart].

(** The kernel module with a quantum of one second and an aging factor of
    one second.  H (priority 0, 3 s) and R (priority 2, 5 s) arrive; H runs
    three quanta and terminates while R ages to priority 0; R runs one
    quantum, during which B (priority 1, 1 s) arrives; R is preempted. *)
Definition aging_run : list Kmod.kevent :=
  [Kmod.KWrite (Kmod.CmdNEW "H"%string 3000 0) true 0;
   Kmod.KWrite (Kmod.CmdNEW "R"%string 5000 2) true 0;
   Kmod.KBegin 500 500; Kmod.KEnd 1500;
   Kmod.KBegin 1500 1500; Kmod.KEnd 2500;
   Kmod.KBegin 2500 2500; Kmod.KEnd 3500;
   Kmod.KBegin 3500 3500;
   Kmod.KWrite (Kmod.CmdNEW "B"%string 1000 1) true 4000;
   Kmod.KEnd 4500].

Definition kernel_start : Kmod.thread_pc * Kmod.kstate :=
  (Kmod.LoopTop, Kmod.kstate_init 1000 1).

(** The states reached by some of these runs. *)
Definition two_processes_state : Sim.Scheduler :=
  Eval vm_compute in
    default Sim.Scheduler_new (Sim.run two_processes Sim.Scheduler_new).

Definition one_process_state : Sim.Scheduler :=
  Eval vm_compute in
    (Sim.createProcess "A"%string 5 300 0 0 Sim.Scheduler_new).2.

Definition aging_run_state : Kmod.kstate :=
  Eval vm_compute in (krun aging_run kernel_start).2.

(** The running process A of [two_processes_state]. *)
Definition running_A : Sim.Process :=
  Eval vm_compute in Sim.allProcesses_ two_processes_state !!! 0%nat.

(** One long process and ten passes of the loop: the I/O simulation fires
    at the tenth pass, with [rand()] returning 123. *)
Definition io_run : list Sim.event :=
  [Sim.EvCreate "A"%string 5 2000 0 0; Sim.EvStart]
  ++ map (fun k => Sim.EvLoop 123 (100 * Z.of_nat k)) (seq 1 10).

Definition io_run_state : Sim.Scheduler :=
  Eval vm_compute in
    default Sim.Scheduler_new (Sim.run io_run Sim.Scheduler_new).

(** The aging run, then the dispatch of the fifth pass: R is RUNNING with a
    slice of 1000 ms, B is READY. *)
Definition running_R_state : Kmod.kstate :=
  Eval vm_compute in
    (krun (aging_run ++ [Kmod.KBegin 4500 4500]) kernel_start).2.

(** A of priority 5, then B of priority 3, with the scheduler not started. *)
Definition low_after_high : list Sim.event :=
  [Sim.EvCreate "A"%string 5 300 0 0; Sim.EvCreate "B"%string 3 300 0 0].

Definition low_after_high_state : Sim.Scheduler :=
  Eval vm_compute in
    default Sim.Scheduler_new (Sim.run low_after_high Sim.Scheduler_new).

(** B after 2000 ms in the ready queue. *)
Definition waited_2000 : Sim.Process :=
  Sim.set_waitTime 2000 (Sim.setState Sim.READY (Sim.new_Process 2 "B"%string 5 300)).

(** A creation with a negative burst; a process run with a negative
    quantum. *)
Definition negative_burst : list Sim.event :=
  [Sim.EvCreate "x"%string 5 (-5) 0 0].

Definition negative_quantum : list Sim.event :=
  [Sim.EvCreate "A"%string 5 300 0 0; Sim.EvSetTimeQuantum (-100);
   Sim.EvStart; Sim.EvLoop 0 100].

(** The kernel module with the quantum set to -100 ms through its module
    parameter: A (300 ms) gets a slice of -100 ms. *)
Definition negative_quantum_kernel : list Kmod.kevent :=
  [Kmod.KParams (-100) 1;
   Kmod.KWrite (Kmod.CmdNEW "A"%string 300 5) true 0;
   Kmod.KBegin 500 500; Kmod.KEnd 600].

(** The kernel module: A (300 ms) is dispatched with a slice of 300 ms and
    is put to sleep by a WAIT command before the slice ends. *)
Definition wait_in_slice : list Kmod.kevent :=
  [Kmod.KWrite (Kmod.CmdNEW "A"%string 300 5) true 0;
   Kmod.KBegin 500 500;
   Kmod.KWrite (Kmod.CmdWAIT 2 250) true 600;
   Kmod.KEnd 800].

End Scenario.

(** * Properties *)

(** ** Machine integers *)

Lemma to_int_id (z : Z) : int_range z -> to_int z = z.
Proof.
  unfold int_range, to_int. intros Hz.
  rewrite Z.mod_small by lia. lia.
Qed.

Lemma to_ulong_id (z : Z) : ulong_range z -> to_ulong z = z.
Proof. unfold ulong_range, to_ulong. intros Hz. apply Z.mod_small. lia. Qed.

Lemma to_int_to_ulong (z : Z) : to_int (to_ulong z) = to_int z.
Proof.
  unfold to_int, to_ulong. f_equal.
  rewrite (Z.mod_eq z (2 ^ 64)) by lia.
  replace (z - 2 ^ 64 * (z / 2 ^ 64) + 2 ^ 31)
    with (z + 2 ^ 31 + (- (z / 2 ^ 64) * 2 ^ 32) * 2 ^ 32) by lia.
  apply Z.mod_add. lia.
Qed.

(** ** Lists of PCBs *)

Lemma lookup_total_Forall {A} `{Inhabited A} (P : A -> Prop) (l : list A) (i : nat) :
  P inhabitant -> Forall P l -> P (l !!! i).
Proof.
  intros Hd Hl. rewrite list_lookup_total_alt.
  destruct (l !! i) as [x|] eqn:Hx; simpl; [|exact Hd].
  eapply Forall_lookup_1; eauto.
Qed.

Lemma find_index_lt {A} (f : A -> bool) (l : list A) (i : nat) :
  find_index f l = Some i -> (i < length l)%nat.
Proof.
  revert i. induction l as [|x l IH]; intros i; simpl; [discriminate|].
  destruct (f x).
  - intros [= <-]. lia.
  - destruct (find_index f l) as [j|]; simpl; [|discriminate].
    intros [= <-]. specialize (IH j eq_refl). lia.
Qed.

Lemma find_index_Some {A} (f : A -> bool) (l : list A) (i : nat) :
  find_index f l = Some i ->
  exists x, l !! i = Some x /\ f x = true /\
            forall j y, (j < i)%nat -> l !! j = Some y -> f y = false.
Proof.
  revert i. induction l as [|x l IH]; intros i; simpl; [discriminate|].
  destruct (f x) eqn:Hfx.
  - intros [= <-]. exists x. split; [reflexivity|]. split; [assumption|].
    intros j y Hj. lia.
  - destruct (find_index f l) as [k|]; simpl; [|discriminate].
    intros [= <-]. destruct (IH k eq_refl) as (z & Hz & Hfz & Hbefore).
    exists z. split; [exact Hz|]. split; [exact Hfz|].
    intros [|j] y Hj; simpl.
    + intros [= <-]. exact Hfx.
    + apply Hbefore. lia.
Qed.

Lemma find_index_None {A} (f : A -> bool) (l : list A) :
  find_index f l = None -> Forall (fun x => f x = false) l.
Proof.
  induction l as [|x l IH]; simpl; [constructor|].
  destruct (f x) eqn:Hfx; [discriminate|].
  destruct (find_index f l); simpl; [discriminate|].
  intros _. constructor; auto.
Qed.

(** Writing [x] over the element [y] of a list is, up to the order, putting
    [x] in front and dropping [y]. *)
Lemma insert_Permutation_cons {A} (l : list A) (i : nat) (x y : A) :
  l !! i = Some y -> y :: <[i := x]> l ≡ₚ x :: l.
Proof.
  revert i. induction l as [|a l IH]; intros [|i]; simpl; try discriminate.
  - intros [= ->]. apply perm_swap.
  - intros Hy. etrans; [apply perm_swap|].
    etrans; [apply perm_skip, (IH i Hy)|]. apply perm_swap.
Qed.

(** Moving the element at [i] to [j] and writing [x] at [i] is a
    permutation of writing [x] at [j]. *)
Lemma insert_move_Permutation {A} (l : list A) (i j : nat) (x y : A) :
  l !! i = Some y -> (j < length l)%nat ->
  <[i := x]> (<[j := y]> l) ≡ₚ <[j := x]> l.
Proof.
  intros Hi Hj. destruct (decide (i = j)) as [->|Hne].
  - rewrite list_insert_insert_eq. reflexivity.
  - destruct (lookup_lt_is_Some_2 l j Hj) as [z Hz].
    assert (<[j:=y]> l !! i = Some y) as Hiy.
    { rewrite list_lookup_insert_ne by (intros ->; apply Hne; reflexivity).
      exact Hi. }
    apply (Permutation_cons_inv (a := y)), (Permutation_cons_inv (a := z)).
    etrans; [apply perm_skip, (insert_Permutation_cons _ i x y Hiy)|].
    etrans; [apply perm_swap|].
    etrans; [apply perm_skip, (insert_Permutation_cons l j y z Hz)|].
    etrans; [apply perm_swap|].
    etrans; [apply perm_skip; symmetry;
             apply (insert_Permutation_cons l j x z Hz)|].
    apply perm_swap.
Qed.

Lemma Forall_find_index_None {A} (f : A -> bool) (l : list A) :
  Forall (fun x => f x = false) l -> find_index f l = None.
Proof.
  induction 1 as [|x l Hx Hl IH]; simpl; [reflexivity|].
  rewrite Hx, IH. reflexivity.
Qed.

Lemma filter_Forall_id {A} (P : A -> Prop) `{forall x, Decision (P x)} (l : list A) :
  Forall P l -> filter P l = l.
Proof.
  induction 1 as [|x l Hx Hl IH]; [reflexivity|].
  rewrite filter_cons_True by exact Hx. f_equal. exact IH.
Qed.

Lemma filter_Forall_nil {A} (P : A -> Prop) `{forall x, Decision (P x)} (l : list A) :
  Forall (fun x => ~ P x) l -> filter P l = [].
Proof.
  induction 1 as [|x l Hx Hl IH]; [reflexivity|].
  rewrite filter_cons_False by exact Hx. exact IH.
Qed.

Lemma insert_by_priority_Permutation st proc q :
  Kmod.insert_by_priority st proc q ≡ₚ proc :: q.
Proof.
  induction q as [|pos rest IH]; simpl; [reflexivity|].
  destruct (_ <? _); [reflexivity|].
  etrans; [apply perm_skip, IH|]. apply perm_swap.
Qed.

(** ** The simulator *)

Module SimFacts.
Import Sim.

Create HintDb sim_frame discriminated.

Lemma remaining_bounded_setState st p :
  remaining_bounded p -> remaining_bounded (setState st p).
Proof. exact id. Qed.

Lemma remaining_bounded_set_effectivePriority e p :
  remaining_bounded p -> remaining_bounded (set_effectivePriority e p).
Proof. exact id. Qed.

Lemma remaining_bounded_updateStats_process q t p :
  remaining_bounded p -> remaining_bounded (updateStats_process q t p).
Proof.
  unfold updateStats_process.
  repeat case_bool_decide; exact id.
Qed.

Lemma remaining_bounded_inhabitant : remaining_bounded inhabitant.
Proof. unfold remaining_bounded. simpl. lia. Qed.

Lemma execute_not_running slice p : state_ p <> RUNNING -> execute slice p = p.
Proof.
  intros Hs. unfold execute. rewrite bool_decide_true by assumption. reflexivity.
Qed.

Lemma execute_running slice p :
  state_ p = RUNNING ->
  execute slice p =
    let p1 := set_remainingTime
                (remainingTime_ p - Z.min slice (remainingTime_ p)) p in
    if remainingTime_ p1 =? 0 then setState TERMINATED p1 else p1.
Proof.
  intros Hs. unfold execute.
  rewrite bool_decide_false by (intros Hn; apply Hn; exact Hs). reflexivity.
Qed.

Lemma remaining_bounded_execute slice p :
  0 <= slice -> remaining_bounded p -> remaining_bounded (execute slice p).
Proof.
  intros Hslice Hp. destruct (decide (state_ p = RUNNING)) as [Hr|Hr].
  - rewrite execute_running by assumption. cbn zeta.
    unfold remaining_bounded in *.
    destruct (_ =? 0); simpl; lia.
  - rewrite execute_not_running by assumption. exact Hp.
Qed.

#[local] Hint Resolve remaining_bounded_setState remaining_bounded_set_effectivePriority
  remaining_bounded_updateStats_process remaining_bounded_inhabitant
  remaining_bounded_execute : sim_frame.

Lemma remaining_inv_updateStats t s :
  remaining_inv s -> remaining_inv (updateStats t s).
Proof.
  intros [Hq Hl]. split; [exact Hq|]. simpl.
  apply Forall_map. eapply List.Forall_impl; [|exact Hl].
  intros p Hp. simpl. auto with sim_frame.
Qed.

Lemma remaining_inv_alter f i s :
  (forall p, remaining_bounded p -> remaining_bounded (f p)) ->
  remaining_inv s ->
  remaining_inv (set_allProcesses (alter f i (allProcesses_ s)) s).
Proof.
  intros Hf [Hq Hl]. split; [exact Hq|]. simpl.
  apply Forall_alter; auto.
Qed.

Lemma remaining_inv_createProcess name priority burstTime arrival t s :
  0 <= burstTime -> remaining_inv s ->
  remaining_inv (snd (createProcess name priority burstTime arrival t s)).
Proof.
  intros Hb [Hq Hl]. unfold createProcess. cbn [snd].
  apply remaining_inv_updateStats. split; [exact Hq|]. simpl.
  apply Forall_alter; [|auto with sim_frame].
  apply Forall_app. split; [exact Hl|].
  constructor; [|constructor].
  unfold remaining_bounded. simpl. lia.
Qed.

Lemma remaining_inv_selectNextProcess s :
  remaining_inv s -> remaining_inv (selectNextProcess s).
Proof.
  intros Hs. unfold selectNextProcess.
  destruct (_ && _); [|exact Hs].
  destruct (dequeue _ _) as [[c|] q]; [|exact Hs].
  destruct Hs as [Hq Hl]. split; [exact Hq|]. simpl.
  apply Forall_alter; auto with sim_frame.
Qed.

Lemma remaining_inv_run_current rnd s :
  remaining_inv s -> remaining_inv (run_current rnd s).
Proof.
  intros [Hq Hl]. unfold run_current.
  destruct (currentProcess_ s) as [c|]; [|split; assumption].
  assert (Forall remaining_bounded
            (alter (execute (timeQuantumMs_ s)) c (allProcesses_ s))) as Hl1.
  { apply Forall_alter; auto with sim_frame. }
  cbn beta iota zeta delta [set_allProcesses set_ioSimulationCounter allProcesses_
    ioSimulationCounter_].
  destruct (_ && _ && _).
  - split; [exact Hq|]. simpl. apply Forall_alter; auto with sim_frame.
  - destruct (bool_decide _); split; simpl; assumption.
Qed.

Lemma Forall_check_blocked q blocked st queue :
  Forall remaining_bounded st ->
  Forall remaining_bounded (check_blocked q blocked st queue).1.1.
Proof.
  revert st queue. induction blocked as [|[proc io] rest IH]; intros st queue Hst.
  - exact Hst.
  - simpl. destruct (io - q <=? 0).
    + apply IH. apply Forall_alter; auto with sim_frame.
    + specialize (IH st queue Hst).
      destruct (check_blocked q rest st queue) as [[st' q'] rest']. exact IH.
Qed.

Lemma Forall_applyAging_drain fuel f st queue temp st' queue' temp' :
  applyAging_drain fuel f st queue temp = Some (st', queue', temp') ->
  Forall remaining_bounded st -> Forall remaining_bounded st'.
Proof.
  revert st queue temp.
  induction fuel as [|fuel IH]; intros st queue temp; simpl.
  - intros [= <- <- <-]. exact id.
  - destruct (pq_top queue) as [proc|]; [|intros [= <- <- <-]; exact id].
    unfold applyAging. destruct (division_traps f _); [discriminate|].
    intros Hrec Hst. eapply IH; [exact Hrec|].
    apply Forall_insert; [exact Hst|].
    apply remaining_bounded_set_effectivePriority.
    apply lookup_total_Forall; auto with sim_frame.
Qed.

Lemma remaining_inv_applyAging s s' :
  Scheduler_applyAging s = Some s' -> remaining_inv s -> remaining_inv s'.
Proof.
  unfold Scheduler_applyAging, ReadyQueue_applyAging.
  destruct (applyAging_drain _ _ _ _ _) as [[[st' q'] temp]|] eqn:Hd;
    [|discriminate].
  intros [= <-] [Hq Hl]. split; [exact Hq|]. simpl.
  eapply Forall_applyAging_drain; eauto.
Qed.

Lemma remaining_inv_schedulerLoop_body rnd t s s' :
  schedulerLoop_body rnd t s = Some s' -> remaining_inv s -> remaining_inv s'.
Proof.
  unfold schedulerLoop_body. destruct (paused_ s); [intros [= <-]; exact id|].
  intros Hbody Hs.
  pose proof (remaining_inv_run_current rnd _
                (remaining_inv_selectNextProcess _ Hs)) as [Hq Hl].
  set (s2 := run_current rnd (selectNextProcess s)) in *.
  pose proof (Forall_check_blocked (timeQuantumMs_ s2) (blockedProcesses_ s2)
                _ (readyQueue_ s2) Hl) as Hcb.
  destruct (check_blocked _ _ _ _) as [[st q] blocked].
  destruct (Scheduler_applyAging _) as [s4|] eqn:Hage; [|discriminate].
  injection Hbody as <-. apply remaining_inv_updateStats.
  eapply remaining_inv_applyAging; [exact Hage|].
  split; [exact Hq|exact Hcb].
Qed.

Lemma remaining_inv_do_event e s s' :
  event_in_range e -> do_event e s = Some s' ->
  remaining_inv s -> remaining_inv s'.
Proof.
  destruct e; simpl; intros Hok Hev Hs; try (injection Hev as <-).
  - apply remaining_inv_createProcess; assumption.
  - unfold terminateProcess. apply remaining_inv_updateStats.
    destruct (find_index _ _); [|exact Hs].
    apply remaining_inv_alter; auto with sim_frame.
  - unfold blockProcess. apply remaining_inv_updateStats.
    destruct (find_index _ _); [|exact Hs].
    apply remaining_inv_alter; auto with sim_frame.
  - unfold unblockProcess. apply remaining_inv_updateStats.
    destruct (find_index _ _); [|exact Hs].
    destruct Hs as [Hq Hl]. split; [exact Hq|]. simpl.
    apply Forall_alter; auto with sim_frame.
  - destruct Hs as [Hq Hl]. split; [exact Hok|exact Hl].
  - exact Hs.
  - unfold start. destruct (running_ s); exact Hs.
  - exact Hs.
  - exact Hs.
  - destruct (running_ s).
    + eapply remaining_inv_schedulerLoop_body; eauto.
    + injection Hev as <-. exact Hs.
Qed.

Lemma remaining_inv_run es s s' :
  Forall event_in_range es -> run es s = Some s' ->
  remaining_inv s -> remaining_inv s'.
Proof.
  revert s. induction es as [|e es IH]; intros s Hes; simpl.
  - intros [= <-]. exact id.
  - inversion Hes as [|? ? He Hes']; subst.
    destruct (do_event e s) as [s1|] eqn:He1; [|discriminate].
    intros Hrun Hs. eapply IH; eauto.
    eapply remaining_inv_do_event; eauto.
Qed.

(** *** Aging

    [Process::applyAging] adds the quotient to the base priority: with a
    positive factor, the priority number of a process that has waited never
    goes below its base priority and exceeds it as soon as the wait reaches
    the factor. *)

Lemma applyAging_never_boosts f p p' :
  0 < f -> 0 <= waitTime p -> applyAging f p = Some p' ->
  basePriority_ p <= effectivePriority_ p' /\
  (f <= waitTime p -> basePriority_ p < effectivePriority_ p').
Proof.
  intros Hf Hw. unfold applyAging, division_traps.
  rewrite (proj2 (Z.eqb_neq f 0)), (proj2 (Z.eqb_neq f (-1))) by lia.
  rewrite andb_false_r. intros [= <-]. simpl.
  rewrite Z.quot_div_nonneg by lia. split.
  - pose proof (Z.div_pos (waitTime p) f Hw Hf). lia.
  - intros Hle.
    pose proof (Z.div_le_mono f (waitTime p) f Hf Hle) as Hdiv.
    rewrite Z.div_same in Hdiv by lia. lia.
Qed.

(** Among equal priorities the binary heap does not dequeue in insertion
    order: four processes of priority 5 enqueued as 0, 1, 2, 3 come out as
    0, 2, ... *)
Lemma heap_ties_not_in_insertion_order :
  let p := setState READY (new_Process 1 "" 5 100) in
  let st := [p; p; p; p] in
  let q := fold_left (enqueue st) [0; 1; 2; 3]%nat [] in
  (dequeue st q).1 = Some 0%nat /\
  (dequeue st (dequeue st q).2).1 = Some 2%nat.
Proof. vm_compute. split; reflexivity. Qed.

(** *** The heap of the ready queue keeps its members *)

Lemma push_heap_loop_Permutation st fuel v holeIndex topIndex value :
  (holeIndex < length v)%nat ->
  push_heap_loop st fuel v holeIndex topIndex value ≡ₚ <[holeIndex := value]> v.
Proof.
  revert v holeIndex.
  induction fuel as [|fuel IH]; intros v hole Hhole; simpl; [reflexivity|].
  destruct (_ && _) eqn:Hcond; [|reflexivity].
  apply andb_true_iff in Hcond as [Htop _]. apply Nat.ltb_lt in Htop.
  assert ((hole - 1) / 2 < length v)%nat as Hparent.
  { assert ((hole - 1) / 2 <= hole - 1)%nat
      by (apply Nat.Div0.div_le_upper_bound; lia).
    lia. }
  etrans; [apply IH; rewrite length_insert; exact Hparent|].
  apply insert_move_Permutation; [|exact Hhole].
  apply list_lookup_lookup_total_lt. exact Hparent.
Qed.

Lemma pq_push_Permutation st v x : pq_push st v x ≡ₚ x :: v.
Proof.
  unfold pq_push.
  etrans; [apply push_heap_loop_Permutation; rewrite length_app; simpl; lia|].
  rewrite length_app. simpl.
  replace (length v + 1 - 1)%nat with (length v + 0)%nat by lia.
  rewrite insert_app_r. simpl.
  symmetry. apply Permutation_cons_append.
Qed.

(** *** States of the PCBs *)

Lemma state_updateStats_process q t p :
  state_ (updateStats_process q t p) = state_ p.
Proof.
  unfold updateStats_process. repeat case_bool_decide; reflexivity.
Qed.

Lemma map_state_alter_setState st j (l : list Process) :
  map state_ (alter (setState st) j l) = <[j := st]> (map state_ l).
Proof.
  revert j. induction l as [|p l IH]; intros [|j]; simpl; try reflexivity.
  f_equal. apply IH.
Qed.

Lemma map_state_updateStats t s :
  map state_ (allProcesses_ (updateStats t s)) = map state_ (allProcesses_ s).
Proof.
  simpl. rewrite map_map. apply map_ext. intros p.
  apply state_updateStats_process.
Qed.

(** [blockProcess] on a pid none of whose PCBs is RUNNING changes the
    state of no PCB. *)
Lemma blockProcess_not_running pid t s :
  Forall (fun p => pid_ p = pid -> state_ p <> RUNNING) (allProcesses_ s) ->
  map state_ (allProcesses_ (blockProcess pid t s)) = map state_ (allProcesses_ s).
Proof.
  intros Hall. unfold blockProcess. cbn zeta. rewrite map_state_updateStats.
  rewrite Forall_find_index_None; [reflexivity|].
  eapply List.Forall_impl; [|exact Hall]. intros p Hp. simpl in Hp.
  destruct (Z.eqb_spec (pid_ p) pid) as [Heq|]; [|reflexivity].
  simpl. apply bool_decide_eq_false. apply Hp. exact Heq.
Qed.

(** *** The side effect of [updateStats] *)

Lemma setState_same_state p : setState (state_ p) p = p.
Proof. destruct p; reflexivity. Qed.

Lemma accrued_updateStats_process q t st p :
  accrued q t p (updateStats_process q t (setState st p)).
Proof.
  destruct st; cbv -[Z.add Z.sub]; repeat split; reflexivity.
Qed.

Lemma lookup_alter_setState st j (l : list Process) i p :
  l !! i = Some p ->
  exists st', alter (setState st) j l !! i = Some (setState st' p).
Proof.
  intros Hp. rewrite list_lookup_alter. destruct (decide (j = i)) as [->|].
  - rewrite Hp. simpl. eauto.
  - exists (state_ p). rewrite setState_same_state. exact Hp.
Qed.

Lemma accrued_updateStats t s q i p st :
  timeQuantumMs_ s = q ->
  allProcesses_ s !! i = Some (setState st p) ->
  exists p', allProcesses_ (updateStats t s) !! i = Some p'
             /\ accrued q t p p'.
Proof.
  intros <- Hl. simpl.
  exists (updateStats_process (timeQuantumMs_ s) t (setState st p)).
  split; [|apply accrued_updateStats_process].
  change (map ?f ?l) with (f <$> l).
  rewrite list_lookup_fmap, Hl. reflexivity.
Qed.

Lemma accrued_updateStats_same t s i p :
  allProcesses_ s !! i = Some p ->
  exists p', allProcesses_ (updateStats t s) !! i = Some p'
             /\ accrued (timeQuantumMs_ s) t p p'.
Proof.
  intros Hp. apply (accrued_updateStats t s _ i p (state_ p) eq_refl).
  rewrite setState_same_state. exact Hp.
Qed.

(** *** The dispatch and the running slot *)

(** [selectNextProcess] marks whatever it dequeues RUNNING, whatever its
    state was. *)
Lemma selectNextProcess_any_state s c q :
  currentProcess_ s = None ->
  dequeue (allProcesses_ s) (readyQueue_ s) = (Some c, q) ->
  (c < length (allProcesses_ s))%nat ->
  currentProcess_ (selectNextProcess s) = Some c /\
  readyQueue_ (selectNextProcess s) = q /\
  state_ (allProcesses_ (selectNextProcess s) !!! c) = RUNNING.
Proof.
  intros Hcur Hdeq Hlt. unfold selectNextProcess. rewrite Hcur.
  assert (empty (readyQueue_ s) = false) as ->.
  { unfold dequeue, pq_top in Hdeq.
    destruct (readyQueue_ s); [discriminate|reflexivity]. }
  cbn [andb negb]. rewrite Hdeq. cbn.
  repeat split. rewrite list_lookup_total_alter_eq by exact Hlt. reflexivity.
Qed.

(** A process in the running slot that is neither RUNNING nor TERMINATED
    stays there, unless the I/O simulation fires for it. *)
Lemma run_current_keeps_occupant rnd s c :
  currentProcess_ s = Some c ->
  state_ (allProcesses_ s !!! c) <> RUNNING ->
  state_ (allProcesses_ s !!! c) <> TERMINATED ->
  Z.rem (ioSimulationCounter_ s + 1) 10 <> 0 \/
    remainingTime_ (allProcesses_ s !!! c) <= 500 ->
  currentProcess_ (run_current rnd (selectNextProcess s)) = Some c /\
  allProcesses_ (run_current rnd (selectNextProcess s)) = allProcesses_ s /\
  readyQueue_ (run_current rnd (selectNextProcess s)) = readyQueue_ s.
Proof.
  intros Hcur Hnr Hnt Hio.
  assert (selectNextProcess s = s) as ->.
  { unfold selectNextProcess. rewrite Hcur.
    rewrite bool_decide_false by exact Hnt. reflexivity. }
  unfold run_current. rewrite Hcur. cbn zeta.
  cbn [set_allProcesses set_ioSimulationCounter allProcesses_
         ioSimulationCounter_ timeQuantumMs_].
  assert (alter (execute (timeQuantumMs_ s)) c (allProcesses_ s)
          = allProcesses_ s) as ->.
  { apply list_eq. intros i. rewrite list_lookup_alter.
    destruct (decide (c = i)) as [<-|]; [|reflexivity].
    destruct (allProcesses_ s !! c) as [p|] eqn:Hp; [|reflexivity].
    rewrite (list_lookup_total_correct _ _ _ Hp) in Hnr.
    simpl. rewrite execute_not_running by exact Hnr. reflexivity. }
  assert ((Z.rem (ioSimulationCounter_ s + 1) 10 =? 0)
          && bool_decide (state_ (allProcesses_ s !!! c) <> TERMINATED)
          && (500 <? remainingTime_ (allProcesses_ s !!! c)) = false) as ->.
  { destruct Hio as [Hrem|Hrem].
    - apply Z.eqb_neq in Hrem. rewrite Hrem. reflexivity.
    - apply Z.ltb_ge in Hrem. rewrite Hrem. apply andb_false_r. }
  rewrite bool_decide_false by exact Hnt. repeat split. exact Hcur.
Qed.

(** *** The context-switch counter of the simulator *)

Lemma switches_selectNextProcess s : switches (selectNextProcess s) = switches s.
Proof.
  unfold selectNextProcess. destruct (_ && _); [|reflexivity].
  destruct (dequeue _ _) as [[c|] q]; reflexivity.
Qed.

Lemma switches_run_current rnd s : switches (run_current rnd s) = switches s.
Proof.
  unfold run_current. destruct (currentProcess_ s) as [c|]; [|reflexivity].
  cbn zeta. destruct (_ && _ && _); [reflexivity|].
  destruct (bool_decide _); reflexivity.
Qed.

Lemma switches_schedulerLoop_body rnd t s s' :
  schedulerLoop_body rnd t s = Some s' -> switches s' = switches s.
Proof.
  unfold schedulerLoop_body. destruct (paused_ s); [intros [= <-]; reflexivity|].
  destruct (check_blocked _ _ _ _) as [[st q] blocked].
  unfold Scheduler_applyAging. cbn [set_blockedProcesses set_readyQueue
    set_allProcesses agingFactorSec_ allProcesses_ readyQueue_].
  destruct (ReadyQueue_applyAging _ _ _) as [[st' q']|]; [|discriminate].
  intros [= <-].
  etrans; [apply (switches_run_current rnd)|apply switches_selectNextProcess].
Qed.

Lemma switches_do_event e s s' : do_event e s = Some s' -> switches s' = switches s.
Proof.
  destruct e; simpl; try (intros [= <-]; reflexivity).
  - intros [= <-]. unfold terminateProcess.
    destruct (find_index _ _); reflexivity.
  - intros [= <-]. unfold blockProcess.
    destruct (find_index _ _); reflexivity.
  - intros [= <-]. unfold unblockProcess.
    destruct (find_index _ _); reflexivity.
  - intros [= <-]. unfold start. destruct (running_ s); reflexivity.
  - destruct (running_ s); [apply switches_schedulerLoop_body|].
    intros [= <-]; reflexivity.
Qed.

Lemma switches_run es s s' : run es s = Some s' -> switches s' = switches s.
Proof.
  revert s. induction es as [|e es IH]; intros s; simpl.
  - intros [= <-]. reflexivity.
  - destruct (do_event e s) as [s1|] eqn:He; [|discriminate].
    intros Hrun. rewrite (IH _ Hrun). apply (switches_do_event _ _ _ He).
Qed.

End SimFacts.

(** ** The kernel module *)

Module KmodFacts.
Import Kmod.

(** *** Operations that leave a property of the PCBs alone *)

Section Frame.

Variable P : custom_pcb -> Prop.
Hypothesis P_state : forall st p, P p -> P (set_state st p).
Hypothesis P_last_update : forall j p, P p -> P (set_last_update_jiffies j p).
Hypothesis P_wakeup : forall j p, P p -> P (set_wakeup_time_jiffies j p).

Lemma Forall_enqueue_process proc s :
  Forall P (all_processes s) -> Forall P (all_processes (enqueue_process proc s)).
Proof. exact id. Qed.

Lemma Forall_wake_process j s proc :
  Forall P (all_processes s) -> Forall P (all_processes (wake_process j s proc)).
Proof.
  intros Hs. unfold wake_process. destruct (_ && _); [|exact Hs].
  simpl. apply Forall_alter; auto.
Qed.

Lemma Forall_check_waiting_processes j s :
  Forall P (all_processes s) ->
  Forall P (all_processes (check_waiting_processes j s)).
Proof.
  unfold check_waiting_processes.
  generalize (seq 0 (length (all_processes s))). intros idx. revert s.
  induction idx as [|i idx IH]; intros s Hs; simpl; [exact Hs|].
  apply IH. apply Forall_wake_process. exact Hs.
Qed.

Lemma Forall_select_next_process s :
  Forall P (all_processes s) ->
  Forall P (all_processes (select_next_process s).2).
Proof.
  intros Hs. unfold select_next_process.
  destruct (match current_proc s with Some _ => _ | None => _ end);
    [exact Hs|].
  unfold dequeue_process. destruct (ready_q_head s) as [|proc rest];
    [exact Hs|].
  simpl. apply Forall_alter; auto.
Qed.

Lemma Forall_cmd_wait mtj pid wait_ms j s :
  Forall P (all_processes s) ->
  Forall P (all_processes (cmd_wait mtj pid wait_ms j s).2).
Proof.
  intros Hs. unfold cmd_wait.
  destruct (find_index _ _) as [i|]; [|exact Hs].
  destruct (_ || _); [|exact Hs].
  simpl. destruct (bool_decide _); simpl; apply Forall_alter; auto.
Qed.

Hypothesis P_remaining : forall r p, P p -> P (set_remaining_time_ms r p).
Hypothesis P_wait : forall w p, P p -> P (set_wait_time_ms w p).
Hypothesis P_turnaround : forall t p, P p -> P (set_turnaround_time_ms t p).

Lemma Forall_post_execute_frame jtm proc exec_time j s :
  Forall P (all_processes s) ->
  Forall P (all_processes (post_execute jtm proc exec_time j s)).
Proof.
  intros Hl. unfold post_execute.
  set (l1 := alter _ proc (all_processes s)).
  assert (Forall P l1) as Hl1 by (apply Forall_alter; auto).
  set (l2 := map _ l1).
  assert (Forall P l2) as Hl2.
  { apply Forall_map. eapply List.Forall_impl; [|exact Hl1].
    intros p Hp. simpl. destruct (bool_decide _); auto. }
  cbn beta iota zeta delta [set_stats set_all_processes all_processes].
  destruct (bool_decide _); [exact Hl2|].
  destruct (_ <=? 0); simpl; apply Forall_alter; auto.
Qed.

End Frame.

(** *** The order of the ready queue

    [enqueue_process], [dequeue_process] and the removal of the WAIT command
    keep the queue in ascending order of effective priority, a new member
    going behind every member of the same priority. *)

Lemma insert_by_priority_sorted st proc q :
  queue_sorted st q -> queue_sorted st (insert_by_priority st proc q).
Proof.
  unfold queue_sorted, key.
  induction q as [|pos rest IH]; intros Hq; simpl.
  - repeat constructor.
  - apply StronglySorted_inv in Hq as [Hrest Hpos].
    destruct (Z.ltb_spec (effective_priority (st !!! proc))
                (effective_priority (st !!! pos))) as [Hlt|Hge].
    + constructor; [constructor; assumption|].
      constructor; [lia|]. eapply List.Forall_impl; [|exact Hpos].
      intros j Hj. simpl in Hj. lia.
    + constructor; [apply IH; exact Hrest|].
      rewrite (insert_by_priority_Permutation st proc rest).
      constructor; [lia|exact Hpos].
Qed.

Lemma insert_by_priority_position st proc q :
  queue_sorted st q ->
  insert_by_priority st proc q =
    filter (fun i => key st i <= key st proc) q
    ++ proc :: filter (fun i => key st proc < key st i) q.
Proof.
  unfold queue_sorted, key.
  induction q as [|pos rest IH]; intros Hq; simpl; [reflexivity|].
  apply StronglySorted_inv in Hq as [Hrest Hpos].
  destruct (Z.ltb_spec (effective_priority (st !!! proc))
              (effective_priority (st !!! pos))) as [Hlt|Hge].
  - rewrite filter_Forall_nil, filter_Forall_id; [reflexivity| |].
    + constructor; [lia|].
      eapply List.Forall_impl; [|exact Hpos]. intros j Hj. simpl in Hj. lia.
    + constructor; [lia|].
      eapply List.Forall_impl; [|exact Hpos]. intros j Hj. simpl in Hj. lia.
  - rewrite filter_cons_True, filter_cons_False by lia.
    simpl. f_equal. apply IH. exact Hrest.
Qed.

Lemma queue_sorted_head_minimal st proc rest :
  queue_sorted st (proc :: rest) ->
  Forall (fun j => key st proc <= key st j) rest.
Proof. intros Hq. apply StronglySorted_inv in Hq as [_ Hmin]. exact Hmin. Qed.

Lemma queue_sorted_filter st (P : nat -> Prop) `{forall i, Decision (P i)} q :
  queue_sorted st q -> queue_sorted st (filter P q).
Proof.
  unfold queue_sorted. induction q as [|pos rest IH]; intros Hq;
    [constructor|].
  apply StronglySorted_inv in Hq as [Hrest Hpos].
  destruct (decide (P pos)) as [HP|HP].
  - rewrite filter_cons_True by exact HP.
    constructor; [apply IH; exact Hrest|].
    apply Forall_forall. intros j Hj.
    apply list_elem_of_filter in Hj as [_ Hj].
    revert j Hj. apply Forall_forall. exact Hpos.
  - rewrite filter_cons_False by exact HP. apply IH. exact Hrest.
Qed.

Lemma queue_sorted_enqueue_process proc s :
  queue_sorted (all_processes s) (ready_q_head s) ->
  queue_sorted (all_processes (enqueue_process proc s))
    (ready_q_head (enqueue_process proc s)).
Proof. apply insert_by_priority_sorted. Qed.

Lemma queue_sorted_dequeue_process s :
  queue_sorted (all_processes s) (ready_q_head s) ->
  queue_sorted (all_processes (dequeue_process s).2)
    (ready_q_head (dequeue_process s).2) /\
  match (dequeue_process s).1 with
  | Some proc =>
      Forall (fun j => key (all_processes s) proc <= key (all_processes s) j)
        (ready_q_head s)
  | None => ready_q_head s = []
  end.
Proof.
  intros Hq. unfold dequeue_process.
  destruct (ready_q_head s) as [|proc rest] eqn:Hhead; simpl.
  - rewrite Hhead. split; [exact Hq|reflexivity].
  - pose proof (queue_sorted_head_minimal _ _ _ Hq) as Hmin.
    apply StronglySorted_inv in Hq as [Hrest _].
    split; [exact Hrest|]. constructor; [lia|exact Hmin].
Qed.

Lemma queue_sorted_remove_process proc s :
  queue_sorted (all_processes s) (ready_q_head s) ->
  queue_sorted (all_processes (remove_process proc s))
    (ready_q_head (remove_process proc s)).
Proof. apply queue_sorted_filter. Qed.

(** *** The ready queue holds the READY processes

    This is what makes a list of positions a faithful picture of the
    intrusive list: no PCB is ever linked twice, and the removal of the WAIT
    command always finds its PCB in the queue. *)

Lemma states_alter_same (f : custom_pcb -> custom_pcb) i (l : list custom_pcb) :
  (forall p, state (f p) = state p) ->
  state <$> alter f i l = state <$> l.
Proof.
  intros Hf. rewrite (list_fmap_alter state f id).
  - apply list_alter_id. reflexivity.
  - apply Forall_forall. intros p _. apply Hf.
Qed.

Lemma states_alter_set (f : custom_pcb -> custom_pcb) c i (l : list custom_pcb) :
  (forall p, state (f p) = c) ->
  state <$> alter f i l = <[i := c]> (state <$> l).
Proof.
  intros Hf. rewrite (list_fmap_alter state f (fun _ => c)).
  - symmetry. apply list_insert_alter.
  - apply Forall_forall. intros p _. apply Hf.
Qed.

Lemma states_lookup_total (l : list custom_pcb) i c :
  (state <$> l) !! i = Some c -> state (l !!! i) = c.
Proof.
  rewrite list_lookup_fmap. destruct (l !! i) as [p|] eqn:Hp; [|discriminate].
  intros [= <-]. rewrite (list_lookup_total_correct _ _ _ Hp). reflexivity.
Qed.

Lemma states_lookup_lt (l : list custom_pcb) i :
  (i < length l)%nat -> (state <$> l) !! i = Some (state (l !!! i)).
Proof.
  intros Hi. rewrite list_lookup_fmap.
  destruct (lookup_lt_is_Some_2 _ _ Hi) as [p Hp].
  rewrite Hp, (list_lookup_total_correct _ _ _ Hp). reflexivity.
Qed.

Lemma membership_inv_enqueue st q sts cur cur' i c :
  membership_inv q sts cur -> sts !! i = Some c -> c <> PROC_READY ->
  (forall j, j <> i -> sts !! j = Some PROC_RUNNING -> cur' = Some j) ->
  membership_inv (insert_by_priority st i q) (<[i := PROC_READY]> sts) cur'.
Proof.
  intros (Hnd & Hmem & Hrun) Hi Hc Hcur.
  assert (i ∉ q) as Hnotin.
  { intros Hin. apply Hmem in Hin. congruence. }
  pose proof (lookup_lt_Some _ _ _ Hi) as Hlt.
  split; [|split].
  - rewrite insert_by_priority_Permutation. apply NoDup_cons. auto.
  - intros j. rewrite insert_by_priority_Permutation, elem_of_cons, Hmem.
    destruct (decide (j = i)) as [->|Hne].
    + rewrite list_lookup_insert_eq by exact Hlt. split; [reflexivity|auto].
    + rewrite list_lookup_insert_ne by (intros ->; apply Hne; reflexivity).
      split; [intros [?|?]; [contradiction|assumption]|auto].
  - intros j. destruct (decide (j = i)) as [->|Hne].
    + rewrite list_lookup_insert_eq by exact Hlt. discriminate.
    + rewrite list_lookup_insert_ne by (intros ->; apply Hne; reflexivity).
      apply Hcur. exact Hne.
Qed.

(** A PCB that is neither READY before nor READY or RUNNING after. *)
Lemma membership_inv_retire q sts cur cur' i c c' :
  membership_inv q sts cur -> sts !! i = Some c -> c <> PROC_READY ->
  c' <> PROC_READY -> c' <> PROC_RUNNING ->
  (forall j, j <> i -> sts !! j = Some PROC_RUNNING -> cur' = Some j) ->
  membership_inv q (<[i := c']> sts) cur'.
Proof.
  intros (Hnd & Hmem & Hrun) Hi Hc Hc1 Hc2 Hcur.
  pose proof (lookup_lt_Some _ _ _ Hi) as Hlt.
  split; [exact Hnd|]. split.
  - intros j. rewrite Hmem. destruct (decide (j = i)) as [->|Hne].
    + rewrite list_lookup_insert_eq by exact Hlt. rewrite Hi.
      split; intros [= ?]; congruence.
    + rewrite list_lookup_insert_ne by (intros ->; apply Hne; reflexivity).
      reflexivity.
  - intros j. destruct (decide (j = i)) as [->|Hne].
    + rewrite list_lookup_insert_eq by exact Hlt. intros [= ?]. congruence.
    + rewrite list_lookup_insert_ne by (intros ->; apply Hne; reflexivity).
      apply Hcur. exact Hne.
Qed.

(** *** Remaining time *)

Lemma remaining_bounded_zero_pcb : remaining_bounded inhabitant.
Proof. unfold remaining_bounded, int_range. simpl. lia. Qed.

Lemma time_quantum_check_waiting_processes j s :
  time_quantum_ms (check_waiting_processes j s) = time_quantum_ms s.
Proof.
  unfold check_waiting_processes.
  generalize (seq 0 (length (all_processes s))). intros idx. revert s.
  induction idx as [|i idx IH]; intros s; simpl; [reflexivity|].
  rewrite IH. unfold wake_process. destruct (_ && _); reflexivity.
Qed.

Lemma time_quantum_select_next_process s :
  time_quantum_ms (select_next_process s).2 = time_quantum_ms s.
Proof.
  unfold select_next_process.
  destruct (match current_proc s with Some _ => _ | None => _ end);
    [reflexivity|].
  unfold dequeue_process. destruct (ready_q_head s); reflexivity.
Qed.

Section WithHZ.
Variable HZ : Z.
Variable msecs_to_jiffies : Z -> Z.
Variable jiffies_to_msecs : Z -> Z.

Lemma remaining_bounded_apply_aging_pcb a j p :
  remaining_bounded p -> remaining_bounded (apply_aging_pcb HZ a j p).
Proof.
  unfold apply_aging_pcb.
  destruct (bool_decide _); [|exact id]. destruct (0 <? a); exact id.
Qed.

Lemma Forall_apply_aging (P : custom_pcb -> Prop) j s :
  (forall a p, P p -> P (apply_aging_pcb HZ a j p)) ->
  Forall P (all_processes s) ->
  Forall P (all_processes (apply_aging HZ j s)).
Proof.
  intros HP. unfold apply_aging. simpl.
  generalize (all_processes s) as l.
  induction (ready_q_head s) as [|proc q IH]; intros l Hl; simpl; [exact Hl|].
  apply IH. apply Forall_alter; auto.
Qed.

Lemma remaining_inv_iteration_begin j1 j2 s :
  remaining_inv (LoopTop, s) -> remaining_inv (iteration_begin HZ j1 j2 s).
Proof.
  intros (Hq & Hl & _). unfold iteration_begin.
  set (s2 := apply_aging HZ j2 (check_waiting_processes j1 s)).
  assert (Forall remaining_bounded (all_processes s2)) as Hl2.
  { apply Forall_apply_aging.
    - intros. apply remaining_bounded_apply_aging_pcb. assumption.
    - apply Forall_check_waiting_processes; auto. }
  assert (time_quantum_ms s2 = time_quantum_ms s) as Hq2.
  { unfold s2. simpl. apply time_quantum_check_waiting_processes. }
  pose proof (Forall_select_next_process remaining_bounded
                ltac:(auto) s2 Hl2) as Hl3.
  pose proof (time_quantum_select_next_process s2) as Hq3.
  destruct (select_next_process s2) as [[proc|] s3];
    unfold remaining_inv; simpl in *.
  - split; [lia|]. split; [exact Hl3|].
    pose proof (lookup_total_Forall remaining_bounded (all_processes s3) proc
                  remaining_bounded_zero_pcb Hl3) as [Hp _].
    lia.
  - split; [lia|]. split; [exact Hl3|exact I].
Qed.

Lemma Forall_post_execute proc exec_time j s :
  0 <= exec_time <= remaining_time_ms (all_processes s !!! proc) ->
  Forall remaining_bounded (all_processes s) ->
  Forall remaining_bounded
    (all_processes (post_execute jiffies_to_msecs proc exec_time j s)).
Proof.
  intros He Hl. unfold post_execute.
  set (l1 := alter _ proc (all_processes s)).
  assert (Forall remaining_bounded l1) as Hl1.
  { apply Forall_alter; [exact Hl|].
    intros p Hp [[Hr0 Hrb] Hb].
    rewrite (list_lookup_total_correct _ _ _ Hp) in He.
    unfold remaining_bounded. simpl.
    rewrite to_int_id by (unfold int_range in *; lia).
    split; [lia|exact Hb]. }
  set (l2 := map _ l1).
  assert (Forall remaining_bounded l2) as Hl2.
  { apply Forall_map. eapply List.Forall_impl; [|exact Hl1].
    intros p Hp. simpl. destruct (bool_decide _); exact Hp. }
  cbn beta iota zeta delta [set_stats set_all_processes all_processes].
  destruct (bool_decide _); [exact Hl2|].
  destruct (_ <=? 0); simpl; apply Forall_alter; auto.
Qed.

Lemma remaining_inv_kstep e cfg :
  kevent_in_range e -> remaining_inv cfg ->
  remaining_inv (kstep HZ msecs_to_jiffies jiffies_to_msecs e cfg).
Proof.
  destruct cfg as [pc s]. intros Hok (Hq & Hl & Hpc).
  simpl in Hq, Hl, Hpc. destruct e as [c ok j|q a|j1 j2|j]; simpl.
  - (* a write to /proc/sched_stats *)
    destruct c as [nm b pr|pid w| |]; simpl.
    + unfold cmd_new. destruct (_ || _ || _) eqn:Hv;
        [split; [|split]; assumption|].
      destruct ok; simpl; [|split; [|split]; assumption].
      apply orb_false_elim in Hv as [Hv _].
      apply orb_false_elim in Hv as [Hb _]. apply Z.leb_gt in Hb.
      simpl in Hok.
      assert (remaining_bounded
                (mkPcb (to_int (next_pid s + 1)) (strncpy 31 nm) pr pr b b
                   PROC_READY j 0 0 j 0)) as Hnew.
      { unfold remaining_bounded. simpl. split; [lia|exact Hok]. }
      split; [exact Hq|]. split.
      * unfold remaining_inv. simpl. apply Forall_app. split; [exact Hl|].
        constructor; [exact Hnew|constructor].
      * unfold enqueue_process. simpl. destruct pc as [|proc e|]; try exact I.
        destruct (decide (proc < length (all_processes s))%nat) as [Hlt|Hge].
        -- rewrite lookup_total_app_l by exact Hlt. exact Hpc.
        -- rewrite (list_lookup_total_alt (all_processes s)) in Hpc.
           rewrite lookup_ge_None_2 in Hpc by lia. simpl in Hpc.
           assert (Forall remaining_bounded (all_processes s ++
                     [mkPcb (to_int (next_pid s + 1)) (strncpy 31 nm) pr pr b b
                        PROC_READY j 0 0 j 0])) as Happ.
           { apply Forall_app. split; [exact Hl|].
             constructor; [exact Hnew|constructor]. }
           pose proof (lookup_total_Forall remaining_bounded _ proc
                         remaining_bounded_zero_pcb Happ) as [Hp _].
           lia.
    + pose proof (Forall_cmd_wait remaining_bounded ltac:(auto) ltac:(auto)
                    msecs_to_jiffies pid w j s Hl) as Hl'.
      split; [|split; [exact Hl'|]].
      * unfold cmd_wait. destruct (find_index _ _); [|exact Hq].
        destruct (_ || _); [|exact Hq]. simpl.
        destruct (bool_decide _); exact Hq.
      * destruct pc as [|proc e|]; try exact I. simpl.
        unfold cmd_wait. destruct (find_index _ _) as [i|]; [|exact Hpc].
        destruct (_ || _); [|exact Hpc]. simpl.
        assert (forall l : list custom_pcb,
                  remaining_time_ms
                    (alter (fun p => set_wakeup_time_jiffies
                                       (to_ulong (j + msecs_to_jiffies w))
                                       (set_state PROC_WAITING p)) i l !!! proc)
                  = remaining_time_ms (l !!! proc)) as Hsame.
        { intros l. rewrite list_lookup_total_alter.
          destruct (decide _) as [[-> _]|_]; reflexivity. }
        destruct (bool_decide _); simpl; rewrite Hsame; exact Hpc.
    + split; [|split]; assumption.
    + split; [|split]; assumption.
  - (* a write to the module parameters *)
    split; [exact Hok|]. split; [exact Hl|].
    destruct pc; simpl; try exact I. exact Hpc.
  - (* the thread leaves the top of the loop *)
    destruct pc.
    + apply remaining_inv_iteration_begin. split; [|split]; assumption.
    + split; [|split]; assumption.
    + split; [|split]; assumption.
  - (* the thread wakes from its sleep *)
    destruct pc as [|proc e|]; simpl.
    + split; [|split]; assumption.
    + split; [|split; [|exact I]]; simpl.
      * unfold post_execute. simpl.
        destruct (bool_decide _); [exact Hq|]. destruct (_ <=? 0); exact Hq.
      * apply Forall_post_execute; assumption.
    + split; [|split; [|exact I]]; assumption.
Qed.

Lemma remaining_inv_krun es cfg :
  Forall kevent_in_range es -> remaining_inv cfg ->
  remaining_inv (krun HZ msecs_to_jiffies jiffies_to_msecs es cfg).
Proof.
  revert cfg. induction es as [|e es IH]; intros cfg Hes Hcfg; [exact Hcfg|].
  inversion Hes; subst. simpl. apply IH; [assumption|].
  apply remaining_inv_kstep; assumption.
Qed.

(** *** Aging *)

Lemma apply_aging_pcb_disabled a j p :
  a <= 0 -> apply_aging_pcb HZ a j p = p.
Proof.
  intros Ha. unfold apply_aging_pcb.
  destruct (bool_decide _); [|reflexivity].
  rewrite (proj2 (Z.ltb_ge 0 a)) by lia. reflexivity.
Qed.

Lemma apply_aging_pcb_not_ready a j p :
  state p <> PROC_READY -> apply_aging_pcb HZ a j p = p.
Proof.
  intros Hs. unfold apply_aging_pcb.
  rewrite bool_decide_false by exact Hs. reflexivity.
Qed.

(** For a READY member and a positive factor, the new key is
    [max(0, base - waited_sec / factor)], as long as the quotient stays
    within 2^31 of the base priority (the result is stored in an [int]). *)
Lemma apply_aging_pcb_formula a j p :
  state p = PROC_READY -> 0 < a < 2 ^ 31 -> int_range (base_priority p) ->
  let waited_sec := to_ulong (j - last_update_jiffies p) / HZ in
  0 <= waited_sec / a <= base_priority p + 2 ^ 31 ->
  apply_aging_pcb HZ a j p =
    set_effective_priority (Z.max 0 (base_priority p - waited_sec / a)) p.
Proof.
  intros Hs Ha Hb waited_sec Hq. unfold apply_aging_pcb.
  rewrite bool_decide_true by exact Hs.
  rewrite (proj2 (Z.ltb_lt 0 a)) by lia.
  fold waited_sec. rewrite to_int_to_ulong.
  rewrite (to_ulong_id a) by (unfold ulong_range; lia).
  assert (to_int (to_ulong (base_priority p) - waited_sec / a)
          = base_priority p - waited_sec / a) as ->.
  { unfold to_ulong. rewrite (Z.mod_eq (base_priority p) (2 ^ 64)) by lia.
    unfold to_int.
    replace (base_priority p - 2 ^ 64 * (base_priority p / 2 ^ 64)
             - waited_sec / a + 2 ^ 31)
      with (base_priority p - waited_sec / a + 2 ^ 31
            + (- (base_priority p / 2 ^ 64) * 2 ^ 32) * 2 ^ 32) by lia.
    rewrite Z.mod_add by lia.
    unfold int_range in Hb. rewrite Z.mod_small by lia. lia. }
  f_equal. destruct (Z.ltb_spec (base_priority p - waited_sec / a) 0); lia.
Qed.

Lemma apply_aging_pcb_idempotent a j p :
  apply_aging_pcb HZ a j (apply_aging_pcb HZ a j p) = apply_aging_pcb HZ a j p.
Proof.
  unfold apply_aging_pcb.
  destruct (bool_decide (state p = PROC_READY)) eqn:Hs; [|rewrite Hs; reflexivity].
  destruct (0 <? a);
    cbn [state set_effective_priority base_priority last_update_jiffies];
    rewrite Hs; reflexivity.
Qed.

Lemma fold_alter_lookup {A} (f : A -> A) (q : list nat) (l : list A) (i : nat) :
  (forall x, f (f x) = f x) ->
  fold_left (fun st k => alter f k st) q l !! i =
    if decide (i ∈ q) then f <$> l !! i else l !! i.
Proof.
  intros Hf. revert l. induction q as [|k q IH]; intros l.
  - destruct (decide (i ∈ [])) as [Hin|_]; [|reflexivity].
    apply elem_of_nil in Hin. contradiction.
  - cbn [fold_left]. rewrite IH, list_lookup_alter.
    destruct (decide (i ∈ k :: q)) as [Hin|Hnin].
    + destruct (decide (k = i)) as [->|Hne].
      * destruct (decide (i ∈ q)); [|reflexivity].
        destruct (l !! i); simpl; [|reflexivity]. rewrite Hf. reflexivity.
      * apply elem_of_cons in Hin as [->|Hin]; [contradiction|].
        rewrite decide_True by exact Hin. reflexivity.
    + apply not_elem_of_cons in Hnin as [Hne Hnin].
      rewrite decide_False by exact Hnin.
      rewrite decide_False by (intros ->; apply Hne; reflexivity).
      reflexivity.
Qed.

(** [apply_aging] recomputes the key of every member of the ready queue and
    of no other PCB; the queue itself is not touched. *)
Lemma apply_aging_members j s i :
  all_processes (apply_aging HZ j s) !! i =
    (if decide (i ∈ ready_q_head s)
     then apply_aging_pcb HZ (aging_factor_sec s) j <$> all_processes s !! i
     else all_processes s !! i) /\
  ready_q_head (apply_aging HZ j s) = ready_q_head s.
Proof.
  split; [|reflexivity]. unfold apply_aging. simpl.
  apply fold_alter_lookup. apply apply_aging_pcb_idempotent.
Qed.

(** Aging keeps [0 <= effective <= base <= 10] under the same proviso. *)
Lemma priority_bounded_apply_aging_pcb a j p :
  a < 2 ^ 31 -> 0 < HZ ->
  to_ulong (j - last_update_jiffies p) / HZ / a <= 2 ^ 31 ->
  priority_bounded p -> priority_bounded (apply_aging_pcb HZ a j p).
Proof.
  intros Ha HHZ Hq Hp.
  destruct (decide (state p = PROC_READY)) as [Hs|Hs];
    [|rewrite apply_aging_pcb_not_ready by exact Hs; exact Hp].
  destruct (Z.le_gt_cases a 0) as [Ha0|Ha0];
    [rewrite apply_aging_pcb_disabled by exact Ha0; exact Hp|].
  destruct Hp as [[He0 Heb] Hb10].
  assert (0 <= to_ulong (j - last_update_jiffies p) / HZ / a) as Hq0.
  { apply Z.div_pos; [|lia]. apply Z.div_pos; [|lia].
    unfold to_ulong. apply Z.mod_pos_bound. lia. }
  rewrite apply_aging_pcb_formula;
    [|exact Hs|lia|unfold int_range; lia|lia].
  unfold priority_bounded. simpl. lia.
Qed.

(** *** The slice of a RUNNING process

    The kernel module has no function of its own for the advance: the
    scheduler thread subtracts the slice after its sleep and then decides.
    For a process that is still RUNNING the remaining time drops by
    [min(quantum, remaining)] and the process is TERMINATED exactly when
    nothing remains, READY otherwise. *)

Lemma post_execute_advance proc j s :
  (proc < length (all_processes s))%nat ->
  state (all_processes s !!! proc) = PROC_RUNNING ->
  remaining_bounded (all_processes s !!! proc) ->
  0 <= time_quantum_ms s ->
  let p := all_processes s !!! proc in
  let exec_time := Z.min (time_quantum_ms s) (remaining_time_ms p) in
  let p' := all_processes (post_execute jiffies_to_msecs proc exec_time j s)
              !!! proc in
  remaining_time_ms p' = remaining_time_ms p - exec_time /\
  (state p' = PROC_TERMINATED <-> remaining_time_ms p' = 0) /\
  (state p' = PROC_TERMINATED \/ state p' = PROC_READY).
Proof.
  intros Hlt Hrun [[Hr0 Hrb] Hb] Hq p exec_time.
  destruct (lookup_lt_is_Some_2 _ _ Hlt) as [p0 Hp0].
  assert (p = p0) as Hp by (apply list_lookup_total_correct; exact Hp0).
  fold p in Hrun, Hr0, Hrb, Hb.
  assert (to_int (remaining_time_ms p - exec_time)
          = remaining_time_ms p - exec_time) as Hint.
  { apply to_int_id. unfold int_range in *. unfold exec_time. lia. }
  unfold post_execute. cbn zeta.
  set (l2 := map _ (alter _ proc (all_processes s))).
  assert (l2 !! proc =
            Some (set_remaining_time_ms (remaining_time_ms p - exec_time) p))
    as Hl2.
  { unfold l2. change (map ?f ?l) with (f <$> l).
    rewrite list_lookup_fmap, list_lookup_alter_eq, Hp0, <- Hp.
    cbn [fmap option_fmap option_map state set_remaining_time_ms].
    rewrite Hrun, bool_decide_false by discriminate.
    rewrite Hint. reflexivity. }
  cbn [all_processes set_stats set_all_processes].
  rewrite (list_lookup_total_correct _ _ _ Hl2).
  cbn [state remaining_time_ms set_remaining_time_ms].
  rewrite Hrun, bool_decide_false by discriminate.
  destruct (Z.leb_spec (remaining_time_ms p - exec_time) 0) as [Hle|Hgt];
    cbn [all_processes set_current_proc set_all_processes enqueue_process
           set_ready_q].
  - erewrite list_lookup_total_correct
      by (rewrite list_lookup_alter_eq, Hl2; reflexivity).
    simpl. unfold exec_time in *. split; [reflexivity|].
    split; [|left; reflexivity]. split; [lia|reflexivity].
  - erewrite list_lookup_total_correct
      by (rewrite list_lookup_alter_eq, Hl2; reflexivity).
    simpl. split; [reflexivity|]. split; [|right; reflexivity].
    split; [discriminate|lia].
Qed.

Lemma priority_floor_apply_aging_pcb a j p :
  priority_floor p -> priority_floor (apply_aging_pcb HZ a j p).
Proof.
  intros [He Hb]. unfold apply_aging_pcb.
  destruct (bool_decide _); [|split; assumption].
  destruct (0 <? a); [|split; assumption].
  split; [|exact Hb]. simpl.
  destruct (Z.ltb_spec (to_int (to_ulong (to_ulong (base_priority p)
              - to_ulong (j - last_update_jiffies p) / HZ / to_ulong a))) 0);
    lia.
Qed.

Lemma priority_floor_kstep e cfg :
  Forall priority_floor (all_processes cfg.2) ->
  Forall priority_floor
    (all_processes (kstep HZ msecs_to_jiffies jiffies_to_msecs e cfg).2).
Proof.
  destruct cfg as [pc s]. intros Hl. simpl in Hl.
  destruct e as [c ok j|q a|j1 j2|j]; simpl.
  - destruct c as [nm b pr|pid w| |]; simpl; try exact Hl.
    + unfold cmd_new. destruct (_ || _ || _) eqn:Hv; [exact Hl|].
      destruct ok; [|exact Hl]. simpl.
      apply orb_false_elim in Hv as [Hv Hhi].
      apply orb_false_elim in Hv as [_ Hlo].
      apply Z.ltb_ge in Hlo, Hhi.
      apply Forall_app. split; [exact Hl|].
      constructor; [|constructor]. split; simpl; lia.
    + apply Forall_cmd_wait; auto.
  - exact Hl.
  - destruct pc; try exact Hl. unfold iteration_begin.
    pose proof (Forall_select_next_process priority_floor ltac:(auto)
                  (apply_aging HZ j2 (check_waiting_processes j1 s))) as Hsel.
    destruct (select_next_process _) as [[proc|] s3]; simpl in *;
      apply Hsel; apply Forall_apply_aging;
      try (intros; apply priority_floor_apply_aging_pcb; assumption);
      apply Forall_check_waiting_processes; auto.
  - destruct pc as [|proc e|]; simpl; try exact Hl.
    apply Forall_post_execute_frame; auto.
Qed.

(** In every state that the module reaches, every PCB has a base priority
    in 0..10 and an effective priority that is not negative. *)
Lemma priority_floor_krun es quantum aging :
  Forall priority_floor
    (all_processes (krun HZ msecs_to_jiffies jiffies_to_msecs es
                      (LoopTop, kstate_init quantum aging)).2).
Proof.
  assert (Forall priority_floor
            (all_processes (LoopTop, kstate_init quantum aging).2)) as Hinit
    by constructor.
  revert Hinit. generalize (LoopTop, kstate_init quantum aging).
  induction es as [|e es IH]; intros cfg Hcfg; [exact Hcfg|].
  simpl. apply IH. apply priority_floor_kstep. exact Hcfg.
Qed.

(** *** The post-execute decision on a WAITING process *)

Lemma post_execute_waiting proc exec_time j s :
  (proc < length (all_processes s))%nat ->
  state (all_processes s !!! proc) = PROC_WAITING ->
  let s' := post_execute jiffies_to_msecs proc exec_time j s in
  current_proc s' = None /\
  ready_q_head s' = ready_q_head s /\
  state (all_processes s' !!! proc) = PROC_WAITING.
Proof.
  intros Hlt Hw. unfold post_execute. cbn zeta.
  set (l2 := map _ (alter _ proc (all_processes s))).
  assert (state (l2 !!! proc) = PROC_WAITING) as Hw2.
  { destruct (lookup_lt_is_Some_2 _ _ Hlt) as [p Hp].
    rewrite (list_lookup_total_correct _ _ _ Hp) in Hw.
    erewrite (list_lookup_total_correct l2 proc).
    2:{ unfold l2. change (map ?f ?l) with (f <$> l).
        rewrite list_lookup_fmap, list_lookup_alter_eq, Hp. reflexivity. }
    cbn [state set_remaining_time_ms]. rewrite Hw.
    rewrite bool_decide_false by discriminate. exact Hw. }
  cbn [all_processes set_stats set_all_processes].
  rewrite bool_decide_true by exact Hw2.
  repeat split. exact Hw2.
Qed.

(** *** The membership invariant along the steps of the module *)

Lemma state_apply_aging_pcb a j p : state (apply_aging_pcb HZ a j p) = state p.
Proof.
  unfold apply_aging_pcb. destruct (bool_decide _); [|reflexivity].
  destruct (0 <? a); reflexivity.
Qed.

Lemma states_apply_aging j s : states (apply_aging HZ j s) = states s.
Proof.
  unfold states, apply_aging. simpl. generalize (all_processes s) as l.
  induction (ready_q_head s) as [|i q IH]; intros l; simpl; [reflexivity|].
  rewrite IH. apply states_alter_same. intros p. apply state_apply_aging_pcb.
Qed.

Lemma membership_inv_wake_process j s i :
  membership_inv (ready_q_head s) (states s) (current_proc s) ->
  membership_inv (ready_q_head (wake_process j s i))
    (states (wake_process j s i)) (current_proc (wake_process j s i)) /\
  current_proc (wake_process j s i) = current_proc s.
Proof.
  intros Hinv. unfold wake_process.
  destruct (bool_decide _ && _) eqn:Hcond; [|split; [exact Hinv|reflexivity]].
  apply andb_true_iff in Hcond as [Hw _]. apply bool_decide_eq_true in Hw.
  split; [|reflexivity]. unfold states. simpl.
  rewrite (states_alter_set _ PROC_READY) by reflexivity.
  destruct (decide (i < length (all_processes s))%nat) as [Hlt|Hge].
  - apply (membership_inv_enqueue _ _ _ (current_proc s) _ _ PROC_WAITING);
      [exact Hinv| |discriminate|].
    + rewrite states_lookup_lt by exact Hlt. rewrite Hw. reflexivity.
    + intros k _. apply Hinv.
  - rewrite list_lookup_total_alt, lookup_ge_None_2 in Hw by lia.
    discriminate.
Qed.

Lemma membership_inv_check_waiting_processes j s :
  membership_inv (ready_q_head s) (states s) (current_proc s) ->
  membership_inv (ready_q_head (check_waiting_processes j s))
    (states (check_waiting_processes j s))
    (current_proc (check_waiting_processes j s)) /\
  current_proc (check_waiting_processes j s) = current_proc s.
Proof.
  unfold check_waiting_processes.
  generalize (seq 0 (length (all_processes s))). intros idx. revert s.
  induction idx as [|i idx IH]; intros s Hs; simpl; [split; [exact Hs|reflexivity]|].
  destruct (membership_inv_wake_process j s i Hs) as [Hs1 Hcur1].
  destruct (IH _ Hs1) as [Hs2 Hcur2]. split; [exact Hs2|congruence].
Qed.

Lemma queue_inv_select_next_process s :
  membership_inv (ready_q_head s) (states s) (current_proc s) ->
  current_proc s = None ->
  let r := select_next_process s in
  membership_inv (ready_q_head r.2) (states r.2) (current_proc r.2) /\
  match r.1 with
  | Some proc =>
      states r.2 !! proc = Some PROC_RUNNING /\ current_proc r.2 = Some proc
  | None => current_proc r.2 = None
  end.
Proof.
  intros (Hnd & Hq & Hrun) Hcur. unfold select_next_process.
  rewrite Hcur. unfold dequeue_process. rewrite Hcur in Hrun.
  destruct (ready_q_head s) as [|proc rest] eqn:Hhead; cbn zeta.
  - cbn [fst snd]. rewrite Hhead, Hcur.
    split; [|reflexivity]. split; [exact Hnd|split; [exact Hq|exact Hrun]].
  - assert (states s !! proc = Some PROC_READY) as Hready.
    { apply Hq. apply list_elem_of_here. }
    pose proof (lookup_lt_Some _ _ _ Hready) as Hlt.
    apply NoDup_cons in Hnd as [Hnotin Hnd].
    cbn [fst snd]. unfold states.
    cbn [all_processes ready_q_head current_proc set_stats set_current_proc
           set_all_processes set_ready_q].
    rewrite (states_alter_set _ PROC_RUNNING) by reflexivity.
    fold (states s). split.
    + split; [exact Hnd|]. split.
      * intros i. destruct (decide (i = proc)) as [->|Hne].
        -- rewrite list_lookup_insert_eq by exact Hlt.
           split; [contradiction|discriminate].
        -- rewrite list_lookup_insert_ne by (intros ->; apply Hne; reflexivity).
           rewrite <- Hq, elem_of_cons.
           split; [auto|intros [?|?]; [contradiction|assumption]].
      * intros i. destruct (decide (i = proc)) as [->|Hne]; [reflexivity|].
        rewrite list_lookup_insert_ne by (intros ->; apply Hne; reflexivity).
        intros Hi. specialize (Hrun i Hi). discriminate.
    + rewrite list_lookup_insert_eq by exact Hlt. split; reflexivity.
Qed.

Lemma queue_inv_iteration_begin j1 j2 s :
  queue_inv (LoopTop, s) -> queue_inv (iteration_begin HZ j1 j2 s).
Proof.
  intros [Hmem Hcur]. simpl in Hmem, Hcur. unfold iteration_begin.
  destruct (membership_inv_check_waiting_processes j1 s Hmem) as [Hmem1 Hcur1].
  assert (membership_inv
            (ready_q_head (apply_aging HZ j2 (check_waiting_processes j1 s)))
            (states (apply_aging HZ j2 (check_waiting_processes j1 s)))
            (current_proc (apply_aging HZ j2 (check_waiting_processes j1 s))))
    as Hmem2.
  { rewrite states_apply_aging. exact Hmem1. }
  assert (current_proc (apply_aging HZ j2 (check_waiting_processes j1 s)) = None)
    as Hcur2 by (simpl; congruence).
  pose proof (queue_inv_select_next_process _ Hmem2 Hcur2) as Hsel.
  cbn zeta in Hsel.
  destruct (select_next_process _) as [[proc|] s3]; cbn [fst snd] in Hsel.
  - destruct Hsel as [Hm Ht]. split; [exact Hm|]. left. exact Ht.
  - destruct Hsel as [Hm Ht]. split; [exact Hm|exact Ht].
Qed.

Lemma states_post_execute_slice proc exec_time (l : list custom_pcb) :
  state <$>
    map (fun p => if bool_decide (state p = PROC_READY)
                  then set_wait_time_ms
                         (to_ulong (wait_time_ms p + to_ulong exec_time)) p
                  else p)
      (alter (fun p => set_remaining_time_ms
                         (to_int (remaining_time_ms p - exec_time)) p)
         proc l)
  = state <$> l.
Proof.
  change (map ?f ?l) with (f <$> l). rewrite <- list_fmap_compose.
  rewrite <- (states_alter_same
                (fun p => set_remaining_time_ms
                            (to_int (remaining_time_ms p - exec_time)) p)
                proc l) by reflexivity.
  apply list_fmap_ext. intros i p _. simpl.
  destruct (bool_decide _); reflexivity.
Qed.

Lemma queue_inv_post_execute proc exec_time j s :
  queue_inv (Executing proc exec_time, s) ->
  queue_inv (LoopTop, post_execute jiffies_to_msecs proc exec_time j s).
Proof.
  intros [Hmem Hthread]. simpl in Hmem, Hthread. unfold post_execute. cbn zeta.
  set (l2 := map _ (alter _ proc (all_processes s))).
  assert (state <$> l2 = states s) as Hl2
    by apply states_post_execute_slice.
  cbn [all_processes set_stats set_all_processes].
  destruct Hthread as [[Hrun Hcur]|[Hwait Hcur]].
  - (* still RUNNING *)
    rewrite <- Hl2 in Hrun. rewrite (states_lookup_total _ _ _ Hrun).
    rewrite bool_decide_false by discriminate.
    rewrite Hl2 in Hrun.
    assert (forall i, i <> proc -> states s !! i = Some PROC_RUNNING ->
                      @None nat = Some i) as Hothers.
    { intros i Hne Hi. destruct Hmem as (_ & _ & Hr).
      specialize (Hr i Hi). congruence. }
    destruct (_ <=? 0); split; simpl; try reflexivity.
    + unfold states. simpl.
      rewrite (states_alter_set _ PROC_TERMINATED) by reflexivity. rewrite Hl2.
      apply (membership_inv_retire _ _ (current_proc s) _ _ PROC_RUNNING);
        auto; discriminate.
    + unfold states. simpl.
      rewrite (states_alter_set _ PROC_READY) by reflexivity. rewrite Hl2.
      apply (membership_inv_enqueue _ _ _ (current_proc s) _ _ PROC_RUNNING);
        auto; discriminate.
  - (* taken away by a WAIT command *)
    rewrite <- Hl2 in Hwait. rewrite (states_lookup_total _ _ _ Hwait).
    rewrite bool_decide_true by reflexivity.
    split; simpl; [|reflexivity]. unfold states. simpl. rewrite Hl2.
    rewrite Hcur in Hmem. exact Hmem.
Qed.

Lemma thread_inv_app pc sts cur c :
  thread_inv pc sts cur -> thread_inv pc (sts ++ [c]) cur.
Proof.
  destruct pc as [|proc e|]; simpl; try exact id.
  intros [[H1 H2]|[H1 H2]]; [left|right]; (split; [|exact H2]);
    apply lookup_app_l_Some; exact H1.
Qed.

Lemma thread_inv_insert_ne pc sts cur i c c' :
  sts !! i = Some c -> c <> PROC_RUNNING -> c <> PROC_WAITING ->
  thread_inv pc sts cur -> thread_inv pc (<[i := c']> sts) cur.
Proof.
  intros Hi Hc1 Hc2. destruct pc as [|proc e|]; simpl; try exact id.
  assert (sts !! proc = Some PROC_RUNNING \/ sts !! proc = Some PROC_WAITING ->
          i <> proc) as Hne by (intros [H|H] ->; congruence).
  intros [[H1 H2]|[H1 H2]]; [left|right]; (split; [|exact H2]);
    rewrite list_lookup_insert_ne by auto; exact H1.
Qed.

Lemma queue_inv_cmd_new nm b pr ok j pc s :
  queue_inv (pc, s) -> queue_inv (pc, (cmd_new nm b pr ok j s).2).
Proof.
  intros [Hmem Hthread]. simpl in Hmem, Hthread. unfold cmd_new.
  destruct (_ || _ || _); [split; assumption|].
  destruct ok; [|split; assumption]. cbn [snd negb].
  unfold queue_inv, states, enqueue_process.
  cbn [fst snd all_processes ready_q_head current_proc set_ready_q
         set_all_processes set_next_pid].
  rewrite fmap_app. cbn [fmap list_fmap state]. fold (states s).
  split; [|apply thread_inv_app; exact Hthread].
  destruct Hmem as (Hnd & Hq & Hrun).
  assert (length (all_processes s) = length (states s)) as Hlen
    by (unfold states; rewrite length_fmap; reflexivity).
  assert (length (all_processes s) ∉ ready_q_head s) as Hnotin.
  { intros Hin. apply Hq in Hin. apply lookup_lt_Some in Hin. lia. }
  split; [|split].
  - rewrite insert_by_priority_Permutation. apply NoDup_cons. auto.
  - intros i. rewrite insert_by_priority_Permutation, elem_of_cons, Hq.
    destruct (decide (i = length (all_processes s))) as [->|Hne].
    + rewrite Hlen, list_lookup_middle by reflexivity.
      split; [reflexivity|auto].
    + split.
      * intros [?|Hi]; [contradiction|]. apply lookup_app_l_Some. exact Hi.
      * intros Hi. right. apply lookup_app_Some in Hi as [Hi|[Hge Hi]];
          [exact Hi|].
        destruct (i - length (states s))%nat as [|k] eqn:Hk;
          [lia|discriminate].
  - intros i Hi. apply Hrun.
    apply lookup_app_Some in Hi as [Hi|[Hge Hi]]; [exact Hi|].
    destruct (i - length (states s))%nat; discriminate.
Qed.

Lemma queue_inv_cmd_wait pid w j pc s :
  queue_inv (pc, s) -> queue_inv (pc, (cmd_wait msecs_to_jiffies pid w j s).2).
Proof.
  intros [Hmem Hthread]. simpl in Hmem, Hthread. unfold cmd_wait.
  destruct (find_index _ _) as [i|] eqn:Hfind; [|split; assumption].
  apply find_index_lt in Hfind.
  pose proof (states_lookup_lt _ _ Hfind) as Hi. fold (states s) in Hi.
  destruct (decide (state (all_processes s !!! i) = PROC_RUNNING)) as [Hst|Hnr];
    [|destruct (decide (state (all_processes s !!! i) = PROC_READY))
        as [Hst|Hnd]].
  3:{ rewrite !bool_decide_false by assumption. split; assumption. }
  2:{ (* READY *)
    rewrite (bool_decide_false _ Hnr), (bool_decide_true _ Hst).
    cbn [orb snd]. rewrite Hst in Hi.
    unfold queue_inv, states.
    cbn [fst snd all_processes ready_q_head current_proc set_ready_q
           set_all_processes remove_process].
    rewrite (states_alter_set _ PROC_WAITING) by reflexivity. fold (states s).
    split.
    + destruct Hmem as (Hnd & Hq & Hrun). split; [|split].
      * apply NoDup_filter. exact Hnd.
      * intros k. rewrite list_elem_of_filter, Hq.
        destruct (decide (k = i)) as [->|Hne].
        -- rewrite list_lookup_insert_eq
             by (unfold states; rewrite length_fmap; exact Hfind).
           split; [intros [? _]; contradiction|discriminate].
        -- rewrite list_lookup_insert_ne by (intros ->; apply Hne; reflexivity).
           split; [intros [_ ?]; assumption|auto].
      * intros k. destruct (decide (k = i)) as [->|Hne].
        -- rewrite list_lookup_insert_eq
             by (unfold states; rewrite length_fmap; exact Hfind).
           discriminate.
        -- rewrite list_lookup_insert_ne by (intros ->; apply Hne; reflexivity).
           apply Hrun.
    + apply (thread_inv_insert_ne _ _ _ _ PROC_READY);
        [exact Hi|discriminate|discriminate|exact Hthread]. }
  - (* RUNNING *)
    rewrite !(bool_decide_true _ Hst). cbn [orb snd]. rewrite Hst in Hi.
    unfold queue_inv, states.
    cbn [fst snd all_processes ready_q_head current_proc set_current_proc
           set_all_processes].
    rewrite (states_alter_set _ PROC_WAITING) by reflexivity. fold (states s).
    assert (current_proc s = Some i) as Hcur.
    { destruct Hmem as (_ & _ & Hrun). apply Hrun. exact Hi. }
    split.
    + apply (membership_inv_retire _ _ (current_proc s) _ _ PROC_RUNNING);
        [exact Hmem|exact Hi|discriminate|discriminate|discriminate|].
      intros k Hne Hk. destruct Hmem as (_ & _ & Hrun).
      specialize (Hrun k Hk). congruence.
    + destruct pc as [|proc e|]; simpl in *; try congruence.
      destruct Hthread as [[H1 H2]|[H1 H2]]; [|congruence].
      assert (proc = i) as -> by congruence.
      right. split; [|reflexivity].
      apply list_lookup_insert_eq.
      unfold states. rewrite length_fmap. exact Hfind.
Qed.

Lemma queue_inv_kstep e cfg :
  queue_inv cfg -> queue_inv (kstep HZ msecs_to_jiffies jiffies_to_msecs e cfg).
Proof.
  destruct cfg as [pc s]. intros Hinv.
  destruct e as [c ok j|q a|j1 j2|j]; simpl.
  - destruct c as [nm b pr|pid w| |]; simpl; try exact Hinv.
    + apply queue_inv_cmd_new. exact Hinv.
    + apply queue_inv_cmd_wait. exact Hinv.
  - exact Hinv.
  - destruct pc; try exact Hinv. apply queue_inv_iteration_begin. exact Hinv.
  - destruct pc as [|proc e|]; try exact Hinv.
    apply (queue_inv_post_execute proc e j s Hinv).
Qed.

(** Every state that the module reaches satisfies the membership
    invariants. *)
Lemma queue_inv_krun es quantum aging :
  queue_inv (krun HZ msecs_to_jiffies jiffies_to_msecs es
               (LoopTop, kstate_init quantum aging)).
Proof.
  assert (queue_inv (LoopTop, kstate_init quantum aging)) as Hinit.
  { split; [|reflexivity]. split; [constructor|]. split.
    - intros i. split; [intros Hin; apply elem_of_nil in Hin; contradiction|].
      discriminate.
    - discriminate. }
  revert Hinit. generalize (LoopTop, kstate_init quantum aging).
  induction es as [|e es IH]; intros cfg Hcfg; [exact Hcfg|].
  simpl. apply IH. apply queue_inv_kstep. exact Hcfg.
Qed.

(** *** The context-switch counter *)

Lemma stats_check_waiting_processes j s :
  stats (check_waiting_processes j s) = stats s.
Proof.
  unfold check_waiting_processes.
  generalize (seq 0 (length (all_processes s))). intros idx. revert s.
  induction idx as [|i idx IH]; intros s; simpl; [reflexivity|].
  rewrite IH. unfold wake_process. destruct (_ && _); reflexivity.
Qed.

Lemma select_next_process_dispatch s proc rest :
  slot_vacant s -> ready_q_head s = proc :: rest ->
  select_next_process s =
    (Some proc,
     set_stats
       (set_context_switches (to_ulong (switches s + 1)) (stats s))
       (set_current_proc (Some proc)
          (set_all_processes
             (alter (set_state PROC_RUNNING) proc (all_processes s))
             (set_ready_q rest (to_int (ready_q_count s - 1)) s)))).
Proof.
  intros Hvacant Hq. unfold select_next_process, slot_vacant in *.
  assert (match current_proc s with
          | Some c => bool_decide (state (all_processes s !!! c) = PROC_RUNNING)
          | None => false
          end = false) as ->.
  { destruct (current_proc s); [|reflexivity].
    apply bool_decide_eq_false. exact Hvacant. }
  unfold dequeue_process. rewrite Hq. reflexivity.
Qed.

Lemma switches_select_next_process s :
  switches (select_next_process s).2 = switches s \/
  switches (select_next_process s).2 = to_ulong (switches s + 1).
Proof.
  unfold select_next_process.
  destruct (match current_proc s with Some _ => _ | None => _ end);
    [left; reflexivity|].
  unfold dequeue_process. destruct (ready_q_head s); [left|right]; reflexivity.
Qed.

Lemma switches_iteration_begin j1 j2 s :
  switches (iteration_begin HZ j1 j2 s).2 = switches s \/
  switches (iteration_begin HZ j1 j2 s).2 = to_ulong (switches s + 1).
Proof.
  unfold iteration_begin.
  set (s2 := apply_aging HZ j2 (check_waiting_processes j1 s)).
  assert (switches s2 = switches s) as <-.
  { unfold switches, s2. simpl. rewrite stats_check_waiting_processes.
    reflexivity. }
  pose proof (switches_select_next_process s2) as Hsel.
  destruct (select_next_process s2) as [[proc|] s3]; exact Hsel.
Qed.

Lemma switches_iteration_end pc j s :
  switches (iteration_end jiffies_to_msecs pc j s) = switches s.
Proof.
  destruct pc as [|proc e|]; simpl; try reflexivity.
  unfold post_execute. cbn zeta.
  destruct (bool_decide _); [reflexivity|].
  destruct (_ <=? 0); reflexivity.
Qed.

Lemma switches_kstep e cfg :
  switches (kstep HZ msecs_to_jiffies jiffies_to_msecs e cfg).2
    = switches cfg.2 \/
  switches (kstep HZ msecs_to_jiffies jiffies_to_msecs e cfg).2
    = to_ulong (switches cfg.2 + 1).
Proof.
  destruct cfg as [pc s]. destruct e as [c ok j|q a|j1 j2|j]; simpl.
  - left. destruct c as [nm b pr|pid w| |]; simpl; try reflexivity.
    + unfold cmd_new. destruct (_ || _ || _); [reflexivity|].
      destruct ok; reflexivity.
    + unfold cmd_wait. destruct (find_index _ _); [|reflexivity].
      destruct (_ || _); [|reflexivity]. simpl.
      destruct (bool_decide _); reflexivity.
  - left. reflexivity.
  - destruct pc; try (left; reflexivity). apply switches_iteration_begin.
  - left. destruct pc; try reflexivity; simpl.
    + apply (switches_iteration_end (Executing proc exec_time)).
Qed.

Lemma switches_krun es cfg :
  ulong_range (switches cfg.2) ->
  switches cfg.2 + Z.of_nat (length es) < 2 ^ 64 ->
  switches cfg.2
    <= switches (krun HZ msecs_to_jiffies jiffies_to_msecs es cfg).2
    <= switches cfg.2 + Z.of_nat (length es).
Proof.
  revert cfg. induction es as [|e es IH]; intros cfg Hr Hb; simpl.
  - lia.
  - set (cfg1 := kstep HZ msecs_to_jiffies jiffies_to_msecs e cfg).
    assert (switches cfg.2 <= switches cfg1.2 <= switches cfg.2 + 1) as H1.
    { destruct (switches_kstep e cfg) as [Hs|Hs]; fold cfg1 in Hs; rewrite Hs.
      - lia.
      - rewrite to_ulong_id; [lia|]. unfold ulong_range in *.
        simpl length in Hb. lia. }
    simpl length in Hb.
    assert (ulong_range (switches cfg1.2)) as Hr1
      by (unfold ulong_range in *; lia).
    specialize (IH cfg1 Hr1 ltac:(lia)).
    unfold krun in IH |- *. lia.
Qed.

End WithHZ.

End KmodFacts.

(** * Invariants and laws

    Invariants of the reachable states and laws of the operations of the
    two programs. *)

(** ** Machine integers and lists *)

Lemma to_int_add_l a b : to_int (to_int a + b) = to_int (a + b).
Proof.
  unfold to_int. f_equal.
  replace ((a + 2 ^ 31) mod 2 ^ 32 - 2 ^ 31 + b + 2 ^ 31)
    with ((a + 2 ^ 31) mod 2 ^ 32 + b) by lia.
  rewrite Zplus_mod_idemp_l. f_equal. lia.
Qed.

Lemma to_ulong_add_l a b : to_ulong (to_ulong a + b) = to_ulong (a + b).
Proof. unfold to_ulong. apply Zplus_mod_idemp_l. Qed.

Lemma to_long_sub_ulong a b : to_long (to_ulong a - to_ulong b) = to_long (a - b).
Proof.
  unfold to_long, to_ulong. f_equal.
  rewrite <- (Zplus_mod_idemp_l (a mod 2 ^ 64 - b mod 2 ^ 64)).
  rewrite <- Zminus_mod. rewrite Zplus_mod_idemp_l. reflexivity.
Qed.

Lemma to_long_id z : - 2 ^ 63 <= z < 2 ^ 63 -> to_long z = z.
Proof. intros Hz. unfold to_long. rewrite Z.mod_small by lia. lia. Qed.

Lemma fmap_alter_same {A B} (g : A -> B) (f : A -> A) i (l : list A) :
  (forall x, g (f x) = g x) -> g <$> alter f i l = g <$> l.
Proof.
  intros Hf. revert i. induction l as [|x l IH]; intros [|i]; simpl;
    try reflexivity.
  - rewrite Hf. reflexivity.
  - f_equal. apply IH.
Qed.

Lemma fmap_insert_same {A B} `{Inhabited A} (g : A -> B) i (x : A) (l : list A) :
  g x = g (l !!! i) -> g <$> <[i := x]> l = g <$> l.
Proof.
  revert i. induction l as [|y l IH]; intros [|i]; simpl; try reflexivity.
  - intros ->. reflexivity.
  - intros Hx. f_equal. apply IH. exact Hx.
Qed.

Lemma alter_ext_at {A} `{Inhabited A} (f g : A -> A) i (l : list A) :
  f (l !!! i) = g (l !!! i) -> alter f i l = alter g i l.
Proof.
  revert i. induction l as [|x l IH]; intros [|i]; simpl; try reflexivity.
  - intros ->. reflexivity.
  - intros Hfg. f_equal. apply IH. exact Hfg.
Qed.

Lemma alter_id_at {A} `{Inhabited A} (f : A -> A) i (l : list A) :
  f (l !!! i) = l !!! i -> alter f i l = l.
Proof.
  revert i. induction l as [|x l IH]; intros [|i]; simpl; try reflexivity.
  - intros ->. reflexivity.
  - intros Hfg. f_equal. apply IH. exact Hfg.
Qed.

Lemma alter_ge {A} (f : A -> A) i (l : list A) :
  (length l <= i)%nat -> alter f i l = l.
Proof.
  revert i. induction l as [|x l IH]; intros [|i] Hi; simpl in *;
    try reflexivity; [lia|].
  f_equal. apply IH. lia.
Qed.

Lemma filter_ext_elem_of {A} (P Q : A -> Prop)
    `{forall x, Decision (P x)} `{forall x, Decision (Q x)} (l : list A) :
  (forall x, x ∈ l -> (P x <-> Q x)) -> filter P l = filter Q l.
Proof.
  induction l as [|x l IH]; intros Hl; [reflexivity|].
  rewrite !filter_cons.
  assert (P x <-> Q x) as Hx by (apply Hl; apply list_elem_of_here).
  rewrite IH by (intros y Hy; apply Hl; apply list_elem_of_further; exact Hy).
  destruct (decide (P x)), (decide (Q x)); tauto || reflexivity.
Qed.

Lemma length_filter_remove (i : nat) (q : list nat) :
  NoDup q -> i ∈ q -> S (length (filter (fun j => j <> i) q)) = length q.
Proof.
  induction q as [|x q IH]; intros Hnd Hin.
  - apply elem_of_nil in Hin. contradiction.
  - apply NoDup_cons in Hnd as [Hx Hnd]. rewrite filter_cons.
    destruct (decide (x <> i)) as [Hne|Heq].
    + simpl. f_equal. apply IH; [exact Hnd|].
      apply elem_of_cons in Hin as [->|Hin]; [contradiction|exact Hin].
    + assert (x = i) as -> by (destruct (decide (x = i)); [assumption|contradiction]).
      simpl. f_equal. f_equal. apply filter_Forall_id.
      apply Forall_forall. intros j Hj ->. contradiction.
Qed.

Lemma foldr_add_alter {A} (g : A -> Z) (f : A -> A) i (l : list A) x :
  l !! i = Some x ->
  foldr Z.add 0 (g <$> alter f i l) = foldr Z.add 0 (g <$> l) + (g (f x) - g x).
Proof.
  revert i. induction l as [|y l IH]; intros [|i] Hi; try discriminate.
  - injection Hi as ->. simpl. lia.
  - pose proof (IH i Hi) as IH'. simpl.
    change (list_fmap A Z g (list_alter f i l)) with (g <$> alter f i l).
    change (list_fmap A Z g l) with (g <$> l). lia.
Qed.

Lemma length_positions {A} `{EqDecision A} (c : A) (l : list A) :
  length (positions c l) = length (filter (fun x => x = c) l).
Proof.
  induction l as [|x l IH] using rev_ind; [reflexivity|].
  unfold positions in *. rewrite length_app. simpl length.
  rewrite Nat.add_1_r, seq_S, !filter_app, !length_app. simpl.
  rewrite <- IH. f_equal.
  - f_equal. apply filter_ext_elem_of. intros i Hi.
    apply elem_of_seq in Hi. rewrite lookup_app_l by lia. reflexivity.
  - rewrite !filter_cons, !filter_nil.
    rewrite list_lookup_middle by reflexivity.
    destruct (decide (Some x = Some c)) as [Heq|Hne];
      destruct (decide (x = c)) as [Heq'|Hne']; try reflexivity; congruence.
Qed.

Lemma elem_of_positions {A} `{EqDecision A} (c : A) (l : list A) i :
  i ∈ positions c l <-> l !! i = Some c.
Proof.
  unfold positions. rewrite list_elem_of_filter, elem_of_seq.
  split; [intros [? _]; assumption|]. intros Hi. split; [exact Hi|].
  apply lookup_lt_Some in Hi. lia.
Qed.

Lemma NoDup_positions {A} `{EqDecision A} (c : A) (l : list A) :
  NoDup (positions c l).
Proof. apply NoDup_filter, NoDup_seq. Qed.

Lemma NoDup_fmap_seq (f : nat -> Z) n :
  (forall i j, (i < n)%nat -> (j < n)%nat -> f i = f j -> i = j) ->
  NoDup (f <$> seq 0 n).
Proof.
  intros Hinj. apply NoDup_alt. intros i j x Hi Hj.
  rewrite list_lookup_fmap in Hi, Hj.
  destruct (seq 0 n !! i) as [a|] eqn:Ha; [|discriminate].
  destruct (seq 0 n !! j) as [b|] eqn:Hb; [|discriminate].
  apply lookup_seq in Ha as [-> Hia]. apply lookup_seq in Hb as [-> Hjb].
  simpl in *. apply Hinj; [lia|lia|congruence].
Qed.

(** ** The simulator *)

Module SimLaws.
Import Sim SimFacts.

(** *** Fields that the operations leave alone *)

Section Projection.

Context {B : Type} (g : Process -> B).
Hypothesis g_state : forall st p, g (setState st p) = g p.
Hypothesis g_remaining : forall r p, g (set_remainingTime r p) = g p.
Hypothesis g_effective : forall e p, g (set_effectivePriority e p) = g p.
Hypothesis g_wait : forall w p, g (set_waitTime w p) = g p.
Hypothesis g_turnaround : forall t p, g (set_turnaroundTime t p) = g p.

Lemma proj_execute q p : g (execute q p) = g p.
Proof.
  unfold execute. destruct (bool_decide _); [reflexivity|]. cbn zeta.
  destruct (_ =? 0); rewrite ?g_state; apply g_remaining.
Qed.

Lemma proj_updateStats_process q t p : g (updateStats_process q t p) = g p.
Proof.
  unfold updateStats_process. cbn zeta.
  destruct (bool_decide (state_ p = READY));
    destruct (bool_decide _); rewrite ?g_turnaround, ?g_wait; reflexivity.
Qed.

Lemma proj_updateStats t s :
  g <$> allProcesses_ (updateStats t s) = g <$> allProcesses_ s.
Proof.
  unfold updateStats. simpl. change (map ?f ?l) with (f <$> l).
  rewrite <- list_fmap_compose. apply list_fmap_ext. intros i p _. simpl.
  apply proj_updateStats_process.
Qed.

Lemma proj_selectNextProcess s :
  g <$> allProcesses_ (selectNextProcess s) = g <$> allProcesses_ s.
Proof.
  unfold selectNextProcess. destruct (_ && _); [|reflexivity].
  destruct (dequeue _ _) as [[c|] q]; [|reflexivity]. simpl.
  apply fmap_alter_same. apply g_state.
Qed.

Lemma proj_run_current rnd s :
  g <$> allProcesses_ (run_current rnd s) = g <$> allProcesses_ s.
Proof.
  unfold run_current. destruct (currentProcess_ s) as [c|]; [|reflexivity].
  cbn beta iota zeta delta [set_allProcesses set_ioSimulationCounter
    allProcesses_ ioSimulationCounter_].
  assert (g <$> alter (execute (timeQuantumMs_ s)) c (allProcesses_ s)
          = g <$> allProcesses_ s) as He
    by (apply fmap_alter_same; apply proj_execute).
  destruct (_ && _ && _).
  - simpl. rewrite fmap_alter_same by apply g_state. exact He.
  - destruct (bool_decide _); exact He.
Qed.

Lemma proj_check_blocked q blocked st queue :
  g <$> (check_blocked q blocked st queue).1.1 = g <$> st.
Proof.
  revert st queue. induction blocked as [|[proc io] rest IH]; intros st queue.
  - reflexivity.
  - simpl. destruct (io - q <=? 0).
    + rewrite IH. apply fmap_alter_same. apply g_state.
    + specialize (IH st queue).
      destruct (check_blocked q rest st queue) as [[st' q'] rest']. exact IH.
Qed.

Lemma proj_applyAging_drain fuel f st queue temp st' queue' temp' :
  applyAging_drain fuel f st queue temp = Some (st', queue', temp') ->
  g <$> st' = g <$> st.
Proof.
  revert st queue temp.
  induction fuel as [|fuel IH]; intros st queue temp; simpl.
  - intros [= <- <- <-]. reflexivity.
  - destruct (pq_top queue) as [proc|]; [|intros [= <- <- <-]; reflexivity].
    unfold applyAging. destruct (division_traps f _); [discriminate|].
    intros Hrec. rewrite (IH _ _ _ Hrec).
    apply fmap_insert_same. apply g_effective.
Qed.

Lemma proj_schedulerLoop_body rnd t s s' :
  schedulerLoop_body rnd t s = Some s' ->
  g <$> allProcesses_ s' = g <$> allProcesses_ s.
Proof.
  unfold schedulerLoop_body. destruct (paused_ s); [intros [= <-]; reflexivity|].
  rewrite <- (proj_selectNextProcess s).
  rewrite <- (proj_run_current rnd (selectNextProcess s)).
  set (s2 := run_current rnd (selectNextProcess s)).
  rewrite <- (proj_check_blocked (timeQuantumMs_ s2) (blockedProcesses_ s2)
                (allProcesses_ s2) (readyQueue_ s2)).
  destruct (check_blocked _ _ _ _) as [[st q] blocked].
  unfold Scheduler_applyAging, ReadyQueue_applyAging.
  cbn [allProcesses_ set_blockedProcesses set_readyQueue set_allProcesses
       readyQueue_ agingFactorSec_].
  destruct (applyAging_drain _ _ _ _ _) as [[[st' q'] temp]|] eqn:Hd;
    [|discriminate].
  intros [= <-]. rewrite proj_updateStats. simpl.
  eapply proj_applyAging_drain. exact Hd.
Qed.

(** Every step leaves the projection of the existing PCBs as it is; only
    [createProcess] adds a PCB, at the tail, and takes a pid. *)
Lemma proj_do_event e s s' :
  do_event e s = Some s' ->
  (g <$> allProcesses_ s' = g <$> allProcesses_ s /\ nextPid s' = nextPid s) \/
  (exists name priority burstTime arrival,
     g <$> allProcesses_ s' =
       (g <$> allProcesses_ s) ++
         [g (set_arrivalTime arrival
               (new_Process (nextPid s) name priority burstTime))] /\
     nextPid s' = nextPid s + 1).
Proof.
  destruct e as [nm pr b a t|pid t|pid t|pid t|ms|sec| | | |rnd t]; simpl;
    intros Hev; try (injection Hev as <-).
  - right. exists nm, pr, b, a. split; [|reflexivity].
    unfold createProcess. cbn [snd]. rewrite proj_updateStats. simpl.
    rewrite fmap_alter_same by apply g_state. rewrite fmap_app. reflexivity.
  - left. split; [|unfold terminateProcess; destruct (find_index _ _); reflexivity].
    unfold terminateProcess. rewrite proj_updateStats.
    destruct (find_index _ _); [|reflexivity]. simpl.
    apply fmap_alter_same. apply g_state.
  - left. split; [|unfold blockProcess; destruct (find_index _ _); reflexivity].
    unfold blockProcess. rewrite proj_updateStats.
    destruct (find_index _ _); [|reflexivity]. simpl.
    apply fmap_alter_same. apply g_state.
  - left. split; [|unfold unblockProcess; destruct (find_index _ _); reflexivity].
    unfold unblockProcess. rewrite proj_updateStats.
    destruct (find_index _ _); [|reflexivity]. simpl.
    apply fmap_alter_same. apply g_state.
  - left. split; reflexivity.
  - left. split; reflexivity.
  - left. unfold start. destruct (running_ s); split; reflexivity.
  - left. split; reflexivity.
  - left. split; reflexivity.
  - left. destruct (running_ s); [|injection Hev as <-; split; reflexivity].
    split; [eapply proj_schedulerLoop_body; exact Hev|].
    revert Hev. unfold schedulerLoop_body.
    destruct (paused_ s); [intros [= <-]; reflexivity|].
    destruct (check_blocked _ _ _ _) as [[st q] blocked].
    unfold Scheduler_applyAging.
    destruct (ReadyQueue_applyAging _ _ _) as [[st' q']|]; [|discriminate].
    intros [= <-]. simpl.
    unfold run_current, selectNextProcess.
    destruct (_ && _); [destruct (dequeue _ _) as [[c|] q0]|]; simpl;
      repeat match goal with
             | |- context [match ?x with _ => _ end] => destruct x; simpl
             end; reflexivity.
Qed.

End Projection.

Lemma pids_do_event e s s' :
  do_event e s = Some s' ->
  (pid_ <$> allProcesses_ s' = pid_ <$> allProcesses_ s /\
   nextPid s' = nextPid s) \/
  (pid_ <$> allProcesses_ s' = (pid_ <$> allProcesses_ s) ++ [nextPid s] /\
   nextPid s' = nextPid s + 1).
Proof.
  intros Hev.
  destruct (proj_do_event pid_ ltac:(reflexivity) ltac:(reflexivity)
              ltac:(reflexivity) ltac:(reflexivity) ltac:(reflexivity)
              e s s' Hev)
    as [[Hg Hn]|(nm & pr & b & a & Hg & Hn)].
  - left. split; assumption.
  - right. split; assumption.
Qed.

(** Along a run the list of pids grows at its tail by the values of the
    counter, one after the other. *)
Lemma pids_run es s0 s :
  run es s0 = Some s ->
  exists k,
    length (allProcesses_ s) = (length (allProcesses_ s0) + k)%nat /\
    pid_ <$> allProcesses_ s =
      (pid_ <$> allProcesses_ s0)
      ++ ((fun i => nextPid s0 + Z.of_nat i) <$> seq 0 k) /\
    nextPid s = nextPid s0 + Z.of_nat k.
Proof.
  revert s0. induction es as [|e es IH]; intros s0; simpl.
  - intros [= <-]. exists 0%nat. simpl. rewrite app_nil_r.
    split; [lia|]. split; [reflexivity|lia].
  - destruct (do_event e s0) as [s1|] eqn:He1; [|discriminate].
    intros Hrun. destruct (IH _ Hrun) as (k & Hlen & Hpids & Hnext).
    destruct (pids_do_event _ _ _ He1) as [[Hg Hn]|[Hg Hn]].
    + exists k.
      assert (length (allProcesses_ s1) = length (allProcesses_ s0)) as Hl.
      { rewrite <- (length_fmap pid_), Hg, length_fmap. reflexivity. }
      rewrite Hlen, Hl, Hpids, Hg, Hnext, Hn. repeat split.
    + exists (S k).
      assert (length (allProcesses_ s1) = S (length (allProcesses_ s0))) as Hl.
      { rewrite <- (length_fmap pid_), Hg, length_app, length_fmap. simpl. lia. }
      rewrite Hlen, Hl, Hpids, Hg, Hnext, Hn.
      split; [lia|]. split; [|lia].
      rewrite <- app_assoc. f_equal. cbn [seq fmap list_fmap app].
      rewrite Z.add_0_r. f_equal.
      rewrite <- fmap_S_seq, <- list_fmap_compose.
      apply list_fmap_ext. intros i x _. simpl. lia.
Qed.

(** *** The running slot *)

Lemma slot_inv_insert sts cur i c :
  c <> NEW -> c <> RUNNING -> slot_inv sts cur -> slot_inv (<[i := c]> sts) cur.
Proof.
  intros Hn Hr [Hall Hrun]. split; [apply Forall_insert; assumption|].
  intros k Hk. destruct (decide (k = i)) as [->|Hne].
  - destruct (decide (i < length sts)%nat) as [Hlt|Hge].
    + rewrite list_lookup_insert_eq in Hk by exact Hlt. congruence.
    + rewrite lookup_ge_None_2 in Hk by (rewrite length_insert; lia).
      discriminate.
  - rewrite list_lookup_insert_ne in Hk by auto. apply Hrun. exact Hk.
Qed.

Lemma slot_inv_release sts c :
  sts !! c <> Some RUNNING -> slot_inv sts (Some c) -> slot_inv sts None.
Proof.
  intros Hc [Hall Hrun]. split; [exact Hall|]. intros k Hk.
  pose proof (Hrun k Hk) as [= ->]. contradiction.
Qed.

Lemma slot_inv_dispatch sts cur c :
  match cur with Some c0 => sts !! c0 <> Some RUNNING | None => True end ->
  slot_inv sts cur -> slot_inv (<[c := RUNNING]> sts) (Some c).
Proof.
  intros Hvac [Hall Hrun]. split; [apply Forall_insert; [exact Hall|discriminate]|].
  intros k Hk. destruct (decide (k = c)) as [->|Hne]; [reflexivity|].
  rewrite list_lookup_insert_ne in Hk by auto.
  pose proof (Hrun k Hk) as Hcur. rewrite Hcur in Hvac. contradiction.
Qed.

Lemma states_alter_setState st j (l : list Process) :
  state_ <$> alter (setState st) j l = <[j := st]> (state_ <$> l).
Proof. apply map_state_alter_setState. Qed.

Lemma states_alter_execute q c (l : list Process) :
  state_ <$> alter (execute q) c l = state_ <$> l \/
  state_ <$> alter (execute q) c l = <[c := TERMINATED]> (state_ <$> l).
Proof.
  destruct (l !! c) as [p|] eqn:Hp.
  - destruct (decide (state_ (execute q p) = state_ p)) as [Heq|Hne].
    + left. apply list_eq. intros k. rewrite !list_lookup_fmap.
      destruct (decide (k = c)) as [->|Hk].
      * rewrite list_lookup_alter_eq, Hp. simpl. rewrite Heq. reflexivity.
      * rewrite list_lookup_alter_ne by auto. reflexivity.
    + right. apply list_eq. intros k.
      destruct (decide (k = c)) as [->|Hk].
      * rewrite list_lookup_insert_eq
          by (rewrite length_fmap; apply lookup_lt_Some in Hp; exact Hp).
        rewrite list_lookup_fmap, list_lookup_alter_eq, Hp. simpl. f_equal.
        revert Hne. unfold execute. destruct (bool_decide _); [congruence|].
        cbn zeta. destruct (_ =? 0); [reflexivity|]. simpl. congruence.
      * rewrite list_lookup_insert_ne by auto.
        rewrite !list_lookup_fmap, list_lookup_alter_ne by auto. reflexivity.
  - left. f_equal. apply list_eq. intros k.
    destruct (decide (k = c)) as [->|Hk].
    + rewrite list_lookup_alter_eq, Hp. reflexivity.
    + rewrite list_lookup_alter_ne by auto. reflexivity.
Qed.

Lemma states_updateStats t s : states (updateStats t s) = states s.
Proof. apply map_state_updateStats. Qed.

Lemma lookup_states_total (l : list Process) c :
  (state_ <$> l) !! c = Some RUNNING -> state_ (l !!! c) = RUNNING.
Proof.
  rewrite list_lookup_fmap. destruct (l !! c) as [p|] eqn:Hp; [|discriminate].
  intros [= Hst]. rewrite (list_lookup_total_correct _ _ _ Hp). exact Hst.
Qed.

Lemma slot_inv_selectNextProcess s :
  slot_inv (states s) (currentProcess_ s) ->
  slot_inv (states (selectNextProcess s)) (currentProcess_ (selectNextProcess s)).
Proof.
  intros Hs. unfold selectNextProcess.
  destruct (match currentProcess_ s with Some _ => _ | None => _ end) eqn:Hvac;
    [|exact Hs].
  destruct (negb _); [|exact Hs]. cbn [andb].
  destruct (dequeue _ _) as [[c|] q]; [|exact Hs].
  unfold states. simpl. rewrite states_alter_setState.
  apply (slot_inv_dispatch _ (currentProcess_ s)); [|exact Hs].
  destruct (currentProcess_ s) as [c0|]; [|exact I].
  apply bool_decide_eq_true in Hvac. intros Hrun.
  apply lookup_states_total in Hrun. congruence.
Qed.

Lemma slot_inv_run_current rnd s :
  slot_inv (states s) (currentProcess_ s) ->
  slot_inv (states (run_current rnd s)) (currentProcess_ (run_current rnd s)).
Proof.
  intros Hs. unfold run_current.
  destruct (currentProcess_ s) as [c|] eqn:Hcur; [|rewrite Hcur; exact Hs].
  cbn beta iota zeta delta [set_allProcesses set_ioSimulationCounter
    allProcesses_ ioSimulationCounter_].
  set (l1 := alter (execute (timeQuantumMs_ s)) c (allProcesses_ s)).
  assert (slot_inv (state_ <$> l1) (Some c)) as H1.
  { destruct (states_alter_execute (timeQuantumMs_ s) c (allProcesses_ s))
      as [Heq|Heq]; unfold l1; rewrite Heq; [exact Hs|].
    apply slot_inv_insert; [discriminate|discriminate|exact Hs]. }
  destruct (_ && _ && _).
  - unfold states. simpl. rewrite states_alter_setState.
    apply (slot_inv_release _ c).
    + destruct (decide (c < length (state_ <$> l1))%nat) as [Hlt|Hge].
      * rewrite list_lookup_insert_eq by exact Hlt. discriminate.
      * rewrite lookup_ge_None_2 by (rewrite length_insert; lia). discriminate.
    + apply slot_inv_insert; [discriminate|discriminate|exact H1].
  - destruct (bool_decide _) eqn:Ht.
    + apply bool_decide_eq_true in Ht. unfold states. simpl.
      apply (slot_inv_release _ c); [|exact H1].
      intros Hrun. apply lookup_states_total in Hrun. congruence.
    + unfold states. simpl. rewrite Hcur. exact H1.
Qed.

Lemma slot_inv_check_blocked q blocked st queue cur :
  slot_inv (state_ <$> st) cur ->
  slot_inv (state_ <$> (check_blocked q blocked st queue).1.1) cur.
Proof.
  revert st queue. induction blocked as [|[proc io] rest IH]; intros st queue Hst.
  - exact Hst.
  - simpl. destruct (io - q <=? 0).
    + apply IH. rewrite states_alter_setState.
      apply slot_inv_insert; [discriminate|discriminate|exact Hst].
    + specialize (IH st queue Hst).
      destruct (check_blocked q rest st queue) as [[st' q'] rest']. exact IH.
Qed.

Lemma slot_inv_schedulerLoop_body rnd t s s' :
  schedulerLoop_body rnd t s = Some s' ->
  slot_inv (states s) (currentProcess_ s) ->
  slot_inv (states s') (currentProcess_ s').
Proof.
  unfold schedulerLoop_body. destruct (paused_ s); [intros [= <-]; exact id|].
  intros Hbody Hs.
  pose proof (slot_inv_run_current rnd _ (slot_inv_selectNextProcess _ Hs)) as H2.
  set (s2 := run_current rnd (selectNextProcess s)) in *.
  pose proof (slot_inv_check_blocked (timeQuantumMs_ s2) (blockedProcesses_ s2)
                _ (readyQueue_ s2) _ H2) as Hcb.
  destruct (check_blocked _ _ _ _) as [[st q] blocked].
  revert Hbody. unfold Scheduler_applyAging, ReadyQueue_applyAging.
  cbn [allProcesses_ set_blockedProcesses set_readyQueue set_allProcesses
       readyQueue_ agingFactorSec_].
  destruct (applyAging_drain _ _ _ _ _) as [[[st' q'] temp]|] eqn:Hd;
    [|discriminate].
  intros [= <-]. rewrite states_updateStats. unfold states. simpl.
  rewrite (proj_applyAging_drain state_ ltac:(reflexivity) _ _ _ _ _ _ _ _ Hd).
  exact Hcb.
Qed.

Lemma slot_inv_app sts cur c :
  c <> NEW -> c <> RUNNING -> slot_inv sts cur -> slot_inv (sts ++ [c]) cur.
Proof.
  intros Hn Hr [Hall Hrun]. split.
  - apply Forall_app. split; [exact Hall|]. repeat constructor. exact Hn.
  - intros k Hk. apply Hrun.
    apply lookup_app_Some in Hk as [Hk|[Hge Hk]]; [exact Hk|].
    destruct (k - length sts)%nat; simpl in Hk; [congruence|discriminate].
Qed.

Lemma slot_inv_do_event e s s' :
  do_event e s = Some s' ->
  slot_inv (states s) (currentProcess_ s) ->
  slot_inv (states s') (currentProcess_ s').
Proof.
  destruct e as [nm pr b a t|pid t|pid t|pid t|ms|sec| | | |rnd t]; simpl;
    intros Hev Hs; try (injection Hev as <-); try exact Hs.
  - unfold createProcess. cbn [snd]. rewrite states_updateStats.
    unfold states. simpl. rewrite states_alter_setState, fmap_app.
    rewrite insert_app_r_alt by (rewrite length_fmap; lia).
    rewrite length_fmap, Nat.sub_diag. simpl.
    apply slot_inv_app; [discriminate|discriminate|exact Hs].
  - unfold terminateProcess. rewrite states_updateStats.
    destruct (find_index _ _); [|exact Hs]. unfold states. simpl.
    rewrite states_alter_setState.
    apply slot_inv_insert; [discriminate|discriminate|exact Hs].
  - unfold blockProcess. rewrite states_updateStats.
    destruct (find_index _ _); [|exact Hs]. unfold states. simpl.
    rewrite states_alter_setState.
    apply slot_inv_insert; [discriminate|discriminate|exact Hs].
  - unfold unblockProcess. rewrite states_updateStats.
    destruct (find_index _ _); [|exact Hs]. unfold states. simpl.
    rewrite states_alter_setState.
    apply slot_inv_insert; [discriminate|discriminate|exact Hs].
  - unfold start. destruct (running_ s); exact Hs.
  - destruct (running_ s); [|injection Hev as <-; exact Hs].
    eapply slot_inv_schedulerLoop_body; eauto.
Qed.

Lemma slot_inv_run es s s' :
  run es s = Some s' ->
  slot_inv (states s) (currentProcess_ s) ->
  slot_inv (states s') (currentProcess_ s').
Proof.
  revert s. induction es as [|e es IH]; intros s; simpl.
  - intros [= <-]. exact id.
  - destruct (do_event e s) as [s1|] eqn:He1; [|discriminate].
    intros Hrun Hs. eapply IH; [exact Hrun|].
    eapply slot_inv_do_event; eauto.
Qed.

(** *** The statistics *)

Lemma stats_fresh_updateStats t s : stats_fresh (updateStats t s).
Proof. unfold stats_fresh, updateStats. simpl. repeat split. Qed.

Lemma stats_fresh_do_event e s s' :
  do_event e s = Some s' -> stats_fresh s -> stats_fresh s'.
Proof.
  destruct e as [nm pr b a t|pid t|pid t|pid t|ms|sec| | | |rnd t]; simpl;
    intros Hev Hs; try (injection Hev as <-); try exact Hs;
    try apply stats_fresh_updateStats.
  - unfold start. destruct (running_ s); exact Hs.
  - destruct (running_ s); [|injection Hev as <-; exact Hs].
    revert Hev. unfold schedulerLoop_body.
    destruct (paused_ s); [intros [= <-]; exact Hs|].
    destruct (check_blocked _ _ _ _) as [[st q] blocked].
    destruct (Scheduler_applyAging _); [|discriminate].
    intros [= <-]. apply stats_fresh_updateStats.
Qed.

Lemma stats_fresh_run es s s' :
  run es s = Some s' -> stats_fresh s -> stats_fresh s'.
Proof.
  revert s. induction es as [|e es IH]; intros s; simpl.
  - intros [= <-]. exact id.
  - destruct (do_event e s) as [s1|] eqn:He1; [|discriminate].
    intros Hrun Hs. eapply IH; [exact Hrun|].
    eapply stats_fresh_do_event; eauto.
Qed.

Lemma sim_count_state_positions c (l : list Process) :
  count_state c l = Z.of_nat (length (positions c (state_ <$> l))).
Proof.
  unfold count_state. f_equal. rewrite length_positions.
  induction l as [|p l IH]; [reflexivity|].
  rewrite fmap_cons, !filter_cons.
  destruct (decide (state_ p = c)); simpl; rewrite IH; reflexivity.
Qed.

Lemma slot_inv_counts (l : list Process) cur :
  slot_inv (state_ <$> l) cur ->
  count_state RUNNING l + count_state READY l
    + count_state WAITING l + count_state TERMINATED l = Z.of_nat (length l) /\
  count_state RUNNING l <= 1 /\
  (0 < count_state RUNNING l <->
   exists c, cur = Some c /\ (state_ <$> l) !! c = Some RUNNING).
Proof.
  intros [Hall Hrun]. split; [|split].
  - clear Hrun. unfold count_state.
    induction l as [|p l IH]; [reflexivity|].
    rewrite fmap_cons in Hall. apply Forall_cons in Hall as [Hp Hl].
    specialize (IH Hl). rewrite !filter_cons. simpl length.
    destruct (state_ p) eqn:Hst; try contradiction;
      repeat (destruct (decide _) as [?|?]; try congruence);
      simpl length; lia.
  - rewrite sim_count_state_positions.
    pose proof (NoDup_positions RUNNING (state_ <$> l)) as Hnd.
    destruct (positions RUNNING (state_ <$> l)) as [|a [|b r]] eqn:Hp;
      simpl; try lia.
    exfalso. apply NoDup_cons in Hnd as [Hab _]. apply Hab.
    assert (a ∈ positions RUNNING (state_ <$> l)) as Ha
      by (rewrite Hp; apply list_elem_of_here).
    assert (b ∈ positions RUNNING (state_ <$> l)) as Hb
      by (rewrite Hp; apply list_elem_of_further, list_elem_of_here).
    apply elem_of_positions, Hrun in Ha. apply elem_of_positions, Hrun in Hb.
    assert (a = b) as -> by congruence. apply list_elem_of_here.
  - rewrite sim_count_state_positions. split.
    + destruct (positions RUNNING (state_ <$> l)) as [|a r] eqn:Hp;
        [simpl; lia|]. intros _.
      assert (a ∈ positions RUNNING (state_ <$> l)) as Ha
        by (rewrite Hp; apply list_elem_of_here).
      apply elem_of_positions in Ha. exists a. split; [apply Hrun|]; exact Ha.
    + intros (c & _ & Hc). apply elem_of_positions in Hc.
      destruct (positions RUNNING (state_ <$> l)); [|simpl; lia].
      apply elem_of_nil in Hc. contradiction.
Qed.

(** *** Pause *)

Lemma paused_run es s :
  running_ s = true -> paused_ s = true ->
  Forall start_or_loop es -> run es s = Some s.
Proof.
  intros Hr Hp Hes. induction Hes as [|e es He Hes IH]; [reflexivity|].
  simpl. destruct e; simpl in He; try contradiction; simpl.
  - unfold start. rewrite Hr. exact IH.
  - rewrite Hr. unfold schedulerLoop_body. rewrite Hp. exact IH.
Qed.

(** *** The blocked list *)

Lemma check_blocked_spec q blocked st queue :
  let r := check_blocked q blocked st queue in
  r.1.1 = fold_left (fun st proc => alter (setState READY) proc st)
            (io_complete q blocked) st /\
  r.1.2 ≡ₚ io_complete q blocked ++ queue /\
  r.2 = filter (fun e : nat * Z => 0 < e.2)
          ((fun e : nat * Z => (e.1, e.2 - q)) <$> blocked).
Proof.
  revert st queue. induction blocked as [|[proc io] rest IH]; intros st queue.
  - simpl. repeat split; reflexivity.
  - cbn zeta. simpl check_blocked. unfold io_complete.
    rewrite fmap_cons, !filter_cons. cbn [fst snd].
    destruct (io - q <=? 0) eqn:Hio.
    + apply Z.leb_le in Hio.
      rewrite decide_True by exact Hio. rewrite decide_False by lia.
      destruct (IH (alter (setState READY) proc st)
                  (enqueue (alter (setState READY) proc st) queue proc))
        as (H1 & H2 & H3).
      split; [exact H1|]. split; [|exact H3].
      rewrite H2. unfold enqueue. rewrite pq_push_Permutation.
      simpl. rewrite <- Permutation_middle. reflexivity.
    + apply Z.leb_gt in Hio.
      rewrite decide_False by lia. rewrite decide_True by lia.
      destruct (IH st queue) as (H1 & H2 & H3).
      destruct (check_blocked q rest st queue) as [[st' q'] rest'].
      simpl in *. split; [exact H1|]. split; [exact H2|]. f_equal. exact H3.
Qed.

Lemma io_bounded_check_blocked q blocked st queue :
  0 <= q ->
  Forall (fun e : nat * Z => 0 < e.2 < 300) blocked ->
  Forall (fun e : nat * Z => 0 < e.2 < 300) (check_blocked q blocked st queue).2.
Proof.
  intros Hq Hb. destruct (check_blocked_spec q blocked st queue) as (_ & _ & ->).
  apply Forall_forall. intros e He.
  apply list_elem_of_filter in He as [Hpos He].
  apply list_elem_of_fmap in He as ([p io] & -> & He).
  rewrite Forall_forall in Hb. specialize (Hb _ He). simpl in *. lia.
Qed.

Lemma blocked_selectNextProcess s :
  blockedProcesses_ (selectNextProcess s) = blockedProcesses_ s /\
  timeQuantumMs_ (selectNextProcess s) = timeQuantumMs_ s.
Proof.
  unfold selectNextProcess. destruct (_ && _); [|split; reflexivity].
  destruct (dequeue _ _) as [[c|] q]; split; reflexivity.
Qed.

Lemma io_bounded_run_current rnd s :
  0 <= rnd -> io_bounded s -> io_bounded (run_current rnd s).
Proof.
  intros Hrnd [Hq Hb].
  unfold run_current. destruct (currentProcess_ s) as [c|]; [|split; auto].
  cbn beta iota zeta delta [set_allProcesses set_ioSimulationCounter
    allProcesses_ ioSimulationCounter_].
  destruct (_ && _ && _).
  - split; [exact Hq|]. simpl. apply Forall_app. split; [exact Hb|].
    repeat constructor; simpl.
    + pose proof (Z.rem_nonneg rnd 200 ltac:(lia) Hrnd). lia.
    + pose proof (Z.rem_bound_pos rnd 200 Hrnd ltac:(lia)). lia.
  - destruct (bool_decide _); split; auto.
Qed.

Lemma io_bounded_schedulerLoop_body rnd t s s' :
  0 <= rnd -> schedulerLoop_body rnd t s = Some s' ->
  io_bounded s -> io_bounded s'.
Proof.
  intros Hrnd. unfold schedulerLoop_body.
  destruct (paused_ s); [intros [= <-]; exact id|]. intros Hbody Hs.
  assert (io_bounded (selectNextProcess s)) as H1.
  { destruct (blocked_selectNextProcess s) as [Hb Hq].
    unfold io_bounded. rewrite Hb, Hq. exact Hs. }
  pose proof (io_bounded_run_current rnd _ Hrnd H1) as [Hq2 Hb2].
  set (s2 := run_current rnd (selectNextProcess s)) in *.
  pose proof (io_bounded_check_blocked (timeQuantumMs_ s2) (blockedProcesses_ s2)
                (allProcesses_ s2) (readyQueue_ s2) Hq2 Hb2) as Hcb.
  destruct (check_blocked _ _ _ _) as [[st q] blocked].
  revert Hbody. unfold Scheduler_applyAging.
  destruct (ReadyQueue_applyAging _ _ _) as [[st' q']|]; [|discriminate].
  intros [= <-]. split; [exact Hq2|exact Hcb].
Qed.

Lemma io_bounded_do_event e s s' :
  event_in_range e -> rand_in_range e -> do_event e s = Some s' ->
  io_bounded s -> io_bounded s'.
Proof.
  destruct e as [nm pr b a t|pid t|pid t|pid t|ms|sec| | | |rnd t]; simpl;
    intros Hok Hrnd Hev Hs; try (injection Hev as <-); try exact Hs.
  - unfold terminateProcess. destruct (find_index _ _); exact Hs.
  - unfold blockProcess. destruct (find_index _ _); exact Hs.
  - unfold unblockProcess. destruct (find_index _ _); exact Hs.
  - destruct Hs as [_ Hb]. split; [exact Hok|exact Hb].
  - unfold start. destruct (running_ s); exact Hs.
  - destruct (running_ s); [|injection Hev as <-; exact Hs].
    eapply io_bounded_schedulerLoop_body; eauto.
Qed.

Lemma io_bounded_run es s s' :
  Forall event_in_range es -> Forall rand_in_range es ->
  run es s = Some s' -> io_bounded s -> io_bounded s'.
Proof.
  revert s. induction es as [|e es IH]; intros s Hes Hrs; simpl.
  - intros [= <-]. exact id.
  - inversion Hes as [|? ? He Hes']; subst.
    inversion Hrs as [|? ? Hr Hrs']; subst.
    destruct (do_event e s) as [s1|] eqn:He1; [|discriminate].
    intros Hrun Hs. eapply IH; eauto.
    eapply io_bounded_do_event; eauto.
Qed.

(** *** Iterated slices *)

Lemma execute_terminated q p : state_ p = TERMINATED -> execute q p = p.
Proof. intros Hst. apply execute_not_running. congruence. Qed.

Lemma execute_iter n q p :
  state_ p = RUNNING -> 0 < q -> 0 < remainingTime_ p ->
  let p' := Nat.iter n (execute q) p in
  remainingTime_ p' = Z.max 0 (remainingTime_ p - Z.of_nat n * q) /\
  (state_ p' = TERMINATED <-> remainingTime_ p <= Z.of_nat n * q) /\
  (state_ p' = RUNNING <-> Z.of_nat n * q < remainingTime_ p).
Proof.
  intros Hst Hq Hrem. induction n as [|n IH].
  - simpl. rewrite Hst. split; [lia|]. split; [split; [discriminate|lia]|].
    split; [lia|reflexivity].
  - cbn zeta in *. simpl Nat.iter. destruct IH as (Hr & Ht & Hrun).
    set (pn := Nat.iter n (execute q) p) in *.
    destruct (decide (Z.of_nat n * q < remainingTime_ p)) as [Hlt|Hge].
    + pose proof (proj2 Hrun Hlt) as Hrunning.
      rewrite (execute_running q pn Hrunning). cbn zeta.
      destruct (remainingTime_ _ =? 0) eqn:Hz; simpl in *.
      * apply Z.eqb_eq in Hz. rewrite Hz.
        split; [lia|]. split; [split; [lia|reflexivity]|].
        split; [discriminate|lia].
      * apply Z.eqb_neq in Hz. rewrite Hrunning.
        split; [lia|]. split; [split; [discriminate|lia]|].
        split; [lia|reflexivity].
    + pose proof (proj2 Ht ltac:(lia)) as Hterm.
      rewrite (execute_terminated q pn Hterm). rewrite Hr.
      split; [lia|]. split; [split; [lia|intros _; exact Hterm]|].
      rewrite Hterm. split; [discriminate|lia].
Qed.

(** *** terminateProcess and unblockProcess *)

Lemma terminateProcess_spec pid t s :
  let s' := terminateProcess pid t s in
  states s' =
    match find_index (fun p => pid_ p =? pid) (allProcesses_ s) with
    | Some i => <[i := TERMINATED]> (states s)
    | None => states s
    end /\
  remainingTime_ <$> allProcesses_ s' = remainingTime_ <$> allProcesses_ s /\
  readyQueue_ s' = readyQueue_ s /\
  blockedProcesses_ s' = blockedProcesses_ s /\
  currentProcess_ s' = currentProcess_ s.
Proof.
  cbn zeta. unfold terminateProcess. rewrite states_updateStats.
  rewrite (proj_updateStats remainingTime_ ltac:(reflexivity) ltac:(reflexivity)).
  destruct (find_index _ _) as [i|]; simpl; [|repeat split].
  unfold states. simpl. rewrite states_alter_setState.
  rewrite fmap_alter_same by reflexivity. repeat split.
Qed.

Lemma unblockProcess_spec pid t s :
  let s' := unblockProcess pid t s in
  match find_index (fun p => (pid_ p =? pid) && bool_decide (state_ p = WAITING))
          (allProcesses_ s) with
  | Some i =>
      states s' = <[i := READY]> (states s) /\
      readyQueue_ s' ≡ₚ i :: readyQueue_ s
  | None => states s' = states s /\ readyQueue_ s' = readyQueue_ s
  end /\
  blockedProcesses_ s' = blockedProcesses_ s /\
  currentProcess_ s' = currentProcess_ s.
Proof.
  cbn zeta. unfold unblockProcess. rewrite states_updateStats.
  destruct (find_index _ _) as [i|]; simpl; [|repeat split].
  unfold states. simpl. rewrite states_alter_setState.
  repeat split. apply pq_push_Permutation.
Qed.

(** *** The heap keeps its members *)

Lemma length_push_heap_loop st fuel v holeIndex topIndex value :
  length (push_heap_loop st fuel v holeIndex topIndex value) = length v.
Proof.
  revert v holeIndex. induction fuel as [|fuel IH]; intros v hole; simpl;
    [apply length_insert|].
  destruct (_ && _); [|apply length_insert].
  rewrite IH. apply length_insert.
Qed.

Lemma div2_le (n : nat) : (n / 2 <= n)%nat.
Proof. apply Nat.Div0.div_le_upper_bound. lia. Qed.

Lemma div2_bounds (n : nat) : (2 * (n / 2) <= n < 2 * (n / 2) + 2)%nat.
Proof.
  pose proof (Nat.div_mod_eq n 2) as H1.
  pose proof (Nat.mod_upper_bound n 2 ltac:(lia)) as H2. lia.
Qed.

(** The sift-up only writes at the hole and above it. *)
Lemma push_heap_loop_above st fuel v holeIndex topIndex value k :
  (holeIndex < k)%nat ->
  push_heap_loop st fuel v holeIndex topIndex value !! k = v !! k.
Proof.
  revert v holeIndex. induction fuel as [|fuel IH]; intros v hole Hk; simpl.
  - apply list_lookup_insert_ne. lia.
  - destruct (_ && _); [|apply list_lookup_insert_ne; lia].
    assert ((hole - 1) / 2 < k)%nat as Hp
      by (pose proof (div2_le (hole - 1)); lia).
    rewrite IH by exact Hp. apply list_lookup_insert_ne. lia.
Qed.

Lemma push_heap_loop_S st fuel v holeIndex topIndex value :
  push_heap_loop st (S fuel) v holeIndex topIndex value =
    if (topIndex <? holeIndex)%nat
       && ProcessComparator st (v !!! ((holeIndex - 1) / 2)%nat) value
    then push_heap_loop st fuel
           (<[holeIndex := v !!! ((holeIndex - 1) / 2)%nat]> v)
           ((holeIndex - 1) / 2)%nat topIndex value
    else <[holeIndex := value]> v.
Proof. reflexivity. Qed.

Lemma adjust_heap_loop_S st fuel v holeIndex secondChild len :
  adjust_heap_loop st (S fuel) v holeIndex secondChild len =
    if (secondChild <? (len - 1) / 2)%nat then
      let sc := (2 * (secondChild + 1))%nat in
      let sc := if ProcessComparator st (v !!! sc) (v !!! (sc - 1)%nat)
                then (sc - 1)%nat else sc in
      adjust_heap_loop st fuel (<[holeIndex := v !!! sc]> v) sc sc len
    else (v, holeIndex, secondChild).
Proof. reflexivity. Qed.

(** The first loop of [__adjust_heap]: the list with its hole filled by
    any value is a permutation of what it was, and no position from [len]
    on is written. *)
Lemma adjust_heap_loop_members st fuel v hole len :
  (hole < len <= length v)%nat ->
  let r := adjust_heap_loop st fuel v hole hole len in
  r.1.2 = r.2 /\ (r.1.2 < len)%nat /\ length r.1.1 = length v /\
  (forall x, <[r.1.2 := x]> r.1.1 ≡ₚ <[hole := x]> v) /\
  (forall k, (len <= k)%nat -> r.1.1 !! k = v !! k).
Proof.
  revert v hole. induction fuel as [|fuel IH]; intros v hole Hhole; cbn zeta.
  - simpl. split; [reflexivity|]. split; [lia|]. split; [reflexivity|].
    split; intros; reflexivity.
  - rewrite adjust_heap_loop_S. destruct (hole <? (len - 1) / 2)%nat eqn:Hcond.
    2:{ simpl. split; [reflexivity|]. split; [lia|]. split; [reflexivity|].
        split; intros; reflexivity. }
    cbn zeta.
    apply Nat.ltb_lt in Hcond.
    pose proof (div2_bounds (len - 1)) as Hdiv.
    set (sc := if ProcessComparator st (v !!! (2 * (hole + 1))%nat)
                    (v !!! (2 * (hole + 1) - 1)%nat)
               then (2 * (hole + 1) - 1)%nat else (2 * (hole + 1))%nat).
    assert (hole < sc < len)%nat as Hsc.
    { unfold sc. destruct (ProcessComparator _ _ _); lia. }
    specialize (IH (<[hole := v !!! sc]> v) sc).
    rewrite length_insert in IH. specialize (IH ltac:(lia)). cbn zeta in IH.
    destruct IH as (H1 & H2 & H3 & H4 & H5).
    split; [exact H1|]. split; [exact H2|]. split; [exact H3|]. split.
    + intros x. rewrite H4. apply insert_move_Permutation; [|lia].
      apply list_lookup_lookup_total_lt. lia.
    + intros k Hk. rewrite H5 by exact Hk. apply list_lookup_insert_ne. lia.
Qed.

Lemma adjust_heap_members st v len value :
  (0 < len <= length v)%nat ->
  adjust_heap st v 0 len value ≡ₚ <[0%nat := value]> v /\
  length (adjust_heap st v 0 len value) = length v /\
  (forall k, (len <= k)%nat -> adjust_heap st v 0 len value !! k = v !! k).
Proof.
  intros Hlen. unfold adjust_heap.
  pose proof (adjust_heap_loop_members st len v 0 len ltac:(lia)) as Hloop.
  cbn zeta in Hloop.
  destruct (adjust_heap_loop st len v 0 0 len) as [[v1 hole1] sc1].
  simpl in Hloop. destruct Hloop as (Hsc & Hh & Hl1 & Hperm & Hk).
  destruct (Nat.even len && (sc1 =? (len - 2) / 2)%nat) eqn:Hcond.
  - apply andb_true_iff in Hcond as [Heven Heq].
    apply Nat.eqb_eq in Heq. apply Nat.even_spec in Heven as [m Hm].
    pose proof (div2_bounds (len - 2)) as Hdiv.
    assert (2 * (sc1 + 1) - 1 < len)%nat as Hc by lia.
    assert (hole1 < 2 * (sc1 + 1) - 1)%nat as Hlt by lia.
    split; [|split].
    + etrans; [apply push_heap_loop_Permutation; rewrite length_insert; lia|].
      etrans; [|apply Hperm].
      apply insert_move_Permutation; [|lia].
      apply list_lookup_lookup_total_lt. lia.
    + rewrite length_push_heap_loop, length_insert. exact Hl1.
    + intros k Hge. rewrite push_heap_loop_above by lia.
      rewrite list_lookup_insert_ne by lia. apply Hk. exact Hge.
  - split; [|split].
    + etrans; [apply push_heap_loop_Permutation; lia|]. apply Hperm.
    + rewrite length_push_heap_loop. exact Hl1.
    + intros k Hge. rewrite push_heap_loop_above by lia. apply Hk. exact Hge.
Qed.

Lemma length_pq_pop st v : length (pq_pop st v) = (length v - 1)%nat.
Proof.
  unfold pq_pop. destruct (1 <? length v)%nat eqn:Hlen.
  - apply Nat.ltb_lt in Hlen. rewrite length_take.
    destruct (adjust_heap_members st (<[(length v - 1)%nat := v !!! 0%nat]> v)
                (length v - 1) (v !!! (length v - 1)%nat)) as (_ & Hl & _).
    { rewrite length_insert. lia. }
    rewrite Hl, length_insert. lia.
  - rewrite length_take. lia.
Qed.

(** [pop] removes the front and keeps every other member. *)
Lemma pq_pop_Permutation st v x :
  v !! 0%nat = Some x -> x :: pq_pop st v ≡ₚ v.
Proof.
  intros Hx. unfold pq_pop. destruct (1 <? length v)%nat eqn:Hlen.
  - apply Nat.ltb_lt in Hlen.
    set (last := (length v - 1)%nat).
    set (v' := <[last := v !!! 0%nat]> v).
    destruct (adjust_heap_members st v' last (v !!! last)) as (Hperm & Hl & Hk).
    { unfold v'. rewrite length_insert. unfold last. lia. }
    set (R := adjust_heap st v' 0 last (v !!! last)) in *.
    assert (R !! last = Some x) as Hlast.
    { rewrite Hk by lia. unfold v'. rewrite list_lookup_insert_eq by (unfold last; lia).
      rewrite (list_lookup_total_correct _ _ _ Hx). reflexivity. }
    assert (R = take last R ++ [x]) as HR.
    { rewrite <- (take_drop last R) at 1. f_equal.
      apply list_eq. intros [|k].
      - rewrite lookup_drop, Nat.add_0_r. exact Hlast.
      - rewrite lookup_drop. simpl. apply lookup_ge_None_2.
        rewrite Hl. unfold v'. rewrite length_insert. unfold last. lia. }
    rewrite Permutation_cons_append, <- HR, Hperm.
    unfold v'. etrans.
    + apply insert_move_Permutation; [|unfold last; lia].
      rewrite (list_lookup_total_correct _ _ _ Hx). exact Hx.
    + rewrite list_insert_id; [reflexivity|].
      apply list_lookup_lookup_total_lt. unfold last. lia.
  - apply Nat.ltb_ge in Hlen. destruct v as [|y [|z v]]; simpl in *;
      [discriminate| |lia]. injection Hx as ->. reflexivity.
Qed.

Lemma ProcessComparator_key st a b :
  ProcessComparator st a b = (key st b <? key st a).
Proof. reflexivity. Qed.

Lemma parent_lt (i : nat) : (0 < i)%nat -> ((i - 1) / 2 < i)%nat.
Proof. intros Hi. pose proof (div2_le (i - 1)). lia. Qed.

Lemma push_heap_loop_heap st fuel v len h value :
  push_inv st v len h value -> (h <= fuel)%nat ->
  is_heap st (push_heap_loop st fuel v h 0 value) len.
Proof.
  revert v h. induction fuel as [|fuel IH]; intros v h Hinv Hfuel.
  - assert (h = 0)%nat as -> by lia. destruct Hinv as (Hh & H1 & H2 & _).
    simpl. intros i Hi. pose proof (parent_lt i ltac:(lia)) as Hp.
    rewrite (list_lookup_total_insert_ne v 0 i) by lia.
    destruct (decide ((i - 1) / 2 = 0)%nat) as [Hz|Hnz].
    + rewrite Hz, list_lookup_total_insert_eq by lia. apply H2; [lia|exact Hz].
    + rewrite list_lookup_total_insert_ne by lia. apply H1; [lia|lia|exact Hnz].
  - rewrite push_heap_loop_S. destruct Hinv as (Hh & H1 & H2 & H3).
    destruct ((0 <? h)%nat && _) eqn:Hcond.
    + apply andb_true_iff in Hcond as [Hpos Hcmp].
      apply Nat.ltb_lt in Hpos. rewrite ProcessComparator_key in Hcmp.
      apply Z.ltb_lt in Hcmp.
      pose proof (parent_lt h Hpos) as Hp.
      apply IH; [|lia]. split; [rewrite length_insert; lia|]. split; [|split].
      * intros i Hi Hne Hpne.
        destruct (decide (i = h)) as [->|Hih]; [contradiction|].
        rewrite (list_lookup_total_insert_ne v h i) by auto.
        destruct (decide ((i - 1) / 2 = h)%nat) as [Hpar|Hpar].
        -- rewrite Hpar, list_lookup_total_insert_eq by lia.
           apply H3; [exact Hi|exact Hpar|exact Hpos].
        -- rewrite list_lookup_total_insert_ne by auto.
           apply H1; [exact Hi|exact Hih|exact Hpar].
      * intros c Hc Hpar. destruct (decide (c = h)) as [->|Hch].
        -- rewrite list_lookup_total_insert_eq by lia. lia.
        -- rewrite list_lookup_total_insert_ne by auto.
           pose proof (H1 c Hc Hch ltac:(lia)) as Hle.
           rewrite Hpar in Hle. lia.
      * intros c Hc Hpar Hpp.
        pose proof (parent_lt ((h - 1) / 2) Hpp) as Hpp'.
        rewrite (list_lookup_total_insert_ne v h ((_ - 1) / 2)) by lia.
        pose proof (H1 ((h - 1) / 2)%nat ltac:(lia) ltac:(lia) ltac:(lia))
          as Hgp.
        destruct (decide (c = h)) as [->|Hch].
        -- rewrite list_lookup_total_insert_eq by lia. exact Hgp.
        -- rewrite list_lookup_total_insert_ne by auto.
           pose proof (H1 c Hc Hch ltac:(lia)) as Hle.
           rewrite Hpar in Hle. lia.
    + intros i Hi. pose proof (parent_lt i ltac:(lia)) as Hp.
      destruct (decide (i = h)) as [->|Hih].
      * rewrite list_lookup_total_insert_eq by lia.
        rewrite list_lookup_total_insert_ne by lia.
        apply andb_false_iff in Hcond as [Hz|Hcmp].
        -- apply Nat.ltb_ge in Hz. lia.
        -- rewrite ProcessComparator_key in Hcmp. apply Z.ltb_ge in Hcmp.
           exact Hcmp.
      * rewrite (list_lookup_total_insert_ne v h i) by auto.
        destruct (decide ((i - 1) / 2 = h)%nat) as [Hpar|Hpar].
        -- rewrite Hpar, list_lookup_total_insert_eq by lia.
           apply H2; [exact Hi|exact Hpar].
        -- rewrite list_lookup_total_insert_ne by auto.
           apply H1; [exact Hi|exact Hih|exact Hpar].
Qed.

(** [push] keeps the heap. *)
Lemma pq_push_heap st v x :
  is_heap st v (length v) -> is_heap st (pq_push st v x) (S (length v)).
Proof.
  intros Hheap. unfold pq_push. rewrite length_app. simpl length.
  replace (length v + 1 - 1)%nat with (length v) by lia.
  replace (length v + 1)%nat with (S (length v)) by lia.
  apply push_heap_loop_heap; [|lia].
  split; [rewrite length_app; simpl; lia|]. split; [|split].
  - intros i Hi Hne Hpne. pose proof (parent_lt i ltac:(lia)) as Hp.
    rewrite !lookup_total_app_l by lia. apply Hheap. lia.
  - intros c Hc Hpar. pose proof (div2_bounds (c - 1)). lia.
  - intros c Hc Hpar. pose proof (div2_bounds (c - 1)). lia.
Qed.

(** One step of the sift-down: the child [c] with the lowest key among the
    children of the hole moves up. *)
Lemma down_inv_step st v len h c :
  down_inv st v len h ->
  (0 < c < len)%nat -> ((c - 1) / 2)%nat = h ->
  (forall s, (0 < s < len)%nat -> ((s - 1) / 2)%nat = h ->
             key st (v !!! c) <= key st (v !!! s)) ->
  down_inv st (<[h := v !!! c]> v) len c.
Proof.
  intros (Hh & H1 & H3) Hc Hpar Hmin.
  pose proof (parent_lt c ltac:(lia)) as Hlt. rewrite Hpar in Hlt.
  split; [rewrite length_insert; lia|]. split.
  - intros i Hi Hne Hpne. pose proof (parent_lt i ltac:(lia)) as Hp.
    destruct (decide (i = h)) as [->|Hih].
    + rewrite list_lookup_total_insert_eq by lia.
      rewrite list_lookup_total_insert_ne by lia.
      apply H3; [exact Hc|exact Hpar|lia].
    + rewrite (list_lookup_total_insert_ne v h i) by auto.
      destruct (decide ((i - 1) / 2 = h)%nat) as [Hip|Hip].
      * rewrite Hip, list_lookup_total_insert_eq by lia.
        apply Hmin; [exact Hi|exact Hip].
      * rewrite list_lookup_total_insert_ne by auto.
        apply H1; [exact Hi|exact Hih|exact Hip].
  - intros s Hs Hsp _. rewrite Hpar.
    rewrite list_lookup_total_insert_eq by lia.
    pose proof (parent_lt s ltac:(lia)) as Hp.
    rewrite list_lookup_total_insert_ne by lia.
    pose proof (H1 s Hs ltac:(lia) ltac:(lia)) as Hle.
    rewrite Hsp in Hle. exact Hle.
Qed.

Lemma adjust_heap_loop_inv st fuel v len h :
  down_inv st v len h -> (len <= fuel + h)%nat ->
  let r := adjust_heap_loop st fuel v h h len in
  down_inv st r.1.1 len r.1.2 /\ r.2 = r.1.2 /\
  ((len - 1) / 2 <= r.1.2)%nat.
Proof.
  revert v h. induction fuel as [|fuel IH]; intros v h Hinv Hfuel; cbn zeta.
  - simpl. pose proof (div2_le (len - 1)). pose proof Hinv as (Hh & _).
    split; [exact Hinv|]. split; [reflexivity|lia].
  - rewrite adjust_heap_loop_S.
    destruct (h <? (len - 1) / 2)%nat eqn:Hcond.
    2:{ apply Nat.ltb_ge in Hcond. simpl.
        split; [exact Hinv|]. split; [reflexivity|exact Hcond]. }
    apply Nat.ltb_lt in Hcond. cbn zeta.
    pose proof (div2_bounds (len - 1)) as Hdiv.
    set (c2 := (2 * (h + 1))%nat).
    assert (c2 < len)%nat as Hc2 by (unfold c2; lia).
    assert (forall s, (0 < s)%nat -> ((s - 1) / 2)%nat = h ->
                      s = (c2 - 1)%nat \/ s = c2) as Hchildren.
    { intros s Hs Hp. pose proof (div2_bounds (s - 1)). unfold c2. lia. }
    assert (((c2 - 1 - 1) / 2)%nat = h /\ ((c2 - 1) / 2)%nat = h) as [Hp1 Hp2].
    { pose proof (div2_bounds (c2 - 1 - 1)). pose proof (div2_bounds (c2 - 1)).
      unfold c2 in *. lia. }
    rewrite ProcessComparator_key.
    destruct (key st (v !!! (c2 - 1)%nat) <? key st (v !!! c2)) eqn:Hcmp.
    + apply Z.ltb_lt in Hcmp.
      apply IH; [|unfold c2; lia].
      apply down_inv_step; [exact Hinv|unfold c2; lia|exact Hp1|].
      intros s Hs Hsp. destruct (Hchildren s ltac:(lia) Hsp) as [->| ->]; lia.
    + apply Z.ltb_ge in Hcmp.
      apply IH; [|unfold c2; lia].
      apply down_inv_step; [exact Hinv|unfold c2; lia|exact Hp2|].
      intros s Hs Hsp. destruct (Hchildren s ltac:(lia) Hsp) as [->| ->]; lia.
Qed.

(** [__adjust_heap] from the top: the hole goes down to a leaf, the value
    comes up from there. *)
Lemma adjust_heap_heap st v len value :
  down_inv st v len 0 ->
  is_heap st (adjust_heap st v 0 len value) len.
Proof.
  intros Hinv. unfold adjust_heap.
  pose proof (adjust_heap_loop_inv st len v len 0 Hinv ltac:(lia)) as Hloop.
  cbn zeta in Hloop.
  destruct (adjust_heap_loop st len v 0 0 len) as [[v1 hole1] sc1].
  cbn [fst snd] in Hloop. destruct Hloop as (Hdown & -> & Hleaf).
  pose proof (div2_bounds (len - 1)) as Hdiv1.
  pose proof (div2_bounds (len - 2)) as Hdiv2.
  destruct Hdown as (Hh & H1 & H3).
  destruct (Nat.even len && (hole1 =? (len - 2) / 2)%nat) eqn:Hcond.
  - apply andb_true_iff in Hcond as [Heven Heq].
    apply Nat.eqb_eq in Heq. apply Nat.even_spec in Heven as [m Hm].
    set (c := (2 * (hole1 + 1) - 1)%nat).
    assert (c = len - 1)%nat as Hc by (unfold c; lia).
    assert (((c - 1) / 2)%nat = hole1) as Hpar.
    { pose proof (div2_bounds (c - 1)). unfold c in *. lia. }
    assert (down_inv st (<[hole1 := v1 !!! c]> v1) len c) as (Hh' & H1' & _).
    { apply down_inv_step; [split; [exact Hh|split; assumption]|lia|exact Hpar|].
      intros s Hs Hsp. pose proof (div2_bounds (s - 1)).
      assert (s = c) as -> by lia. lia. }
    apply push_heap_loop_heap; [|lia].
    split; [exact Hh'|]. split; [exact H1'|].
    split; intros s Hs Hsp; pose proof (div2_bounds (s - 1)); lia.
  - apply push_heap_loop_heap; [|lia].
    split; [exact Hh|]. split; [exact H1|].
    assert (forall s, (0 < s < len)%nat -> ((s - 1) / 2)%nat = hole1 -> False)
      as Hnone.
    { intros s Hs Hsp. pose proof (div2_bounds (s - 1)).
      apply andb_false_iff in Hcond as [Hodd|Hne].
      - assert (Nat.even len = false -> Nat.odd len = true) as Ho.
        { intros He. rewrite <- Nat.negb_even, He. reflexivity. }
        apply Ho, Nat.odd_spec in Hodd as [m Hm]. lia.
      - apply Nat.eqb_neq in Hne.
        destruct (Nat.even len) eqn:He.
        + apply Nat.even_spec in He as [m Hm]. lia.
        + assert (Nat.odd len = true) as Ho
            by (rewrite <- Nat.negb_even, He; reflexivity).
          apply Nat.odd_spec in Ho as [m Hm]. lia. }
    split; intros s Hs Hsp; exfalso; exact (Hnone s Hs Hsp).
Qed.

(** [pop] keeps the heap. *)
Lemma pq_pop_heap st v :
  is_heap st v (length v) -> is_heap st (pq_pop st v) (length (pq_pop st v)).
Proof.
  intros Hheap. rewrite length_pq_pop. unfold pq_pop.
  destruct (1 <? length v)%nat eqn:Hlen.
  2:{ intros i Hi. apply Nat.ltb_ge in Hlen. lia. }
  apply Nat.ltb_lt in Hlen.
  set (last := (length v - 1)%nat).
  assert (is_heap st
            (adjust_heap st (<[last := v !!! 0%nat]> v) 0 last (v !!! last))
            last) as HR.
  { apply adjust_heap_heap. split; [rewrite length_insert; unfold last; lia|].
    split.
    - intros i Hi _ _. pose proof (parent_lt i ltac:(lia)) as Hp.
      rewrite !list_lookup_total_insert_ne by lia. apply Hheap.
      unfold last in Hi. lia.
    - intros c _ _ Hz. lia. }
  intros i Hi. pose proof (parent_lt i ltac:(lia)) as Hp.
  rewrite !lookup_total_take_lt by lia. apply HR. exact Hi.
Qed.

(** The front of a heap has the lowest key. *)
Lemma heap_front_minimal st v i :
  is_heap st v (length v) -> (i < length v)%nat ->
  key st (v !!! 0%nat) <= key st (v !!! i).
Proof.
  intros Hheap. induction i as [i IH] using lt_wf_ind. intros Hi.
  destruct (decide (i = 0)%nat) as [->|Hnz]; [lia|].
  pose proof (parent_lt i ltac:(lia)) as Hp.
  etrans; [apply (IH _ Hp); lia|]. apply Hheap. lia.
Qed.

(** *** The heap along the operations of the simulator *)

Lemma key_ext (st st' : list Process) i :
  effectivePriority_ <$> st = effectivePriority_ <$> st' ->
  key st i = key st' i.
Proof.
  intros Heq. unfold key. rewrite !list_lookup_total_alt.
  assert ((effectivePriority_ <$> st) !! i = (effectivePriority_ <$> st') !! i)
    as Hi by (rewrite Heq; reflexivity).
  rewrite !list_lookup_fmap in Hi.
  destruct (st !! i), (st' !! i); simpl in *; congruence.
Qed.

Lemma is_heap_ext (st st' : list Process) v n :
  effectivePriority_ <$> st = effectivePriority_ <$> st' ->
  is_heap st v n -> is_heap st' v n.
Proof.
  intros Heq Hheap i Hi. rewrite <- !(key_ext st st' _ Heq). apply Hheap, Hi.
Qed.

Lemma lookup_total_valid (v : list nat) (n i : nat) :
  Forall (fun j => (j < n)%nat) v -> (i < length v)%nat -> (v !!! i < n)%nat.
Proof.
  intros Hv Hi. destruct (lookup_lt_is_Some_2 v i Hi) as [x Hx].
  rewrite (list_lookup_total_correct _ _ _ Hx).
  rewrite Forall_lookup in Hv. apply (Hv i x Hx).
Qed.

Lemma is_heap_app_store (st : list Process) p v :
  Forall (fun j => (j < length st)%nat) v ->
  is_heap st v (length v) -> is_heap (st ++ [p]) v (length v).
Proof.
  intros Hv Hheap i Hi. pose proof (parent_lt i ltac:(lia)) as Hp.
  unfold key.
  rewrite !lookup_total_app_l by (apply lookup_total_valid; [exact Hv|lia]).
  apply Hheap, Hi.
Qed.

Lemma length_pq_push st v x : length (pq_push st v x) = S (length v).
Proof. apply (Permutation_length (pq_push_Permutation st v x)). Qed.

Lemma enqueue_heap st v x n :
  is_heap st v (length v) -> Forall (fun j => (j < n)%nat) v -> (x < n)%nat ->
  is_heap st (enqueue st v x) (length (enqueue st v x)) /\
  Forall (fun j => (j < n)%nat) (enqueue st v x).
Proof.
  intros Hheap Hv Hx. unfold enqueue. split.
  - rewrite length_pq_push. apply pq_push_heap. exact Hheap.
  - rewrite pq_push_Permutation. constructor; assumption.
Qed.

Lemma dequeue_heap st v n :
  is_heap st v (length v) -> Forall (fun j => (j < n)%nat) v ->
  is_heap st (dequeue st v).2 (length (dequeue st v).2) /\
  Forall (fun j => (j < n)%nat) (dequeue st v).2 /\
  (forall c, (dequeue st v).1 = Some c -> (c < n)%nat).
Proof.
  intros Hheap Hv. unfold dequeue, pq_top.
  destruct (v !! 0%nat) as [x|] eqn:Hx; simpl.
  - pose proof (pq_pop_Permutation st v x Hx) as Hperm.
    rewrite <- Hperm in Hv. apply Forall_cons in Hv as [Hx' Hv'].
    split; [apply pq_pop_heap; exact Hheap|]. split; [exact Hv'|].
    intros c [= <-]. exact Hx'.
  - split; [exact Hheap|]. split; [exact Hv|]. discriminate.
Qed.

Lemma heap_inv_keys s s' :
  effectivePriority_ <$> allProcesses_ s' = effectivePriority_ <$> allProcesses_ s ->
  readyQueue_ s' = readyQueue_ s ->
  blockedProcesses_ s' = blockedProcesses_ s ->
  currentProcess_ s' = currentProcess_ s ->
  heap_inv s -> heap_inv s'.
Proof.
  intros Hk Hq Hb Hc (Hheap & Hv & Hbl & Hcur).
  assert (length (allProcesses_ s') = length (allProcesses_ s)) as Hlen.
  { rewrite <- (length_fmap effectivePriority_), Hk, length_fmap. reflexivity. }
  unfold heap_inv. rewrite Hq, Hb, Hc, Hlen.
  split; [|split; [exact Hv|split; [exact Hbl|exact Hcur]]].
  eapply is_heap_ext; [symmetry; exact Hk|exact Hheap].
Qed.

Lemma heap_inv_updateStats t s : heap_inv s -> heap_inv (updateStats t s).
Proof.
  apply heap_inv_keys; try reflexivity.
  apply (proj_updateStats effectivePriority_); reflexivity.
Qed.

Lemma heap_inv_alter_setState st i s :
  heap_inv s ->
  heap_inv (set_allProcesses (alter (setState st) i (allProcesses_ s)) s).
Proof.
  apply heap_inv_keys; try reflexivity. simpl.
  apply fmap_alter_same. reflexivity.
Qed.

Lemma heap_inv_createProcess nm pr b a t s :
  heap_inv s -> heap_inv (createProcess nm pr b a t s).2.
Proof.
  intros (Hheap & Hv & Hbl & Hcur). unfold createProcess. cbn [snd].
  apply heap_inv_updateStats.
  set (p := set_arrivalTime a (setState NEW (new_Process (nextPid s) nm pr b))).
  set (st1 := allProcesses_ s ++ [p]).
  assert (length st1 = S (length (allProcesses_ s))) as Hlen
    by (unfold st1; rewrite length_app; simpl; lia).
  destruct (enqueue_heap st1 (readyQueue_ s) (length (allProcesses_ s))
              (length st1)) as [Hh1 Hv1].
  { apply is_heap_app_store; assumption. }
  { eapply List.Forall_impl; [|exact Hv]. simpl. intros j Hj. lia. }
  { lia. }
  apply (heap_inv_keys
           (set_readyQueue
              (enqueue st1 (readyQueue_ s) (length (allProcesses_ s)))
              (set_allProcesses st1 (set_nextPid (nextPid s + 1) s))));
    try reflexivity.
  { simpl. apply fmap_alter_same. reflexivity. }
  split; [exact Hh1|]. split; [exact Hv1|]. simpl. split.
  - eapply List.Forall_impl; [|exact Hbl]. simpl. intros e He. lia.
  - intros c Hc. specialize (Hcur c Hc). lia.
Qed.

Lemma heap_inv_selectNextProcess s : heap_inv s -> heap_inv (selectNextProcess s).
Proof.
  intros Hs. unfold selectNextProcess. destruct (_ && _); [|exact Hs].
  destruct Hs as (Hheap & Hv & Hbl & Hcur).
  destruct (dequeue_heap (allProcesses_ s) (readyQueue_ s)
              (length (allProcesses_ s)) Hheap Hv) as (Hh' & Hv' & Hc').
  destruct (dequeue _ _) as [[c|] q]; simpl in *;
    [|split; [exact Hheap|split; [exact Hv|split; [exact Hbl|exact Hcur]]]].
  apply (heap_inv_alter_setState RUNNING c
           (set_currentProcess (Some c) (set_readyQueue q s))).
  split; [exact Hh'|]. split; [exact Hv'|]. split; [exact Hbl|].
  simpl. intros c0 [= <-]. apply Hc'. reflexivity.
Qed.

Lemma heap_inv_run_current rnd s : heap_inv s -> heap_inv (run_current rnd s).
Proof.
  intros Hs. unfold run_current.
  destruct (currentProcess_ s) as [c|] eqn:Hcur; [|exact Hs].
  cbn beta iota zeta delta [set_allProcesses set_ioSimulationCounter
    allProcesses_ ioSimulationCounter_].
  set (l1 := alter (execute (timeQuantumMs_ s)) c (allProcesses_ s)).
  assert (effectivePriority_ <$> l1 = effectivePriority_ <$> allProcesses_ s)
    as Hk1.
  { apply fmap_alter_same. intros p.
    apply (proj_execute effectivePriority_); reflexivity. }
  assert (length l1 = length (allProcesses_ s)) as Hlen
    by (unfold l1; apply length_alter).
  destruct Hs as (Hheap & Hv & Hbl & Hc).
  pose proof (Hc c Hcur) as Hcv.
  destruct (_ && _ && _).
  - split; [|split; [|split]]; simpl.
    + eapply is_heap_ext; [|exact Hheap].
      rewrite fmap_alter_same by reflexivity. symmetry. exact Hk1.
    + rewrite length_alter, Hlen. exact Hv.
    + rewrite length_alter, Hlen. apply Forall_app. split; [exact Hbl|].
      repeat constructor. exact Hcv.
    + discriminate.
  - destruct (bool_decide _); (split; [|split; [|split]]); simpl;
      rewrite ?Hlen; try assumption; try discriminate;
      try (eapply is_heap_ext; [symmetry; exact Hk1|exact Hheap]).
Qed.

Lemma heap_inv_check_blocked q blocked st rq :
  is_heap st rq (length rq) ->
  Forall (fun j => (j < length st)%nat) rq ->
  Forall (fun e : nat * Z => (e.1 < length st)%nat) blocked ->
  let r := check_blocked q blocked st rq in
  is_heap r.1.1 r.1.2 (length r.1.2) /\
  Forall (fun j => (j < length r.1.1)%nat) r.1.2 /\
  Forall (fun e : nat * Z => (e.1 < length r.1.1)%nat) r.2 /\
  length r.1.1 = length st.
Proof.
  revert st rq. induction blocked as [|[proc io] rest IH];
    intros st rq Hheap Hv Hbl; cbn zeta.
  - simpl. split; [exact Hheap|]. split; [exact Hv|].
    split; [constructor|reflexivity].
  - apply Forall_cons in Hbl as [Hp Hbl]. simpl in Hp. simpl check_blocked.
    destruct (io - q <=? 0).
    + set (st' := alter (setState READY) proc st).
      assert (length st' = length st) as Hlen by apply length_alter.
      assert (is_heap st' rq (length rq)) as Hheap'.
      { eapply is_heap_ext; [|exact Hheap]. symmetry.
        apply fmap_alter_same. reflexivity. }
      destruct (enqueue_heap st' rq proc (length st') Hheap'
                  ltac:(rewrite Hlen; exact Hv) ltac:(lia)) as [Hh1 Hv1].
      specialize (IH st' (enqueue st' rq proc) Hh1 Hv1
                    ltac:(rewrite Hlen; exact Hbl)).
      cbn zeta in IH. destruct IH as (H1 & H2 & H3 & H4).
      split; [exact H1|]. split; [exact H2|]. split; [exact H3|]. lia.
    + specialize (IH st rq Hheap Hv Hbl). cbn zeta in IH.
      destruct (check_blocked q rest st rq) as [[st' q'] rest'].
      simpl in *. destruct IH as (H1 & H2 & H3 & H4).
      split; [exact H1|]. split; [exact H2|]. split; [|exact H4].
      constructor; [simpl; lia|exact H3].
Qed.

(** The drain of the aging empties the queue into [temp]. *)
Lemma applyAging_drain_spec fuel f st queue temp st' queue' temp' :
  applyAging_drain fuel f st queue temp = Some (st', queue', temp') ->
  length st' = length st /\
  queue' ++ temp' ≡ₚ queue ++ temp /\
  ((length queue <= fuel)%nat -> queue' = []).
Proof.
  revert st queue temp.
  induction fuel as [|fuel IH]; intros st queue temp; simpl.
  - intros [= <- <- <-]. split; [reflexivity|]. split; [reflexivity|].
    intros Hl. destruct queue; [reflexivity|simpl in Hl; lia].
  - unfold pq_top. destruct (queue !! 0%nat) as [proc|] eqn:Hq.
    2:{ intros [= <- <- <-]. split; [reflexivity|]. split; [reflexivity|].
        intros _. destruct queue; [reflexivity|discriminate]. }
    unfold applyAging. destruct (division_traps f _); [discriminate|].
    intros Hrec. destruct (IH _ _ _ Hrec) as (H1 & H2 & H3).
    rewrite length_insert in H1. split; [exact H1|]. split.
    + rewrite H2. rewrite <- (pq_pop_Permutation st queue proc Hq) at 2.
      rewrite app_assoc, <- Permutation_cons_append. reflexivity.
    + intros Hl. apply H3. rewrite length_pq_pop. lia.
Qed.

Lemma fold_pq_push_heap st temp v :
  is_heap st v (length v) ->
  is_heap st (fold_left (pq_push st) temp v)
    (length (fold_left (pq_push st) temp v)) /\
  fold_left (pq_push st) temp v ≡ₚ temp ++ v.
Proof.
  revert v. induction temp as [|x temp IH]; intros v Hheap; simpl.
  - split; [exact Hheap|reflexivity].
  - assert (is_heap st (pq_push st v x) (length (pq_push st v x))) as Hh.
    { rewrite length_pq_push. apply pq_push_heap. exact Hheap. }
    destruct (IH _ Hh) as [H1 H2]. split; [exact H1|].
    rewrite H2, pq_push_Permutation. rewrite <- Permutation_middle. reflexivity.
Qed.

Lemma heap_inv_applyAging s s' :
  Scheduler_applyAging s = Some s' -> heap_inv s -> heap_inv s'.
Proof.
  unfold Scheduler_applyAging, ReadyQueue_applyAging.
  destruct (applyAging_drain _ _ _ _ _) as [[[st' q'] temp]|] eqn:Hd;
    [|discriminate].
  intros [= <-] (Hheap & Hv & Hbl & Hc).
  destruct (applyAging_drain_spec _ _ _ _ _ _ _ _ Hd) as (Hlen & Hperm & Hnil).
  rewrite (Hnil ltac:(lia)) in *. rewrite app_nil_r in Hperm. simpl in Hperm.
  destruct (fold_pq_push_heap st' temp []) as [Hh Hp].
  { intros i Hi. simpl in Hi. lia. }
  rewrite app_nil_r in Hp.
  split; [exact Hh|]. simpl. rewrite Hlen. split; [|split; assumption].
  rewrite Hp, Hperm. exact Hv.
Qed.

Lemma heap_inv_schedulerLoop_body rnd t s s' :
  schedulerLoop_body rnd t s = Some s' -> heap_inv s -> heap_inv s'.
Proof.
  unfold schedulerLoop_body. destruct (paused_ s); [intros [= <-]; exact id|].
  intros Hbody Hs.
  pose proof (heap_inv_run_current rnd _ (heap_inv_selectNextProcess _ Hs))
    as (Hheap & Hv & Hbl & Hc).
  set (s2 := run_current rnd (selectNextProcess s)) in *.
  pose proof (heap_inv_check_blocked (timeQuantumMs_ s2) (blockedProcesses_ s2)
                _ _ Hheap Hv Hbl) as Hcb. cbn zeta in Hcb.
  destruct (check_blocked _ _ _ _) as [[st q] blocked]. simpl in Hcb.
  destruct Hcb as (H1 & H2 & H3 & H4).
  destruct (Scheduler_applyAging _) as [s4|] eqn:Hage; [|discriminate].
  injection Hbody as <-. apply heap_inv_updateStats.
  eapply heap_inv_applyAging; [exact Hage|].
  split; [exact H1|]. split; [exact H2|]. split; [exact H3|].
  simpl. rewrite H4. exact Hc.
Qed.

Lemma heap_inv_do_event e s s' :
  do_event e s = Some s' -> heap_inv s -> heap_inv s'.
Proof.
  destruct e as [nm pr b a t|pid t|pid t|pid t|ms|sec| | | |rnd t]; simpl;
    intros Hev Hs; try (injection Hev as <-); try exact Hs.
  - apply heap_inv_createProcess. exact Hs.
  - unfold terminateProcess. apply heap_inv_updateStats.
    destruct (find_index _ _); [|exact Hs].
    apply heap_inv_alter_setState. exact Hs.
  - unfold blockProcess. apply heap_inv_updateStats.
    destruct (find_index _ _); [|exact Hs].
    apply heap_inv_alter_setState. exact Hs.
  - unfold unblockProcess. apply heap_inv_updateStats.
    destruct (find_index _ _) as [i|] eqn:Hfind; [|exact Hs].
    apply find_index_lt in Hfind.
    pose proof (heap_inv_alter_setState READY i s Hs) as (Hh & Hv & Hbl & Hc).
    simpl in *.
    destruct (enqueue_heap _ _ i _ Hh Hv
                ltac:(rewrite length_alter; exact Hfind)) as [Hh1 Hv1].
    split; [exact Hh1|]. split; [exact Hv1|]. split; assumption.
  - unfold start. destruct (running_ s); exact Hs.
  - destruct (running_ s); [|injection Hev as <-; exact Hs].
    eapply heap_inv_schedulerLoop_body; eauto.
Qed.

Lemma heap_inv_run es s s' : run es s = Some s' -> heap_inv s -> heap_inv s'.
Proof.
  revert s. induction es as [|e es IH]; intros s; simpl.
  - intros [= <-]. exact id.
  - destruct (do_event e s) as [s1|] eqn:He1; [|discriminate].
    intros Hrun Hs. eapply IH; [exact Hrun|].
    eapply heap_inv_do_event; eauto.
Qed.

(** *** The aging of the ready queue *)

Lemma aged_idempotent f p : aged f (aged f p) = aged f p.
Proof. reflexivity. Qed.

Lemma insert_lookup_total_alter {A} `{Inhabited A} (f : A -> A) i (l : list A) :
  <[i := f (l !!! i)]> l = alter f i l.
Proof.
  revert i. induction l as [|x l IH]; intros [|i]; simpl; try reflexivity.
  f_equal. apply IH.
Qed.

Lemma applyAging_drain_store fuel f st queue temp st' queue' temp' :
  applyAging_drain fuel f st queue temp = Some (st', queue', temp') ->
  exists popped,
    temp' = temp ++ popped /\
    st' = fold_left (fun l k => alter (aged f) k l) popped st.
Proof.
  revert st queue temp.
  induction fuel as [|fuel IH]; intros st queue temp; simpl.
  - intros [= <- <- <-]. exists []. rewrite app_nil_r. split; reflexivity.
  - destruct (pq_top queue) as [proc|].
    2:{ intros [= <- <- <-]. exists []. rewrite app_nil_r. split; reflexivity. }
    unfold applyAging. destruct (division_traps f _); [discriminate|].
    intros Hrec. destruct (IH _ _ _ Hrec) as (popped & -> & ->).
    exists (proc :: popped). rewrite <- app_assoc. split; [reflexivity|].
    simpl. f_equal. apply (insert_lookup_total_alter (aged f)).
Qed.

Lemma ReadyQueue_applyAging_spec f st queue st' queue' :
  ReadyQueue_applyAging f st queue = Some (st', queue') ->
  queue' ≡ₚ queue /\
  is_heap st' queue' (length queue') /\
  length st' = length st /\
  forall i, st' !! i =
            if decide (i ∈ queue) then aged f <$> st !! i else st !! i.
Proof.
  unfold ReadyQueue_applyAging.
  destruct (applyAging_drain _ _ _ _ _) as [[[st1 q1] temp]|] eqn:Hd;
    [|discriminate].
  intros [= <- <-].
  destruct (applyAging_drain_spec _ _ _ _ _ _ _ _ Hd) as (Hlen & Hperm & Hnil).
  rewrite (Hnil ltac:(lia)) in *. rewrite app_nil_r in Hperm. simpl in Hperm.
  destruct (applyAging_drain_store _ _ _ _ _ _ _ _ Hd) as (popped & Hp & Hst).
  simpl in Hp. subst popped.
  destruct (fold_pq_push_heap st1 temp []) as [Hh Hpp].
  { intros i Hi. simpl in Hi. lia. }
  rewrite app_nil_r in Hpp.
  split; [rewrite Hpp; exact Hperm|]. split; [exact Hh|]. split; [exact Hlen|].
  intros i. rewrite Hst.
  rewrite (KmodFacts.fold_alter_lookup (aged f)) by apply aged_idempotent.
  destruct (decide (i ∈ temp)) as [Hin|Hnotin];
    destruct (decide (i ∈ queue)) as [Hin'|Hnotin']; try reflexivity.
  - exfalso. apply Hnotin'. rewrite <- Hperm. exact Hin.
  - exfalso. apply Hnotin. rewrite Hperm. exact Hin'.
Qed.

(** *** The queue operations on a heap *)

Lemma ReadyQueue_enqueue_spec st q x :
  is_heap st q (length q) ->
  enqueue st q x ≡ₚ x :: q /\
  is_heap st (enqueue st q x) (length (enqueue st q x)).
Proof.
  intros Hheap. unfold enqueue. split; [apply pq_push_Permutation|].
  rewrite length_pq_push. apply pq_push_heap. exact Hheap.
Qed.

Lemma ReadyQueue_dequeue_spec st q :
  is_heap st q (length q) ->
  match dequeue st q with
  | (Some c, q') =>
      peek q = Some c /\ empty q = false /\
      q ≡ₚ c :: q' /\
      is_heap st q' (length q') /\
      Forall (fun j => effectivePriority_ (st !!! c)
                       <= effectivePriority_ (st !!! j)) q
  | (None, q') => q = [] /\ q' = [] /\ peek q = None /\ empty q = true
  end.
Proof.
  intros Hheap. unfold dequeue, peek, pq_top.
  destruct q as [|c q]; [repeat split|]. simpl lookup. cbv iota beta.
  split; [reflexivity|]. split; [reflexivity|].
  split; [symmetry; apply pq_pop_Permutation; reflexivity|].
  split; [apply pq_pop_heap; exact Hheap|].
  apply Forall_lookup. intros i j Hj.
  pose proof (heap_front_minimal st (c :: q) i Hheap
                (lookup_lt_Some _ _ _ Hj)) as Hmin.
  unfold key in Hmin.
  rewrite (list_lookup_total_correct _ _ _ Hj) in Hmin. exact Hmin.
Qed.

Lemma heap_inv_Scheduler_new : heap_inv Scheduler_new.
Proof.
  split; [intros i Hi; simpl in Hi; lia|].
  split; [constructor|]. split; [constructor|]. intros c Hc. discriminate.
Qed.

(** *** The trap of the aging *)

Lemma division_traps_insert f (st : list Process) (proc : nat) e (i : nat) :
  division_traps f (<[proc := set_effectivePriority e (st !!! proc)]> st !!! i)
  = division_traps f (st !!! i).
Proof.
  destruct (decide (i = proc)) as [->|Hne].
  - destruct (decide (proc < length st)%nat) as [Hlt|Hge].
    + rewrite list_lookup_total_insert_eq by exact Hlt. reflexivity.
    + rewrite list_insert_ge by lia. reflexivity.
  - rewrite list_lookup_total_insert_ne by auto. reflexivity.
Qed.

(** The drain fails exactly when it meets a member for which the division
    traps; every member is met. *)
Lemma applyAging_drain_None fuel f st queue temp :
  (length queue <= fuel)%nat ->
  applyAging_drain fuel f st queue temp = None <->
  exists i, i ∈ queue /\ division_traps f (st !!! i) = true.
Proof.
  revert st queue temp.
  induction fuel as [|fuel IH]; intros st queue temp Hlen; simpl.
  - destruct queue; [|simpl in Hlen; lia].
    split; [discriminate|]. intros (i & Hi & _). inversion Hi.
  - unfold pq_top. destruct (queue !! 0%nat) as [proc|] eqn:Hq.
    2:{ destruct queue; [|discriminate].
        split; [discriminate|]. intros (i & Hi & _). inversion Hi. }
    pose proof (pq_pop_Permutation st queue proc Hq) as Hperm.
    unfold applyAging.
    destruct (division_traps f (st !!! proc)) eqn:Ht.
    + split; [|reflexivity]. intros _. exists proc.
      split; [eapply list_elem_of_lookup_2; exact Hq|exact Ht].
    + rewrite IH by (rewrite length_pq_pop; lia).
      split; intros (i & Hi & Hti).
      * exists i. split; [rewrite <- Hperm; right; exact Hi|].
        rewrite division_traps_insert in Hti. exact Hti.
      * rewrite <- Hperm in Hi. apply elem_of_cons in Hi as [->|Hi].
        -- rewrite Ht in Hti. discriminate.
        -- exists i. split; [exact Hi|].
           rewrite division_traps_insert. exact Hti.
Qed.

Lemma ReadyQueue_applyAging_None f st queue :
  ReadyQueue_applyAging f st queue = None <->
  exists i, i ∈ queue /\ division_traps f (st !!! i) = true.
Proof.
  rewrite <- (applyAging_drain_None (length queue) f st queue [])
    by reflexivity.
  unfold ReadyQueue_applyAging.
  destruct (applyAging_drain _ _ _ _ _) as [[[st' q'] temp]|];
    split; try discriminate; reflexivity.
Qed.

Lemma division_traps_spec f p :
  division_traps f p = true <->
  f = 0 \/ (f = -1 /\ waitTime p = - 2 ^ 31).
Proof.
  unfold division_traps.
  rewrite orb_true_iff, andb_true_iff, !Z.eqb_eq. tauto.
Qed.

End SimLaws.

(** ** The kernel module *)

Module KmodLaws.
Import Kmod KmodFacts.

(** *** The counter of the ready queue *)

Lemma length_insert_by_priority st proc q :
  length (insert_by_priority st proc q) = S (length q).
Proof. rewrite insert_by_priority_Permutation. reflexivity. Qed.

Lemma count_inv_enqueue_process proc s :
  count_inv s -> count_inv (enqueue_process proc s).
Proof.
  unfold count_inv, enqueue_process. simpl. intros ->.
  rewrite length_insert_by_priority, to_int_add_l. f_equal. lia.
Qed.

Lemma count_inv_set_all_processes l s :
  count_inv s -> count_inv (set_all_processes l s).
Proof. exact id. Qed.

Lemma count_inv_check_waiting_processes j s :
  count_inv s -> count_inv (check_waiting_processes j s).
Proof.
  unfold check_waiting_processes.
  generalize (seq 0 (length (all_processes s))). intros idx. revert s.
  induction idx as [|i idx IH]; intros s Hs; simpl; [exact Hs|].
  apply IH. unfold wake_process. destruct (_ && _); [|exact Hs].
  apply count_inv_enqueue_process. exact Hs.
Qed.

Lemma count_inv_select_next_process s :
  count_inv s -> count_inv (select_next_process s).2.
Proof.
  unfold select_next_process.
  destruct (match current_proc s with Some _ => _ | None => _ end);
    [exact id|].
  unfold dequeue_process, count_inv.
  destruct (ready_q_head s) as [|proc rest] eqn:Hq; simpl;
    [rewrite Hq; exact id|].
  intros ->. unfold Z.sub. rewrite to_int_add_l. f_equal. lia.
Qed.

Section WithHZ.
Variable HZ : Z.
Variable msecs_to_jiffies : Z -> Z.
Variable jiffies_to_msecs : Z -> Z.

Lemma count_inv_iteration_begin j1 j2 s :
  count_inv s -> count_inv (iteration_begin HZ j1 j2 s).2.
Proof.
  intros Hs. unfold iteration_begin.
  assert (count_inv (apply_aging HZ j2 (check_waiting_processes j1 s))) as H2
    by (apply (count_inv_check_waiting_processes j1 s Hs)).
  apply count_inv_select_next_process in H2.
  destruct (select_next_process _) as [[proc|] s3]; exact H2.
Qed.

Lemma count_inv_post_execute proc exec_time j s :
  count_inv s -> count_inv (post_execute jiffies_to_msecs proc exec_time j s).
Proof.
  intros Hs. unfold post_execute. cbn zeta.
  destruct (bool_decide _); [exact Hs|].
  destruct (_ <=? 0); [exact Hs|].
  apply (count_inv_enqueue_process proc
           (set_all_processes _ (set_stats _ (set_all_processes _ s)))).
  exact Hs.
Qed.

Lemma count_inv_kstep e cfg :
  queue_inv cfg -> count_inv cfg.2 ->
  count_inv (kstep HZ msecs_to_jiffies jiffies_to_msecs e cfg).2.
Proof.
  destruct cfg as [pc s]. intros [Hmem _] Hc. simpl in Hmem, Hc.
  destruct e as [c ok j|q a|j1 j2|j]; simpl.
  - destruct c as [nm b pr|pid w| |]; simpl; try exact Hc.
    + unfold cmd_new. destruct (_ || _ || _); [exact Hc|].
      destruct ok; [|exact Hc]. cbn [snd negb].
      apply (count_inv_enqueue_process _
               (set_all_processes _ (set_next_pid _ s))). exact Hc.
    + unfold cmd_wait.
      destruct (find_index _ _) as [i|] eqn:Hfind; [|exact Hc].
      apply find_index_lt in Hfind.
      destruct (decide (state (all_processes s !!! i) = PROC_RUNNING)) as [Hst|Hnr];
        [|destruct (decide (state (all_processes s !!! i) = PROC_READY))
            as [Hst|Hnd]].
      * rewrite !(bool_decide_true _ Hst). exact Hc.
      * rewrite (bool_decide_false _ Hnr), (bool_decide_true _ Hst).
        cbn [orb snd]. unfold count_inv in *. simpl. rewrite Hc.
        destruct Hmem as (Hnd & Hq & _).
        assert (i ∈ ready_q_head s) as Hin.
        { apply Hq. unfold states.
          rewrite states_lookup_lt by exact Hfind. congruence. }
        rewrite <- (length_filter_remove i _ Hnd Hin).
        unfold Z.sub. rewrite to_int_add_l. f_equal. lia.
      * rewrite !bool_decide_false by assumption. exact Hc.
  - exact Hc.
  - destruct pc; try exact Hc. apply count_inv_iteration_begin. exact Hc.
  - destruct pc as [|proc e|]; try exact Hc; simpl.
    apply count_inv_post_execute. exact Hc.
Qed.

Lemma count_inv_krun es quantum aging :
  count_inv (krun HZ msecs_to_jiffies jiffies_to_msecs es
               (LoopTop, kstate_init quantum aging)).2.
Proof.
  assert (count_inv (LoopTop, kstate_init quantum aging).2) as Hinit
    by reflexivity.
  pose proof (queue_inv_krun HZ msecs_to_jiffies jiffies_to_msecs [] quantum aging)
    as Hq. simpl in Hq.
  revert Hinit Hq. generalize (LoopTop, kstate_init quantum aging).
  induction es as [|e es IH]; intros cfg Hcfg Hq; [exact Hcfg|].
  simpl. apply IH.
  - apply count_inv_kstep; assumption.
  - apply queue_inv_kstep. exact Hq.
Qed.

End WithHZ.

(** *** Fields that the operations leave alone *)

Section Projection.

Context {B : Type} (g : custom_pcb -> B).
Hypothesis g_state : forall st p, g (set_state st p) = g p.
Hypothesis g_effective : forall e p, g (set_effective_priority e p) = g p.
Hypothesis g_remaining : forall r p, g (set_remaining_time_ms r p) = g p.
Hypothesis g_wait : forall w p, g (set_wait_time_ms w p) = g p.
Hypothesis g_turnaround : forall t p, g (set_turnaround_time_ms t p) = g p.
Hypothesis g_last_update : forall j p, g (set_last_update_jiffies j p) = g p.
Hypothesis g_wakeup : forall j p, g (set_wakeup_time_jiffies j p) = g p.

Lemma proj_check_waiting_processes j s :
  g <$> all_processes (check_waiting_processes j s) = g <$> all_processes s /\
  next_pid (check_waiting_processes j s) = next_pid s.
Proof.
  unfold check_waiting_processes.
  generalize (seq 0 (length (all_processes s))). intros idx. revert s.
  induction idx as [|i idx IH]; intros s; simpl; [split; reflexivity|].
  destruct (IH (wake_process j s i)) as [-> ->].
  unfold wake_process. destruct (_ && _); [|split; reflexivity]. simpl.
  split; [|reflexivity]. apply fmap_alter_same. intros p.
  rewrite g_last_update. apply g_state.
Qed.

Lemma proj_apply_aging HZ j s :
  g <$> all_processes (apply_aging HZ j s) = g <$> all_processes s /\
  next_pid (apply_aging HZ j s) = next_pid s.
Proof.
  split; [|reflexivity]. unfold apply_aging. simpl.
  generalize (all_processes s) as l.
  induction (ready_q_head s) as [|i q IH]; intros l; simpl; [reflexivity|].
  rewrite IH. apply fmap_alter_same. intros p. unfold apply_aging_pcb.
  destruct (bool_decide _); [|reflexivity].
  destruct (0 <? _); [apply g_effective|reflexivity].
Qed.

Lemma proj_select_next_process s :
  g <$> all_processes (select_next_process s).2 = g <$> all_processes s /\
  next_pid (select_next_process s).2 = next_pid s.
Proof.
  unfold select_next_process.
  destruct (match current_proc s with Some _ => _ | None => _ end);
    [split; reflexivity|].
  unfold dequeue_process. destruct (ready_q_head s); [split; reflexivity|].
  simpl. split; [|reflexivity]. apply fmap_alter_same. apply g_state.
Qed.

Lemma proj_iteration_begin HZ j1 j2 s :
  g <$> all_processes (iteration_begin HZ j1 j2 s).2 = g <$> all_processes s /\
  next_pid (iteration_begin HZ j1 j2 s).2 = next_pid s.
Proof.
  unfold iteration_begin.
  destruct (proj_check_waiting_processes j1 s) as [<- <-].
  destruct (proj_apply_aging HZ j2 (check_waiting_processes j1 s)) as [<- <-].
  destruct (proj_select_next_process
              (apply_aging HZ j2 (check_waiting_processes j1 s))) as [<- <-].
  destruct (select_next_process _) as [[proc|] s3]; split; reflexivity.
Qed.

Lemma proj_post_execute_slice jtm proc exec_time j s :
  g <$> all_processes (post_execute jtm proc exec_time j s)
    = g <$> alter (fun p => set_remaining_time_ms
                              (to_int (remaining_time_ms p - exec_time)) p)
              proc (all_processes s) /\
  next_pid (post_execute jtm proc exec_time j s) = next_pid s.
Proof.
  unfold post_execute. cbn zeta.
  set (l1 := alter _ proc (all_processes s)).
  set (l2 := map _ l1).
  assert (g <$> l2 = g <$> l1) as Hl2.
  { unfold l2. change (map ?f ?l) with (f <$> l). rewrite <- list_fmap_compose.
    apply list_fmap_ext. intros i p _. simpl.
    destruct (bool_decide _); [apply g_wait|reflexivity]. }
  destruct (bool_decide _); [split; [exact Hl2|reflexivity]|].
  destruct (_ <=? 0); simpl; (split; [|reflexivity]); rewrite <- Hl2;
    apply fmap_alter_same; intros p.
  - rewrite g_turnaround. apply g_state.
  - rewrite g_last_update. apply g_state.
Qed.

Lemma proj_post_execute jtm proc exec_time j s :
  g <$> all_processes (post_execute jtm proc exec_time j s) = g <$> all_processes s /\
  next_pid (post_execute jtm proc exec_time j s) = next_pid s.
Proof.
  destruct (proj_post_execute_slice jtm proc exec_time j s) as [-> ->].
  split; [|reflexivity]. apply fmap_alter_same. intros p. apply g_remaining.
Qed.

Lemma proj_cmd_wait mtj pid w j s :
  g <$> all_processes (cmd_wait mtj pid w j s).2 = g <$> all_processes s /\
  next_pid (cmd_wait mtj pid w j s).2 = next_pid s.
Proof.
  unfold cmd_wait. destruct (find_index _ _) as [i|]; [|split; reflexivity].
  destruct (_ || _); [|split; reflexivity]. cbn [snd].
  destruct (bool_decide _); simpl; (split; [|reflexivity]);
    apply fmap_alter_same; intros p; rewrite g_wakeup; apply g_state.
Qed.

Lemma proj_cmd_new nm b pr ok j s :
  (cmd_new nm b pr ok j s).1 = Written /\
  g <$> all_processes (cmd_new nm b pr ok j s).2 =
    (g <$> all_processes s) ++
      [g (mkPcb (to_int (next_pid s + 1)) (strncpy 31 nm) pr pr b b
            PROC_READY j 0 0 j 0)] /\
  next_pid (cmd_new nm b pr ok j s).2 = to_int (next_pid s + 1)
  \/
  (cmd_new nm b pr ok j s).1 <> Written /\ (cmd_new nm b pr ok j s).2 = s.
Proof.
  unfold cmd_new. destruct (_ || _ || _); [right; split; [discriminate|reflexivity]|].
  destruct ok; [|right; split; [discriminate|reflexivity]]. left.
  cbn [fst snd negb]. split; [reflexivity|]. simpl. rewrite fmap_app.
  split; reflexivity.
Qed.

(** Every step leaves the projection of the existing PCBs as it is; only
    an accepted NEW command adds a PCB, at the tail, and takes a pid. *)
Lemma proj_kstep HZ mtj jtm e cfg :
  (g <$> all_processes (kstep HZ mtj jtm e cfg).2 = g <$> all_processes cfg.2 /\
   next_pid (kstep HZ mtj jtm e cfg).2 = next_pid cfg.2) \/
  (exists nm b pr j,
     g <$> all_processes (kstep HZ mtj jtm e cfg).2 =
       (g <$> all_processes cfg.2) ++
         [g (mkPcb (to_int (next_pid cfg.2 + 1)) (strncpy 31 nm) pr pr b b
               PROC_READY j 0 0 j 0)] /\
     next_pid (kstep HZ mtj jtm e cfg).2 = to_int (next_pid cfg.2 + 1)).
Proof.
  destruct cfg as [pc s]. destruct e as [c ok j|q a|j1 j2|j]; simpl.
  - destruct c as [nm b pr|pid w| |]; simpl;
      try (left; split; reflexivity).
    + destruct (proj_cmd_new nm b pr ok j s) as [(_ & H1 & H2)|[_ ->]];
        [right; exists nm, b, pr, j; split; assumption|left; split; reflexivity].
    + left. apply proj_cmd_wait.
  - left. split; reflexivity.
  - left. destruct pc; try (split; reflexivity). apply proj_iteration_begin.
  - left. destruct pc as [|proc e|]; try (split; reflexivity); simpl.
    apply proj_post_execute.
Qed.

Lemma proj_krun HZ mtj jtm es cfg :
  (g <$> all_processes cfg.2) `prefix_of`
  (g <$> all_processes (krun HZ mtj jtm es cfg).2).
Proof.
  revert cfg. induction es as [|e es IH]; intros cfg; simpl; [reflexivity|].
  etransitivity; [|apply IH].
  destruct (proj_kstep HZ mtj jtm e cfg) as [[-> _]|(nm & b & pr & j & -> & _)];
    [reflexivity|]. apply prefix_app_r. reflexivity.
Qed.

End Projection.

Section WithHZ.
Variable HZ : Z.
Variable msecs_to_jiffies : Z -> Z.
Variable jiffies_to_msecs : Z -> Z.

Lemma pid_inv_kstep e cfg :
  pid_inv cfg.2 -> pid_inv (kstep HZ msecs_to_jiffies jiffies_to_msecs e cfg).2.
Proof.
  intros [Hnext Hpids].
  destruct (proj_kstep pid ltac:(reflexivity) ltac:(reflexivity)
              ltac:(reflexivity) ltac:(reflexivity) ltac:(reflexivity)
              ltac:(reflexivity) ltac:(reflexivity)
              HZ msecs_to_jiffies jiffies_to_msecs e cfg)
    as [[Hg Hn]|(nm & b & pr & j & Hg & Hn)].
  - assert (length (all_processes (kstep HZ msecs_to_jiffies jiffies_to_msecs e cfg).2)
            = length (all_processes cfg.2)) as Hlen.
    { rewrite <- (length_fmap pid), Hg, length_fmap. reflexivity. }
    split; rewrite Hlen; congruence.
  - assert (length (all_processes (kstep HZ msecs_to_jiffies jiffies_to_msecs e cfg).2)
            = S (length (all_processes cfg.2))) as Hlen.
    { rewrite <- (length_fmap pid), Hg, length_app, length_fmap. simpl. lia. }
    split; rewrite Hlen.
    + rewrite Hn, Hnext, to_int_add_l. f_equal. lia.
    + rewrite Hg, Hpids, seq_S, fmap_app. simpl. f_equal. f_equal.
      rewrite Hnext, to_int_add_l. f_equal. lia.
Qed.

Lemma pid_inv_krun es quantum aging :
  pid_inv (krun HZ msecs_to_jiffies jiffies_to_msecs es
             (LoopTop, kstate_init quantum aging)).2.
Proof.
  assert (pid_inv (LoopTop, kstate_init quantum aging).2) as Hinit
    by (split; reflexivity).
  revert Hinit. generalize (LoopTop, kstate_init quantum aging).
  induction es as [|e es IH]; intros cfg Hcfg; [exact Hcfg|].
  simpl. apply IH. apply pid_inv_kstep. exact Hcfg.
Qed.

End WithHZ.

(** *** The wakeup of the waiting processes *)

Lemma woken_idempotent j p : woken j (woken j p) = woken j p.
Proof.
  unfold woken. destruct (due j p) eqn:Hd; [|rewrite Hd; reflexivity].
  reflexivity.
Qed.

Lemma wake_process_all_processes j s i :
  all_processes (wake_process j s i) = alter (woken j) i (all_processes s).
Proof.
  unfold wake_process. fold (due j (all_processes s !!! i)).
  destruct (due j (all_processes s !!! i)) eqn:Hd; simpl.
  - apply alter_ext_at. unfold woken. rewrite Hd. reflexivity.
  - symmetry. apply alter_id_at. unfold woken. rewrite Hd. reflexivity.
Qed.

Lemma fold_wake_process_all_processes j idx s :
  all_processes (fold_left (wake_process j) idx s)
  = fold_left (fun l i => alter (woken j) i l) idx (all_processes s).
Proof.
  revert s. induction idx as [|i idx IH]; intros s; simpl; [reflexivity|].
  rewrite IH, wake_process_all_processes. reflexivity.
Qed.

Lemma check_waiting_processes_all_processes j s :
  all_processes (check_waiting_processes j s) = woken j <$> all_processes s.
Proof.
  unfold check_waiting_processes. rewrite fold_wake_process_all_processes.
  apply list_eq. intros i.
  rewrite (fold_alter_lookup (woken j)) by apply woken_idempotent.
  rewrite list_lookup_fmap.
  destruct (decide (i ∈ seq 0 (length (all_processes s)))) as [Hin|Hnotin];
    [reflexivity|].
  rewrite lookup_ge_None_2; [reflexivity|].
  destruct (decide (i < length (all_processes s))%nat) as [Hlt|]; [|lia].
  exfalso. apply Hnotin. apply elem_of_seq. lia.
Qed.

Lemma due_alter_ne j (l : list custom_pcb) (i k : nat) f :
  i <> k -> due j (alter f i l !!! k) = due j (l !!! k).
Proof.
  intros Hne. rewrite !list_lookup_total_alt.
  rewrite list_lookup_alter_ne by exact Hne. reflexivity.
Qed.

Lemma fold_wake_process_queue j idx s :
  NoDup idx ->
  ready_q_head (fold_left (wake_process j) idx s)
    ≡ₚ due_positions j (all_processes s) idx ++ ready_q_head s /\
  current_proc (fold_left (wake_process j) idx s) = current_proc s /\
  stats (fold_left (wake_process j) idx s) = stats s.
Proof.
  revert s. induction idx as [|i idx IH]; intros s Hnd; simpl;
    [repeat split; reflexivity|].
  apply NoDup_cons in Hnd as [Hi Hnd].
  destruct (IH (wake_process j s i) Hnd) as (Hq & Hcur & Hstats).
  rewrite Hq, Hcur, Hstats. clear Hq Hcur Hstats IH.
  assert (due_positions j (all_processes (wake_process j s i)) idx
          = due_positions j (all_processes s) idx) as ->.
  { unfold due_positions. apply filter_ext_elem_of. intros k Hk.
    rewrite wake_process_all_processes.
    rewrite due_alter_ne by (intros ->; contradiction). reflexivity. }
  unfold due_positions at 2. rewrite filter_cons.
  unfold wake_process. fold (due j (all_processes s !!! i)).
  destruct (due j (all_processes s !!! i)) eqn:Hd.
  - rewrite decide_True by reflexivity. simpl.
    rewrite insert_by_priority_Permutation.
    split; [|split; reflexivity].
    rewrite <- Permutation_middle. reflexivity.
  - rewrite decide_False by discriminate. repeat split; reflexivity.
Qed.

Lemma woken_not_waiting j p : state p <> PROC_WAITING -> woken j p = p.
Proof.
  intros Hst. unfold woken, due. rewrite bool_decide_false by exact Hst.
  reflexivity.
Qed.

Section WithHZ.
Variable HZ : Z.
Variable msecs_to_jiffies : Z -> Z.
Variable jiffies_to_msecs : Z -> Z.

Lemma states_lookup_Some (l : list custom_pcb) i p :
  l !! i = Some p -> (state <$> l) !! i = Some (state p).
Proof. intros Hp. rewrite list_lookup_fmap, Hp. reflexivity. Qed.

Lemma terminated_iteration_begin j1 j2 s i p :
  queue_inv (LoopTop, s) ->
  all_processes s !! i = Some p -> state p = PROC_TERMINATED ->
  all_processes (iteration_begin HZ j1 j2 s).2 !! i = Some p.
Proof.
  intros [Hmem Hcur] Hp Hst. simpl in Hmem, Hcur. unfold iteration_begin.
  destruct (membership_inv_check_waiting_processes j1 s Hmem) as [Hmem1 Hcur1].
  set (s1 := check_waiting_processes j1 s) in *.
  assert (all_processes s1 !! i = Some p) as Hp1.
  { unfold s1. rewrite check_waiting_processes_all_processes, list_lookup_fmap, Hp.
    simpl. rewrite woken_not_waiting by congruence. reflexivity. }
  set (s2 := apply_aging HZ j2 s1).
  assert (all_processes s2 !! i = Some p) as Hp2.
  { destruct (apply_aging_members HZ j2 s1 i) as [Hl _]. unfold s2. rewrite Hl.
    destruct (decide _); [|exact Hp1]. rewrite Hp1. simpl.
    rewrite apply_aging_pcb_not_ready by congruence. reflexivity. }
  assert (membership_inv (ready_q_head s2) (states s2) (current_proc s2))
    as Hmem2.
  { unfold s2. rewrite states_apply_aging. exact Hmem1. }
  clearbody s2. clear Hp1 Hmem1 Hcur1 s1 Hmem Hp.
  assert (all_processes (select_next_process s2).2 !! i = Some p) as Hsel.
  { destruct (ready_q_head s2) as [|proc rest] eqn:Hq;
      unfold select_next_process;
      (destruct (match current_proc s2 with Some _ => _ | None => _ end);
       [exact Hp2|]);
      unfold dequeue_process; rewrite Hq; [exact Hp2|]. simpl.
    rewrite list_lookup_alter_ne; [exact Hp2|]. intros <-.
    destruct Hmem2 as (_ & Hin & _).
    assert (states s2 !! proc = Some PROC_READY) as Hr
      by (apply Hin; apply list_elem_of_here).
    unfold states in Hr. rewrite (states_lookup_Some _ _ _ Hp2) in Hr.
    congruence. }
  destruct (select_next_process s2) as [[proc|] s3]; exact Hsel.
Qed.

Lemma terminated_post_execute proc exec_time j s i p :
  queue_inv (Executing proc exec_time, s) ->
  all_processes s !! i = Some p -> state p = PROC_TERMINATED ->
  all_processes (post_execute jiffies_to_msecs proc exec_time j s) !! i = Some p.
Proof.
  intros [_ Hthread] Hp Hst. simpl in Hthread.
  assert (proc <> i) as Hne.
  { intros ->. unfold states in Hthread.
    rewrite (states_lookup_Some _ _ _ Hp) in Hthread.
    destruct Hthread as [[? _]|[? _]]; congruence. }
  unfold post_execute. cbn zeta.
  set (l2 := map _ (alter _ proc (all_processes s))).
  assert (l2 !! i = Some p) as Hl2.
  { unfold l2. change (map ?f ?l) with (f <$> l).
    rewrite list_lookup_fmap, list_lookup_alter_ne, Hp by exact Hne. simpl.
    rewrite bool_decide_false by congruence. reflexivity. }
  destruct (bool_decide _); [exact Hl2|].
  destruct (_ <=? 0); simpl; rewrite list_lookup_alter_ne by exact Hne;
    exact Hl2.
Qed.

Lemma terminated_kstep e cfg i p :
  queue_inv cfg ->
  all_processes cfg.2 !! i = Some p -> state p = PROC_TERMINATED ->
  all_processes (kstep HZ msecs_to_jiffies jiffies_to_msecs e cfg).2 !! i
    = Some p.
Proof.
  destruct cfg as [pc s]. intros Hinv Hp Hst. simpl in Hp.
  destruct e as [c ok j|q a|j1 j2|j]; simpl.
  - destruct c as [nm b pr|pid w| |]; simpl; try exact Hp.
    + unfold cmd_new. destruct (_ || _ || _); [exact Hp|].
      destruct ok; [|exact Hp]. simpl. apply lookup_app_l_Some. exact Hp.
    + unfold cmd_wait.
      destruct (find_index _ _) as [k|] eqn:Hfind; [|exact Hp].
      destruct (_ || _) eqn:Hor; [|exact Hp]. cbn [snd].
      assert (k <> i) as Hne.
      { intros ->. rewrite (list_lookup_total_correct _ _ _ Hp), Hst in Hor.
        discriminate. }
      destruct (bool_decide _); simpl; rewrite list_lookup_alter_ne by exact Hne;
        exact Hp.
  - exact Hp.
  - destruct pc; try exact Hp. apply terminated_iteration_begin; assumption.
  - destruct pc as [|proc e|]; try exact Hp; simpl.
    apply terminated_post_execute; assumption.
Qed.

Lemma terminated_krun es cfg i p :
  queue_inv cfg ->
  all_processes cfg.2 !! i = Some p -> state p = PROC_TERMINATED ->
  all_processes (krun HZ msecs_to_jiffies jiffies_to_msecs es cfg).2 !! i
    = Some p.
Proof.
  revert cfg. induction es as [|e es IH]; intros cfg Hinv Hp Hst; [exact Hp|].
  simpl. apply IH; [apply queue_inv_kstep; exact Hinv| |exact Hst].
  apply terminated_kstep; assumption.
Qed.

End WithHZ.

(** *** The dispatch *)

Section WithHZ.
Variable HZ : Z.
Variable msecs_to_jiffies : Z -> Z.
Variable jiffies_to_msecs : Z -> Z.

(** The pass idles only when nothing is READY; otherwise it dispatches the
    head of the ready queue. *)
Lemma iteration_begin_outcome j1 j2 s :
  queue_inv (LoopTop, s) ->
  let s2 := apply_aging HZ j2 (check_waiting_processes j1 s) in
  match iteration_begin HZ j1 j2 s with
  | (Idling, s') =>
      Forall (fun p => state p <> PROC_READY /\ state p <> PROC_RUNNING)
        (all_processes s') /\
      ready_q_head s2 = [] /\
      all_processes s' = all_processes s2 /\
      total_idle_time_ms (stats s')
        = to_ulong (total_idle_time_ms (stats s) + to_ulong (time_quantum_ms s))
  | (Executing proc exec_time, s') =>
      head (ready_q_head s2) = Some proc /\
      ready_q_head s' = tail (ready_q_head s2) /\
      all_processes s' = alter (set_state PROC_RUNNING) proc (all_processes s2) /\
      current_proc s' = Some proc /\
      exec_time = Z.min (time_quantum_ms s)
                    (remaining_time_ms (all_processes s2 !!! proc))
  | (LoopTop, _) => False
  end.
Proof.
  intros [Hmem Hcur] s2. simpl in Hmem, Hcur. unfold iteration_begin.
  destruct (membership_inv_check_waiting_processes j1 s Hmem) as [Hmem1 Hcur1].
  assert (membership_inv (ready_q_head s2) (states s2) (current_proc s2))
    as Hmem2.
  { unfold s2. rewrite states_apply_aging. exact Hmem1. }
  assert (current_proc s2 = None) as Hcur2 by (unfold s2; simpl; congruence).
  assert (time_quantum_ms s2 = time_quantum_ms s) as Hq2.
  { unfold s2. simpl. apply time_quantum_check_waiting_processes. }
  assert (stats s2 = stats s) as Hst2.
  { unfold s2. simpl. apply stats_check_waiting_processes. }
  fold s2. clearbody s2.
  destruct (ready_q_head s2) as [|proc rest] eqn:Hhead.
  - assert (select_next_process s2 = (None, s2)) as ->.
    { unfold select_next_process, dequeue_process. rewrite Hcur2, Hhead.
      reflexivity. }
    simpl. rewrite Hq2, Hst2. split; [|repeat split; assumption].
    apply Forall_lookup. intros i p Hp. destruct Hmem2 as (_ & Hin & Hrun).
    apply (states_lookup_Some _ i p) in Hp. fold (states s2) in Hp. split.
    + intros Hr. rewrite Hr in Hp. apply Hin in Hp.
      apply elem_of_nil in Hp. exact Hp.
    + intros Hr. rewrite Hr in Hp. apply Hrun in Hp. congruence.
  - rewrite (select_next_process_dispatch s2 proc rest)
      by (unfold slot_vacant; rewrite ?Hcur2; trivial).
    simpl. rewrite Hq2. repeat split.
    rewrite !list_lookup_total_alt. rewrite list_lookup_alter_eq.
    destruct (all_processes s2 !! proc); reflexivity.
Qed.

End WithHZ.

(** *** The states of the PCBs are set from a fixed set of values *)

Lemma states_kstep HZ mtj jtm (Q : proc_state -> Prop) e cfg :
  Q PROC_READY -> Q PROC_RUNNING -> Q PROC_WAITING -> Q PROC_TERMINATED ->
  Forall Q (states cfg.2) -> Forall Q (states (kstep HZ mtj jtm e cfg).2).
Proof.
  intros Qr Qrun Qw Qt. destruct cfg as [pc s]. simpl.
  assert (forall j s, Forall Q (states s) ->
                      Forall Q (states (check_waiting_processes j s))) as Hcw.
  { intros j s0 H0. unfold states in *.
    rewrite check_waiting_processes_all_processes, <- list_fmap_compose.
    apply Forall_fmap. apply (proj1 (Forall_fmap _ _ _)) in H0.
    eapply List.Forall_impl; [|exact H0]. intros p Hp. simpl in *.
    unfold woken. destruct (due j p); [exact Qr|exact Hp]. }
  assert (forall s, Forall Q (states s) ->
                    Forall Q (states (select_next_process s).2)) as Hsel.
  { intros s0 H0. unfold select_next_process.
    destruct (match current_proc s0 with Some _ => _ | None => _ end);
      [exact H0|].
    unfold dequeue_process. destruct (ready_q_head s0); [exact H0|].
    unfold states. simpl.
    rewrite (states_alter_set _ PROC_RUNNING) by reflexivity.
    apply Forall_insert; assumption. }
  intros Hs. destruct e as [c ok j|q a|j1 j2|j]; simpl.
  - destruct c as [nm b pr|pid w| |]; simpl; try exact Hs.
    + unfold cmd_new. destruct (_ || _ || _); [exact Hs|].
      destruct ok; [|exact Hs]. unfold states. simpl. rewrite fmap_app.
      apply Forall_app. split; [exact Hs|]. repeat constructor. exact Qr.
    + unfold cmd_wait. destruct (find_index _ _) as [k|]; [|exact Hs].
      destruct (_ || _); [|exact Hs]. cbn [snd]. unfold states.
      destruct (bool_decide _); simpl;
        rewrite (states_alter_set _ PROC_WAITING) by reflexivity;
        apply Forall_insert; assumption.
  - exact Hs.
  - destruct pc; try exact Hs. unfold iteration_begin.
    assert (Forall Q (states (apply_aging HZ j2 (check_waiting_processes j1 s))))
      as H2 by (rewrite states_apply_aging; apply Hcw; exact Hs).
    apply Hsel in H2.
    destruct (select_next_process _) as [[proc|] s3]; exact H2.
  - destruct pc as [|proc e|]; try exact Hs; simpl.
    unfold post_execute. cbn zeta.
    set (l2 := map _ (alter _ proc (all_processes s))).
    assert (state <$> l2 = states s) as Hl2
      by apply states_post_execute_slice.
    unfold states.
    destruct (bool_decide _); [simpl; rewrite Hl2; exact Hs|].
    destruct (_ <=? 0); simpl.
    + rewrite (states_alter_set _ PROC_TERMINATED) by reflexivity.
      rewrite Hl2. apply Forall_insert; assumption.
    + rewrite (states_alter_set _ PROC_READY) by reflexivity.
      rewrite Hl2. apply Forall_insert; assumption.
Qed.

Lemma states_krun HZ mtj jtm (Q : proc_state -> Prop) es cfg :
  Q PROC_READY -> Q PROC_RUNNING -> Q PROC_WAITING -> Q PROC_TERMINATED ->
  Forall Q (states cfg.2) -> Forall Q (states (krun HZ mtj jtm es cfg).2).
Proof.
  intros Qr Qrun Qw Qt. revert cfg.
  induction es as [|e es IH]; intros cfg Hcfg; [exact Hcfg|].
  simpl. apply IH. apply states_kstep; assumption.
Qed.

(** *** The counts of the statistics *)

Lemma count_state_positions c (l : list custom_pcb) :
  count_state c l = Z.of_nat (length (positions c (state <$> l))).
Proof.
  unfold count_state. f_equal. rewrite length_positions.
  induction l as [|p l IH]; [reflexivity|].
  rewrite fmap_cons, !filter_cons.
  destruct (decide (state p = c)); simpl; rewrite IH; reflexivity.
Qed.

Lemma membership_inv_counts q (l : list custom_pcb) cur :
  membership_inv q (state <$> l) cur ->
  count_state PROC_READY l = Z.of_nat (length q) /\
  count_state PROC_RUNNING l <= 1 /\
  (cur = None -> count_state PROC_RUNNING l = 0).
Proof.
  intros (Hnd & Hq & Hrun). rewrite !count_state_positions. split; [|split].
  - f_equal. apply Permutation_length. apply NoDup_Permutation.
    + apply NoDup_positions.
    + exact Hnd.
    + intros i. rewrite elem_of_positions. symmetry. apply Hq.
  - pose proof (NoDup_positions PROC_RUNNING (state <$> l)) as Hnd'.
    destruct (positions PROC_RUNNING (state <$> l)) as [|a [|b r]] eqn:Hp;
      simpl; try lia.
    exfalso. apply NoDup_cons in Hnd' as [Hab _]. apply Hab.
    assert (a ∈ positions PROC_RUNNING (state <$> l)) as Ha
      by (rewrite Hp; apply list_elem_of_here).
    assert (b ∈ positions PROC_RUNNING (state <$> l)) as Hb
      by (rewrite Hp; apply list_elem_of_further, list_elem_of_here).
    apply elem_of_positions, Hrun in Ha. apply elem_of_positions, Hrun in Hb.
    assert (a = b) as -> by congruence. apply list_elem_of_here.
  - intros ->.
    destruct (positions PROC_RUNNING (state <$> l)) as [|a r] eqn:Hp;
      [reflexivity|].
    assert (a ∈ positions PROC_RUNNING (state <$> l)) as Ha
      by (rewrite Hp; apply list_elem_of_here).
    apply elem_of_positions, Hrun in Ha. discriminate.
Qed.

Lemma count_state_partition (l : list custom_pcb) :
  Forall (fun c => c <> PROC_NEW) (state <$> l) ->
  count_state PROC_RUNNING l + count_state PROC_READY l
    + count_state PROC_WAITING l + count_state PROC_TERMINATED l
  = Z.of_nat (length l).
Proof.
  unfold count_state. induction l as [|p l IH]; intros Hl; [reflexivity|].
  rewrite fmap_cons in Hl. apply Forall_cons in Hl as [Hp Hl].
  specialize (IH Hl). rewrite !filter_cons. simpl length.
  destruct (state p) eqn:Hst; try contradiction;
    repeat (destruct (decide _) as [?|?]; try congruence);
    simpl length; lia.
Qed.

(** *** The accounting of the CPU time *)

Section WithHZ.
Variable HZ : Z.
Variable msecs_to_jiffies : Z -> Z.
Variable jiffies_to_msecs : Z -> Z.

Lemma total_cpu_iteration_begin j1 j2 s :
  total_cpu_time_ms (stats (iteration_begin HZ j1 j2 s).2)
  = total_cpu_time_ms (stats s).
Proof.
  unfold iteration_begin.
  set (s2 := apply_aging HZ j2 (check_waiting_processes j1 s)).
  assert (stats s2 = stats s) as <-.
  { unfold s2. simpl. apply stats_check_waiting_processes. }
  assert (total_cpu_time_ms (stats (select_next_process s2).2)
          = total_cpu_time_ms (stats s2)) as Hsel.
  { unfold select_next_process.
    destruct (match current_proc s2 with Some _ => _ | None => _ end);
      [reflexivity|].
    unfold dequeue_process. destruct (ready_q_head s2); reflexivity. }
  destruct (select_next_process s2) as [[proc|] s3]; exact Hsel.
Qed.

Lemma stats_cmd_wait pid w j s :
  stats (cmd_wait msecs_to_jiffies pid w j s).2 = stats s.
Proof.
  unfold cmd_wait. destruct (find_index _ _); [|reflexivity].
  destruct (_ || _); [|reflexivity]. simpl.
  destruct (bool_decide _); reflexivity.
Qed.

Lemma work_done_post_execute proc exec_time j s :
  0 <= exec_time <= remaining_time_ms (all_processes s !!! proc) ->
  Forall remaining_bounded (all_processes s) ->
  work_done (all_processes (post_execute jiffies_to_msecs proc exec_time j s))
  = work_done (all_processes s) + exec_time.
Proof.
  intros He Hall. unfold work_done.
  destruct (proj_post_execute_slice work ltac:(reflexivity) ltac:(reflexivity)
              ltac:(reflexivity) ltac:(reflexivity)
              jiffies_to_msecs proc exec_time j s) as [-> _].
  destruct (all_processes s !! proc) as [p|] eqn:Hp.
  - rewrite (foldr_add_alter work _ proc _ p Hp).
    rewrite (list_lookup_total_correct _ _ _ Hp) in He.
    rewrite Forall_lookup in Hall. specialize (Hall proc p Hp).
    destruct Hall as [Hrem Hrange]. unfold int_range in Hrange.
    unfold work. simpl. rewrite to_int_id by (unfold int_range; lia). lia.
  - rewrite list_lookup_total_alt, Hp in He. simpl in He.
    assert (exec_time = 0) as -> by lia.
    rewrite alter_ge by (apply lookup_ge_None; exact Hp). lia.
Qed.

Lemma cpu_inv_kstep e cfg :
  remaining_inv cfg -> cpu_inv cfg.2 ->
  cpu_inv (kstep HZ msecs_to_jiffies jiffies_to_msecs e cfg).2.
Proof.
  destruct cfg as [pc s]. intros (Hq & Hall & Hpc) Hcpu. simpl in *.
  unfold cpu_inv in *.
  destruct e as [c ok j|q a|j1 j2|j]; simpl.
  - destruct c as [nm b pr|pid w| |]; simpl; try exact Hcpu.
    + unfold cmd_new. destruct (_ || _ || _); [exact Hcpu|].
      destruct ok; [|exact Hcpu]. simpl. rewrite Hcpu. f_equal.
      unfold work_done. rewrite fmap_app, foldr_app. simpl.
      f_equal. unfold work. cbn [burst_time_ms remaining_time_ms]. lia.
    + rewrite stats_cmd_wait, Hcpu. f_equal. unfold work_done. f_equal.
      symmetry.
      apply (proj_cmd_wait work ltac:(reflexivity) ltac:(reflexivity)).
  - exact Hcpu.
  - destruct pc; try exact Hcpu.
    rewrite total_cpu_iteration_begin, Hcpu. f_equal. unfold work_done. f_equal.
    symmetry.
    apply (proj_iteration_begin work ltac:(reflexivity) ltac:(reflexivity)
             ltac:(reflexivity)).
  - destruct pc as [|proc e|]; try exact Hcpu; simpl.
    rewrite work_done_post_execute by assumption.
    assert (total_cpu_time_ms (stats (post_execute jiffies_to_msecs proc e j s))
            = to_ulong (total_cpu_time_ms (stats s) + to_ulong e)) as ->.
    { unfold post_execute. cbn zeta. destruct (bool_decide _); [reflexivity|].
      destruct (_ <=? 0); reflexivity. }
    rewrite Hcpu, to_ulong_add_l.
    rewrite (Z.add_comm _ (to_ulong e)), to_ulong_add_l. f_equal. lia.
Qed.

Lemma cpu_inv_krun es quantum aging :
  Forall kevent_in_range es -> 0 <= quantum ->
  cpu_inv (krun HZ msecs_to_jiffies jiffies_to_msecs es
             (LoopTop, kstate_init quantum aging)).2.
Proof.
  intros Hes Hq.
  assert (cpu_inv (LoopTop, kstate_init quantum aging).2) as Hinit
    by reflexivity.
  assert (remaining_inv (LoopTop, kstate_init quantum aging)) as Hrem.
  { split; [exact Hq|]. split; [constructor|exact I]. }
  revert Hinit Hrem. generalize (LoopTop, kstate_init quantum aging).
  induction Hes as [|e es He Hes IH]; intros cfg Hcfg Hrem; [exact Hcfg|].
  simpl. apply IH.
  - apply cpu_inv_kstep; assumption.
  - apply remaining_inv_kstep; assumption.
Qed.

End WithHZ.

(** *** WAIT and wakeup *)

(** [time_after_eq] on two readings taken less than 2^63 ticks after a
    common origin compares the two distances. *)
Lemma time_after_eq_offsets j0 t d :
  0 <= t < 2 ^ 63 -> 0 <= d < 2 ^ 63 ->
  time_after_eq (to_ulong (j0 + t)) (to_ulong (j0 + d)) = (d <=? t).
Proof.
  intros Ht Hd. unfold time_after_eq. rewrite to_long_sub_ulong.
  replace (j0 + t - (j0 + d)) with (t - d) by lia.
  rewrite to_long_id by lia.
  destruct (d <=? t) eqn:Hle; [apply Z.leb_le in Hle; apply Z.leb_le; lia|].
  apply Z.leb_gt in Hle. apply Z.leb_gt. lia.
Qed.

Section WithHZ.
Variable HZ : Z.
Variable msecs_to_jiffies : Z -> Z.
Variable jiffies_to_msecs : Z -> Z.

(** A slice is charged as waiting time to the PCBs that are READY when it
    ends, and to no other. *)
Lemma post_execute_charges proc exec_time j s i p :
  i <> proc -> all_processes s !! i = Some p ->
  all_processes (post_execute jiffies_to_msecs proc exec_time j s) !! i =
    Some (if bool_decide (state p = PROC_READY)
          then set_wait_time_ms
                 (to_ulong (wait_time_ms p + to_ulong exec_time)) p
          else p).
Proof.
  intros Hne Hp. unfold post_execute. cbn zeta.
  set (l2 := map _ (alter _ proc (all_processes s))).
  assert (l2 !! i =
            Some (if bool_decide (state p = PROC_READY)
                  then set_wait_time_ms
                         (to_ulong (wait_time_ms p + to_ulong exec_time)) p
                  else p)) as Hl2.
  { unfold l2. change (map ?f ?l) with (f <$> l).
    rewrite list_lookup_fmap, list_lookup_alter_ne, Hp by auto. reflexivity. }
  destruct (bool_decide (state _ = PROC_WAITING)); [exact Hl2|].
  destruct (_ <=? 0); simpl; rewrite list_lookup_alter_ne by auto; exact Hl2.
Qed.

Lemma wait_then_wake pc pid w j0 j s i :
  queue_inv (pc, s) ->
  find_index (fun p => Kmod.pid p =? pid) (all_processes s) = Some i ->
  state (all_processes s !!! i) = PROC_RUNNING \/
    state (all_processes s !!! i) = PROC_READY ->
  let deadline := to_ulong (j0 + msecs_to_jiffies w) in
  let s1 := (cmd_wait msecs_to_jiffies pid w j0 s).2 in
  let s2 := check_waiting_processes j s1 in
  state (all_processes s1 !!! i) = PROC_WAITING /\
  wakeup_time_jiffies (all_processes s1 !!! i) = deadline /\
  (i ∉ ready_q_head s1) /\
  if time_after_eq j deadline
  then state (all_processes s2 !!! i) = PROC_READY /\
       last_update_jiffies (all_processes s2 !!! i) = j /\
       i ∈ ready_q_head s2
  else state (all_processes s2 !!! i) = PROC_WAITING /\
       (i ∉ ready_q_head s2).
Proof.
  intros Hinv Hfind Hst deadline s1 s2.
  pose proof (queue_inv_cmd_wait msecs_to_jiffies pid w j0 pc s Hinv)
    as [(Hnd1 & Hq1 & _) _]. fold s1 in Hnd1, Hq1. simpl in Hnd1, Hq1.
  pose proof (find_index_lt _ _ _ Hfind) as Hlt.
  destruct (lookup_lt_is_Some_2 _ _ Hlt) as [p0 Hp0].
  rewrite (list_lookup_total_correct _ _ _ Hp0) in Hst.
  assert (all_processes s1 !! i =
            Some (set_wakeup_time_jiffies deadline
                    (set_state PROC_WAITING p0))) as Hp1.
  { unfold s1, cmd_wait. rewrite Hfind.
    rewrite (list_lookup_total_correct _ _ _ Hp0).
    destruct Hst as [Hst|Hst]; rewrite Hst; cbn [bool_decide orb snd]; simpl;
      rewrite list_lookup_alter_eq, Hp0; reflexivity. }
  assert (i ∉ ready_q_head s1) as Hnotin1.
  { intros Hin. apply Hq1 in Hin. unfold states in Hin.
    rewrite (states_lookup_Some _ _ _ Hp1) in Hin. discriminate. }
  rewrite (list_lookup_total_correct _ _ _ Hp1).
  split; [reflexivity|]. split; [reflexivity|]. split; [exact Hnotin1|].
  assert (all_processes s2 !! i =
            Some (woken j (set_wakeup_time_jiffies deadline
                             (set_state PROC_WAITING p0)))) as Hp2.
  { unfold s2. rewrite check_waiting_processes_all_processes, list_lookup_fmap,
      Hp1. reflexivity. }
  rewrite (list_lookup_total_correct _ _ _ Hp2).
  destruct (fold_wake_process_queue j (seq 0 (length (all_processes s1))) s1
              (NoDup_seq _ _)) as (Hq2 & _).
  fold (check_waiting_processes j s1) in Hq2. fold s2 in Hq2.
  assert (due j (set_wakeup_time_jiffies deadline (set_state PROC_WAITING p0))
          = time_after_eq j deadline) as Hdue by reflexivity.
  unfold woken. rewrite Hdue.
  destruct (time_after_eq j deadline) eqn:Hd.
  - split; [reflexivity|]. split; [reflexivity|].
    rewrite Hq2. apply elem_of_app. left. unfold due_positions.
    apply list_elem_of_filter. split.
    + rewrite (list_lookup_total_correct _ _ _ Hp1). exact Hdue.
    + apply elem_of_seq. apply lookup_lt_Some in Hp1. lia.
  - split; [reflexivity|]. rewrite Hq2. intros Hin.
    apply elem_of_app in Hin as [Hin|Hin]; [|contradiction].
    unfold due_positions in Hin. apply list_elem_of_filter in Hin as [Hin _].
    rewrite (list_lookup_total_correct _ _ _ Hp1), Hdue in Hin.
    discriminate.
Qed.

End WithHZ.

(** *** The two critical sections of a NEW write *)

Lemma find_index_app_last {A} (f : A -> bool) (l : list A) (x : A) :
  Forall (fun y => f y = false) l -> f x = true ->
  find_index f (l ++ [x]) = Some (length l).
Proof.
  intros Hl Hx. induction Hl as [|y l Hy Hl IH]; simpl.
  - rewrite Hx. reflexivity.
  - rewrite Hy, IH. reflexivity.
Qed.

Lemma cmd_new_link_enqueue name burst_time priority alloc_ok jiffies s :
  cmd_new name burst_time priority alloc_ok jiffies s =
    match cmd_new_link name burst_time priority alloc_ok jiffies s with
    | (r, Some proc, s1) => (r, enqueue_process proc s1)
    | (r, None, s1) => (r, s1)
    end.
Proof.
  unfold cmd_new, cmd_new_link.
  destruct (_ || _); [reflexivity|]. destruct alloc_ok; reflexivity.
Qed.

Section WithHZ.
Variable jiffies_to_msecs : Z -> Z.

(** *** The end of a slice *)

Lemma post_execute_running_spec proc jiffies s :
  (proc < length (all_processes s))%nat ->
  state (all_processes s !!! proc) = PROC_RUNNING ->
  remaining_bounded (all_processes s !!! proc) ->
  0 <= time_quantum_ms s ->
  let p := all_processes s !!! proc in
  let exec_time := Z.min (time_quantum_ms s) (remaining_time_ms p) in
  let s' := post_execute jiffies_to_msecs proc exec_time jiffies s in
  let p' := all_processes s' !!! proc in
  remaining_time_ms p' = remaining_time_ms p - exec_time /\
  if remaining_time_ms p <=? time_quantum_ms s
  then state p' = PROC_TERMINATED /\
       remaining_time_ms p' = 0 /\
       ready_q_head s' = ready_q_head s
  else state p' = PROC_READY /\
       0 < remaining_time_ms p' /\
       ready_q_head s' =
         insert_by_priority (all_processes s') proc (ready_q_head s).
Proof.
  intros Hlt Hrun [[Hr0 Hrb] Hb] Hq p exec_time.
  destruct (lookup_lt_is_Some_2 _ _ Hlt) as [p0 Hp0].
  assert (p = p0) as Hp by (apply list_lookup_total_correct; exact Hp0).
  fold p in Hrun, Hr0, Hrb, Hb.
  assert (to_int (remaining_time_ms p - exec_time)
          = remaining_time_ms p - exec_time) as Hint.
  { apply to_int_id. unfold int_range in *. unfold exec_time. lia. }
  unfold post_execute. cbn zeta.
  set (l2 := map _ (alter _ proc (all_processes s))).
  assert (l2 !! proc =
            Some (set_remaining_time_ms (remaining_time_ms p - exec_time) p))
    as Hl2.
  { unfold l2. change (map ?f ?l) with (f <$> l).
    rewrite list_lookup_fmap, list_lookup_alter_eq, Hp0, <- Hp.
    cbn [fmap option_fmap option_map state set_remaining_time_ms].
    rewrite Hrun, bool_decide_false by discriminate.
    rewrite Hint. reflexivity. }
  cbn [all_processes set_stats set_all_processes].
  rewrite (list_lookup_total_correct _ _ _ Hl2).
  cbn [state remaining_time_ms set_remaining_time_ms].
  rewrite Hrun, bool_decide_false by discriminate.
  destruct (Z.leb_spec (remaining_time_ms p - exec_time) 0) as [Hle|Hgt];
    cbn [all_processes set_current_proc set_all_processes
           enqueue_process set_ready_q current_proc ready_q_head].
  - erewrite list_lookup_total_correct
      by (rewrite list_lookup_alter_eq, Hl2; reflexivity).
    rewrite (proj2 (Z.leb_le _ _)) by (unfold exec_time in *; lia).
    simpl. unfold exec_time in *. repeat split; lia.
  - erewrite list_lookup_total_correct
      by (rewrite list_lookup_alter_eq, Hl2; reflexivity).
    rewrite (proj2 (Z.leb_gt _ _)) by (unfold exec_time in *; lia).
    simpl. repeat split. exact Hgt.
Qed.

Lemma post_execute_waiting_advance proc exec_time jiffies s :
  (proc < length (all_processes s))%nat ->
  state (all_processes s !!! proc) = PROC_WAITING ->
  let p := all_processes s !!! proc in
  let s' := post_execute jiffies_to_msecs proc exec_time jiffies s in
  let p' := all_processes s' !!! proc in
  remaining_time_ms p' = to_int (remaining_time_ms p - exec_time) /\
  state p' = PROC_WAITING /\
  ready_q_head s' = ready_q_head s.
Proof.
  intros Hlt Hw p. unfold post_execute. cbn zeta.
  set (l2 := map _ (alter _ proc (all_processes s))).
  destruct (lookup_lt_is_Some_2 _ _ Hlt) as [p0 Hp0].
  assert (p = p0) as Hp by (apply list_lookup_total_correct; exact Hp0).
  fold p in Hw.
  assert (l2 !! proc =
            Some (set_remaining_time_ms
                    (to_int (remaining_time_ms p - exec_time)) p)) as Hl2.
  { unfold l2. change (map ?f ?l) with (f <$> l).
    rewrite list_lookup_fmap, list_lookup_alter_eq, Hp0, <- Hp.
    cbn [fmap option_fmap option_map state set_remaining_time_ms].
    rewrite Hw, bool_decide_false by discriminate. reflexivity. }
  cbn [all_processes set_stats set_all_processes].
  rewrite (list_lookup_total_correct _ _ _ Hl2).
  cbn [state set_remaining_time_ms].
  rewrite bool_decide_true by exact Hw.
  cbn [all_processes set_current_proc set_all_processes set_stats
         ready_q_head].
  rewrite (list_lookup_total_correct _ _ _ Hl2).
  repeat split. exact Hw.
Qed.

End WithHZ.

End KmodLaws.

(** * The claims *)

(** C1.  [ReadyQueue::applyAging] of the simulator does not compute
    [max(0, base - waited / factor)]: for the ready process of base priority
    5 that has 100 ms of wait and the default factor 5 it sets the effective
    priority to [5 + 100 / 5 = 25]; a factor 0 is a division by zero and a
    negative factor changes the priority, where the claim asks for a no-op. *)
Theorem sim_applyAging_adds_to_priority :
  Sim.ReadyQueue_applyAging 5 [Scenario.waited_100] [0%nat]
    = Some ([Sim.set_effectivePriority 25 Scenario.waited_100], [0%nat]) /\
  Sim.ReadyQueue_applyAging 0 [Scenario.waited_100] [0%nat] = None /\
  Sim.ReadyQueue_applyAging (-5) [Scenario.waited_100] [0%nat]
    = Some ([Sim.set_effectivePriority (-15) Scenario.waited_100], [0%nat]).
Proof. repeat split; vm_compute; reflexivity. Qed.

(** C2.  After two creations with priority 5 and one pass of the loop, the
    simulator holds a PCB of base priority 5 and effective priority 25: the
    bound [0 <= effective <= base <= 10] is lost at the first aging. *)
Theorem sim_aging_breaks_priority_bound :
  exists s,
    Sim.run Scenario.two_processes Sim.Scheduler_new = Some s /\
    map (fun p => (Sim.basePriority_ p, Sim.effectivePriority_ p))
      (Sim.allProcesses_ s) = [(5, 5); (5, 25)] /\
    ~ Forall Sim.priority_bounded (Sim.allProcesses_ s).
Proof.
  eexists. split; [vm_compute; reflexivity|]. split; [reflexivity|].
  intros Hall. apply Forall_cons in Hall as [_ Hall].
  apply Forall_cons in Hall as [[[_ Hle] _] _]. simpl in Hle. lia.
Qed.

(** C3.  In the kernel module [apply_aging] rewrites the keys in place and
    leaves the list as it is.  At the fifth pass of the run, after the
    aging, the ready queue is R (effective priority 2) before B (effective
    priority 1), and the dispatch takes R. *)
Theorem kmod_aging_leaves_queue_unsorted :
  let s := (Scenario.krun Scenario.aging_run Scenario.kernel_start).2 in
  let s' := Kmod.apply_aging Scenario.HZ 4500
              (Kmod.check_waiting_processes 4500 s) in
  map (fun p => (Kmod.pid p, Kmod.state p, Kmod.effective_priority p))
    (Kmod.all_processes s)
    = [(2, Kmod.PROC_TERMINATED, 0); (3, Kmod.PROC_READY, 0);
       (4, Kmod.PROC_READY, 1)] /\
  Kmod.ready_q_head s = [1%nat; 2%nat] /\
  Kmod.ready_q_head s' = [1%nat; 2%nat] /\
  map (fun p => (Kmod.pid p, Kmod.state p, Kmod.effective_priority p))
    (Kmod.all_processes s')
    = [(2, Kmod.PROC_TERMINATED, 0); (3, Kmod.PROC_READY, 2);
       (4, Kmod.PROC_READY, 1)] /\
  (Kmod.dequeue_process s').1 = Some 1%nat /\
  (Scenario.krun (Scenario.aging_run ++ [Kmod.KBegin 4500 4500])
     Scenario.kernel_start).1 = Kmod.Executing 1 1000.
Proof. vm_compute. repeat split. Qed.

(** C4.  A process killed while READY stays in the ready queue of the
    simulator; the next dispatch dequeues it, marks it RUNNING again and
    executes it: its remaining time drops from 300 to 200, it occupies the
    running slot, and the count of terminated processes is back to 0. *)
Theorem sim_killed_ready_process_runs :
  exists s1 s2,
    Sim.run Scenario.kill_ready Sim.Scheduler_new = Some s1 /\
    Sim.run Scenario.kill_ready_then_run Sim.Scheduler_new = Some s2 /\
    map (fun p => (Sim.pid_ p, Sim.state_ p, Sim.remainingTime_ p))
      (Sim.allProcesses_ s1) = [(1, Sim.TERMINATED, 300)] /\
    Sim.terminatedProcesses (Sim.stats_ s1) = 1 /\
    Sim.readyQueue_ s1 = [0%nat] /\
    map (fun p => (Sim.pid_ p, Sim.state_ p, Sim.remainingTime_ p))
      (Sim.allProcesses_ s2) = [(1, Sim.RUNNING, 200)] /\
    Sim.currentProcess_ s2 = Some 0%nat /\
    Sim.terminatedProcesses (Sim.stats_ s2) = 0.
Proof.
  do 2 eexists. split; [vm_compute; reflexivity|].
  split; [vm_compute; reflexivity|]. repeat split.
Qed.

(** C5, against the claim as stated: [createProcess] of the simulator checks
    nothing.  With priority 11 and burst 0 it allocates a PCB, consumes pid
    1 and enqueues the PCB. *)
Lemma sim_createProcess_accepts_out_of_range :
  exists s,
    Sim.do_event Scenario.create_out_of_range Sim.Scheduler_new = Some s /\
    s <> Sim.Scheduler_new /\
    map (fun p => (Sim.pid_ p, Sim.state_ p, Sim.basePriority_ p,
                   Sim.burstTime_ p))
      (Sim.allProcesses_ s) = [(1, Sim.READY, 11, 0)] /\
    Sim.nextPid s = 2 /\
    Sim.readyQueue_ s = [0%nat].
Proof.
  eexists. split; [vm_compute; reflexivity|].
  split; [discriminate|]. repeat split.
Qed.

(** C5, amended.  The NEW command of the kernel module rejects a burst that
    is not positive and a priority outside [0,10] with EINVAL and fails with
    ENOMEM when the allocation fails, leaving the state as it was; otherwise
    it appends a READY PCB with the next pid, effective priority equal to
    the base priority and remaining time equal to the burst, and inserts it
    into the ready queue.  [createProcess] of the simulator does the same
    allocation for every argument: it has no rejection. *)
Theorem create_admission
    (ks : Kmod.kstate) (name : string) (burst_time priority : Z)
    (bad_burst bad_priority : Z) (alloc_ok : bool) (jiffies : Z)
    (s : Sim.Scheduler) (sname : string)
    (spriority sburst arrival now : Z) :
  bad_burst <= 0 \/ bad_priority < 0 \/ 10 < bad_priority ->
  0 < burst_time ->
  0 <= priority <= 10 ->
  Kmod.cmd_new name bad_burst bad_priority alloc_ok jiffies ks
    = (Kmod.EINVAL, ks) /\
  Kmod.cmd_new name burst_time priority false jiffies ks
    = (Kmod.ENOMEM, ks) /\
  (let r := Kmod.cmd_new name burst_time priority true jiffies ks in
   r.1 = Kmod.Written /\
   Kmod.all_processes r.2 =
     Kmod.all_processes ks ++
       [Kmod.mkPcb (to_int (Kmod.next_pid ks + 1)) (Kmod.strncpy 31 name)
          priority priority burst_time burst_time Kmod.PROC_READY
          jiffies 0 0 jiffies 0] /\
   Kmod.next_pid r.2 = to_int (Kmod.next_pid ks + 1) /\
   Kmod.ready_q_head r.2 ≡ₚ
     length (Kmod.all_processes ks) :: Kmod.ready_q_head ks /\
   Kmod.current_proc r.2 = Kmod.current_proc ks) /\
  (let r := Sim.createProcess sname spriority sburst arrival now s in
   r.1 = length (Sim.allProcesses_ s) /\
   Sim.nextPid r.2 = Sim.nextPid s + 1 /\
   length (Sim.allProcesses_ r.2) = S (length (Sim.allProcesses_ s)) /\
   (exists p, Sim.allProcesses_ r.2 !! r.1 = Some p /\
              Sim.pid_ p = Sim.nextPid s /\
              Sim.basePriority_ p = spriority /\
              Sim.effectivePriority_ p = spriority /\
              Sim.burstTime_ p = sburst /\
              Sim.remainingTime_ p = sburst /\
              Sim.state_ p = Sim.READY) /\
   Sim.readyQueue_ r.2 ≡ₚ r.1 :: Sim.readyQueue_ s /\
   Sim.currentProcess_ r.2 = Sim.currentProcess_ s).
Proof.
  intros Hbad Hburst Hprio. split; [|split; [|split]].
  - unfold Kmod.cmd_new.
    assert ((bad_burst <=? 0) || (bad_priority <? 0) || (10 <? bad_priority)
            = true) as ->; [|reflexivity].
    destruct Hbad as [H|[H|H]].
    + apply Z.leb_le in H. rewrite H. reflexivity.
    + apply Z.ltb_lt in H. rewrite H. apply orb_true_iff. left.
      apply orb_true_r.
    + apply Z.ltb_lt in H. rewrite H. apply orb_true_r.
  - unfold Kmod.cmd_new.
    assert ((burst_time <=? 0) || (priority <? 0) || (10 <? priority)
            = false) as ->; [|reflexivity].
    rewrite (proj2 (Z.leb_gt _ _)), (proj2 (Z.ltb_ge _ _)),
      (proj2 (Z.ltb_ge _ _)) by lia. reflexivity.
  - unfold Kmod.cmd_new.
    assert ((burst_time <=? 0) || (priority <? 0) || (10 <? priority)
            = false) as ->.
    { rewrite (proj2 (Z.leb_gt _ _)), (proj2 (Z.ltb_ge _ _)),
        (proj2 (Z.ltb_ge _ _)) by lia. reflexivity. }
    cbn. repeat split. apply insert_by_priority_Permutation.
  - unfold Sim.createProcess. cbn [fst snd]. simpl.
    split; [reflexivity|]. split; [reflexivity|].
    split; [rewrite length_map, length_alter, length_app; simpl; lia|].
    split.
    + change (map ?f ?l) with (f <$> l).
      rewrite list_lookup_fmap, list_lookup_alter_eq.
      rewrite lookup_app_r by lia. rewrite Nat.sub_diag. simpl.
      eexists. split; [reflexivity|].
      rewrite !SimFacts.state_updateStats_process.
      unfold Sim.updateStats_process. simpl. repeat split.
    + split; [|reflexivity]. apply SimFacts.pq_push_Permutation.
Qed.

(** The admission at the commands [NEW foo 0 5], [NEW foo 500 11] and
    [NEW foo 500 5] on a fresh module, and at a first [createProcess]. *)
Lemma create_admission_witness :
  Kmod.cmd_new "foo" 0 5 true 0 (Kmod.kstate_init 100 5)
    = (Kmod.EINVAL, Kmod.kstate_init 100 5) /\
  Kmod.cmd_new "foo" 500 11 true 0 (Kmod.kstate_init 100 5)
    = (Kmod.EINVAL, Kmod.kstate_init 100 5) /\
  (Kmod.cmd_new "foo" 500 5 true 0 (Kmod.kstate_init 100 5)).1 = Kmod.Written /\
  Kmod.next_pid (Kmod.cmd_new "foo" 500 5 true 0 (Kmod.kstate_init 100 5)).2
    = 2 /\
  (Sim.createProcess "foo" 5 500 0 0 Sim.Scheduler_new).1 = 0%nat.
Proof.
  pose proof (create_admission (Kmod.kstate_init 100 5) "foo" 500 5 0 5
                true 0 Sim.Scheduler_new "foo" 5 500 0 0
                ltac:(left; lia) ltac:(lia) ltac:(lia))
    as (Hburst & _ & (Hres & _ & Hpid & _) & (Hnew & _)).
  pose proof (create_admission (Kmod.kstate_init 100 5) "foo" 500 5 500 11
                true 0 Sim.Scheduler_new "foo" 5 500 0 0
                ltac:(right; right; lia) ltac:(lia) ltac:(lia))
    as (Hprio & _).
  split; [exact Hburst|]. split; [exact Hprio|]. split; [exact Hres|].
  split; [exact Hpid|exact Hnew].
Defined.

(** C6, against the claim as stated: [blockProcess] of the simulator on a
    READY process leaves it READY and in the ready queue, and the blocked
    list stays empty. *)
Lemma sim_blockProcess_ignores_ready :
  exists s,
    Sim.run Scenario.block_ready Sim.Scheduler_new = Some s /\
    map (fun p => (Sim.pid_ p, Sim.state_ p)) (Sim.allProcesses_ s)
      = [(1, Sim.READY)] /\
    Sim.readyQueue_ s = [0%nat] /\
    Sim.blockedProcesses_ s = [].
Proof. eexists. split; [vm_compute; reflexivity|]. repeat split. Qed.

(** C6, amended.  The WAIT command of the kernel module, for the PCB of a
    known pid: if it is RUNNING it is marked WAITING with the wakeup
    deadline [jiffies + msecs_to_jiffies(wait_ms)] and the running slot is
    cleared at once; if it is READY it is removed from the ready queue and
    marked WAITING with that deadline (the WAITING PCBs with their deadlines
    are the blocked set); in any other state nothing changes.
    [blockProcess] of the simulator marks a RUNNING PCB WAITING and touches
    neither the running slot nor the ready queue nor the blocked list; when
    no PCB of that pid is RUNNING (READY included) no PCB changes state. *)
Theorem block_by_state
    (msecs_to_jiffies : Z -> Z) (ks : Kmod.kstate) (pid wait_ms jiffies : Z)
    (i : nat) (s : Sim.Scheduler) (spid now : Z) :
  find_index (fun p => Kmod.pid p =? pid) (Kmod.all_processes ks) = Some i ->
  (let r := Kmod.cmd_wait msecs_to_jiffies pid wait_ms jiffies ks in
   let blocked p :=
     Kmod.set_wakeup_time_jiffies
       (to_ulong (jiffies + msecs_to_jiffies wait_ms))
       (Kmod.set_state Kmod.PROC_WAITING p) in
   match Kmod.state (Kmod.all_processes ks !!! i) with
   | Kmod.PROC_RUNNING =>
       Kmod.all_processes r.2 = alter blocked i (Kmod.all_processes ks) /\
       Kmod.current_proc r.2 = None /\
       Kmod.ready_q_head r.2 = Kmod.ready_q_head ks
   | Kmod.PROC_READY =>
       Kmod.all_processes r.2 = alter blocked i (Kmod.all_processes ks) /\
       Kmod.ready_q_head r.2 = filter (fun j => j <> i) (Kmod.ready_q_head ks) /\
       (i ∉ Kmod.ready_q_head r.2) /\
       Kmod.current_proc r.2 = Kmod.current_proc ks
   | _ => r.2 = ks
   end) /\
  (let s' := Sim.blockProcess spid now s in
   Sim.currentProcess_ s' = Sim.currentProcess_ s /\
   Sim.readyQueue_ s' = Sim.readyQueue_ s /\
   Sim.blockedProcesses_ s' = Sim.blockedProcesses_ s /\
   map Sim.state_ (Sim.allProcesses_ s') =
     match find_index
             (fun p => (Sim.pid_ p =? spid)
                       && bool_decide (Sim.state_ p = Sim.RUNNING))
             (Sim.allProcesses_ s) with
     | Some j => <[j := Sim.WAITING]> (map Sim.state_ (Sim.allProcesses_ s))
     | None => map Sim.state_ (Sim.allProcesses_ s)
     end).
Proof.
  intros Hfind. split.
  - unfold Kmod.cmd_wait. rewrite Hfind.
    destruct (Kmod.state (Kmod.all_processes ks !!! i)) eqn:Hst; cbn;
      try reflexivity.
    + repeat split. intros Hin. apply list_elem_of_filter in Hin as [Hne _].
      apply Hne. reflexivity.
    + repeat split.
  - unfold Sim.blockProcess. cbn zeta.
    rewrite SimFacts.map_state_updateStats.
    destruct (find_index _ (Sim.allProcesses_ s)) as [j|]; simpl.
    + repeat split. apply SimFacts.map_state_alter_setState.
    + repeat split.
Qed.

(** The WAIT command on the READY process R of the aging run, and
    [blockProcess] on the running process of the simulator. *)
Lemma block_by_state_witness :
  find_index (fun p => Kmod.pid p =? 3)
    (Kmod.all_processes Scenario.aging_run_state) = Some 1%nat /\
  Kmod.state (Kmod.all_processes Scenario.aging_run_state !!! 1%nat)
    = Kmod.PROC_READY /\
  Kmod.ready_q_head Scenario.aging_run_state = [1%nat; 2%nat] /\
  Kmod.ready_q_head
    (Kmod.cmd_wait Scenario.msecs_to_jiffies 3 250 4600
       Scenario.aging_run_state).2 = [2%nat] /\
  Sim.readyQueue_ (Sim.blockProcess 1 150 Scenario.two_processes_state)
    = Sim.readyQueue_ Scenario.two_processes_state.
Proof.
  pose proof (block_by_state Scenario.msecs_to_jiffies
                Scenario.aging_run_state 3 250 4600 1
                Scenario.two_processes_state 1 150 eq_refl)
    as [Hk (_ & Hq & _)].
  split; [reflexivity|]. split; [reflexivity|]. split; [reflexivity|].
  split; [|exact Hq].
  change (Kmod.state (Kmod.all_processes Scenario.aging_run_state !!! 1%nat))
    with Kmod.PROC_READY in Hk.
  destruct Hk as (_ & Hrq & _). exact Hrq.
Defined.

(** C7.  When [blockProcess] marks the running process WAITING, the loop of
    the simulator leaves it in the running slot: after three more passes the
    slot still holds it and the ready process B has not been dispatched. *)
Theorem sim_waiting_process_keeps_slot :
  exists s1 s2,
    Sim.run Scenario.block_running Sim.Scheduler_new = Some s1 /\
    Sim.run Scenario.block_running_then_run Sim.Scheduler_new = Some s2 /\
    Sim.currentProcess_ s1 = Some 0%nat /\
    map (fun p => (Sim.pid_ p, Sim.state_ p, Sim.remainingTime_ p))
      (Sim.allProcesses_ s1) = [(1, Sim.WAITING, 200); (2, Sim.READY, 300)] /\
    Sim.currentProcess_ s2 = Some 0%nat /\
    Sim.readyQueue_ s2 = [1%nat] /\
    map (fun p => (Sim.pid_ p, Sim.state_ p, Sim.remainingTime_ p))
      (Sim.allProcesses_ s2) = [(1, Sim.WAITING, 200); (2, Sim.READY, 300)].
Proof.
  do 2 eexists. split; [vm_compute; reflexivity|].
  split; [vm_compute; reflexivity|]. repeat split.
Qed.

(** C8, against the claim as stated: a dispatch of the simulator moves the
    ready process into the empty running slot and leaves the context-switch
    counter at 0, also after the whole pass of the loop. *)
Lemma sim_dispatch_does_not_count :
  exists s s',
    Sim.run Scenario.one_ready Sim.Scheduler_new = Some s /\
    Sim.currentProcess_ s = None /\
    Sim.readyQueue_ s = [0%nat] /\
    Sim.currentProcess_ (Sim.selectNextProcess s) = Some 0%nat /\
    Sim.switches s = 0 /\
    Sim.switches (Sim.selectNextProcess s) = 0 /\
    Sim.do_event (Sim.EvLoop 0 100) s = Some s' /\
    Sim.currentProcess_ s' = Some 0%nat /\
    Sim.switches s' = 0.
Proof.
  do 2 eexists. split; [vm_compute; reflexivity|].
  do 5 (split; [reflexivity|]).
  split; [vm_compute; reflexivity|]. split; reflexivity.
Qed.

(** C8, amended.  In the kernel module every dispatch by
    [select_next_process] (the running slot holds no RUNNING process and the
    ready queue is not empty) increments [context_switches] by exactly one,
    modulo 2^64 since the counter is an [unsigned long]; over any sequence
    of steps of the module that cannot wrap it, the counter does not
    decrease and grows by at most one per step.  In the simulator no step,
    the dispatch included, changes [contextSwitchCount]. *)
Theorem context_switch_counter
    (HZ : Z) (msecs_to_jiffies jiffies_to_msecs : Z -> Z)
    (ks : Kmod.kstate) (proc : nat) (rest : list nat)
    (kes : list Kmod.kevent) (cfg : Kmod.thread_pc * Kmod.kstate)
    (es : list Sim.event) (s s' : Sim.Scheduler) :
  Kmod.slot_vacant ks ->
  Kmod.ready_q_head ks = proc :: rest ->
  ulong_range (Kmod.switches ks + 1) ->
  ulong_range (Kmod.switches cfg.2) ->
  Kmod.switches cfg.2 + Z.of_nat (length kes) < 2 ^ 64 ->
  Sim.run es s = Some s' ->
  ((Kmod.select_next_process ks).1 = Some proc /\
   Kmod.current_proc (Kmod.select_next_process ks).2 = Some proc /\
   Kmod.ready_q_head (Kmod.select_next_process ks).2 = rest /\
   Kmod.switches (Kmod.select_next_process ks).2
     = to_ulong (Kmod.switches ks + 1) /\
   Kmod.switches (Kmod.select_next_process ks).2 = Kmod.switches ks + 1) /\
  Kmod.switches cfg.2
    <= Kmod.switches (Kmod.krun HZ msecs_to_jiffies jiffies_to_msecs kes cfg).2
    <= Kmod.switches cfg.2 + Z.of_nat (length kes) /\
  Sim.switches s' = Sim.switches s /\
  Sim.switches (Sim.selectNextProcess s) = Sim.switches s.
Proof.
  intros Hvacant Hq Hone Hr Hb Hrun. split; [|split; [|split]].
  - rewrite (KmodFacts.select_next_process_dispatch ks proc rest Hvacant Hq).
    cbn. repeat split. unfold Kmod.switches in *. apply to_ulong_id. exact Hone.
  - apply KmodFacts.switches_krun; assumption.
  - apply (SimFacts.switches_run es s s' Hrun).
  - apply SimFacts.switches_selectNextProcess.
Qed.

(** The counter along the aging run: four dispatches, the fifth one next. *)
Lemma context_switch_counter_witness :
  Kmod.slot_vacant Scenario.aging_run_state /\
  Kmod.ready_q_head Scenario.aging_run_state = [1%nat; 2%nat] /\
  Kmod.switches Scenario.aging_run_state = 4 /\
  Kmod.switches (Kmod.select_next_process Scenario.aging_run_state).2 = 5 /\
  0 <= Kmod.switches (Scenario.krun Scenario.aging_run Scenario.kernel_start).2
    <= 11 /\
  Sim.switches Scenario.two_processes_state = 0.
Proof.
  pose proof (context_switch_counter Scenario.HZ Scenario.msecs_to_jiffies
                Scenario.jiffies_to_msecs Scenario.aging_run_state 1 [2%nat]
                Scenario.aging_run Scenario.kernel_start
                Scenario.two_processes Sim.Scheduler_new
                Scenario.two_processes_state
                I eq_refl
                ltac:(split; [discriminate|reflexivity])
                ltac:(split; [discriminate|reflexivity])
                eq_refl eq_refl)
    as ((_ & _ & _ & _ & Hone) & Hmono & Hsim & _).
  split; [exact I|]. split; [reflexivity|]. split; [reflexivity|].
  split; [exact Hone|]. split; [exact Hmono|exact Hsim].
Defined.






(** * Further properties of the code *)

(** ** The kernel module *)

(** X1.  In the executions of the kernel module in which the writes to
    /proc/sched_stats and the two halves of a pass of the scheduler thread
    run one at a time (none inside another), the ready queue holds, between
    any two of them, exactly the PCBs whose state is READY, each of them
    once, and a PCB that is RUNNING is the one in the running slot (so at
    most one is).  Inside a NEW write, between its two critical sections,
    the new PCB is READY and not yet in the queue (X30). *)
Theorem kmod_ready_queue_holds_ready_processes
    (HZ : Z) (msecs_to_jiffies jiffies_to_msecs : Z -> Z)
    (es : list Kmod.kevent) (quantum aging : Z) :
  let s := (Kmod.krun HZ msecs_to_jiffies jiffies_to_msecs es
              (Kmod.LoopTop, Kmod.kstate_init quantum aging)).2 in
  NoDup (Kmod.ready_q_head s) /\
  (forall i, i ∈ Kmod.ready_q_head s <->
             (Kmod.state <$> Kmod.all_processes s) !! i = Some Kmod.PROC_READY) /\
  (forall i, (Kmod.state <$> Kmod.all_processes s) !! i = Some Kmod.PROC_RUNNING ->
             Kmod.current_proc s = Some i).
Proof.
  cbn zeta.
  destruct (KmodFacts.queue_inv_krun HZ msecs_to_jiffies jiffies_to_msecs
              es quantum aging) as [Hmem _].
  exact Hmem.
Qed.

(** X2.  In the executions of the kernel module in which the writes and
    the two halves of a pass run one at a time, [ready_q.count] is, between
    any two of them, the number of PCBs linked in the ready queue (as an
    [int]): every insertion and removal, the [list_del] of the WAIT command
    included, keeps the counter in step with the list.  A WAIT command that
    runs inside a NEW write decrements the counter and unlinks nothing
    (X30). *)
Theorem kmod_ready_count_is_queue_length
    (HZ : Z) (msecs_to_jiffies jiffies_to_msecs : Z -> Z)
    (es : list Kmod.kevent) (quantum aging : Z) :
  let s := (Kmod.krun HZ msecs_to_jiffies jiffies_to_msecs es
              (Kmod.LoopTop, Kmod.kstate_init quantum aging)).2 in
  Kmod.ready_q_count s = to_int (Z.of_nat (length (Kmod.ready_q_head s))).
Proof. apply KmodLaws.count_inv_krun. Qed.

(** X3.  In the executions of the kernel module in which the writes and
    the two halves of a pass run one at a time (a NEW writer takes its pid
    before it takes the lock, so that overlapping NEW writers can link
    their PCBs against the order of their pids), the module numbers its
    processes 2, 3, 4, ... in the order of their creation (the counter
    starts at 1 and is incremented before it is read), a rejected NEW
    command consumes no pid, and as long as the counter has not wrapped
    around the [int] range the pids are pairwise distinct. *)
Theorem kmod_pids_are_consecutive
    (HZ : Z) (msecs_to_jiffies jiffies_to_msecs : Z -> Z)
    (es : list Kmod.kevent) (quantum aging : Z) :
  let s := (Kmod.krun HZ msecs_to_jiffies jiffies_to_msecs es
              (Kmod.LoopTop, Kmod.kstate_init quantum aging)).2 in
  let n := length (Kmod.all_processes s) in
  Kmod.pid <$> Kmod.all_processes s
    = (fun i => to_int (Z.of_nat i + 2)) <$> seq 0 n /\
  Kmod.next_pid s = to_int (Z.of_nat n + 1) /\
  (Z.of_nat n + 1 < 2 ^ 31 -> NoDup (Kmod.pid <$> Kmod.all_processes s)).
Proof.
  cbn zeta.
  destruct (KmodLaws.pid_inv_krun HZ msecs_to_jiffies jiffies_to_msecs
              es quantum aging) as [Hnext Hpids].
  split; [exact Hpids|]. split; [exact Hnext|]. intros Hn. rewrite Hpids.
  apply NoDup_fmap_seq. intros i j Hi Hj.
  rewrite !to_int_id by (unfold int_range; lia). lia.
Qed.

(** The pids of the three processes of the aging run. *)
Lemma kmod_pids_are_consecutive_witness :
  Kmod.pid <$> Kmod.all_processes Scenario.aging_run_state = [2; 3; 4] /\
  NoDup (Kmod.pid <$> Kmod.all_processes Scenario.aging_run_state).
Proof.
  pose proof (kmod_pids_are_consecutive Scenario.HZ Scenario.msecs_to_jiffies
                Scenario.jiffies_to_msecs Scenario.aging_run 1000 1)
    as (Hp & _ & Hnd).
  split; [exact Hp|]. apply Hnd. reflexivity.
Defined.

(** X4.  No step of the kernel module changes the pid, the name, the base
    priority, the burst time or the arrival time of an existing PCB, and no
    step removes or reorders PCBs: the list of all processes only grows at
    its tail. *)
Theorem kmod_identity_fields_are_immutable
    (HZ : Z) (msecs_to_jiffies jiffies_to_msecs : Z -> Z)
    (es : list Kmod.kevent) (cfg : Kmod.thread_pc * Kmod.kstate) :
  (Kmod.identity <$> Kmod.all_processes cfg.2) `prefix_of`
  (Kmod.identity <$>
     Kmod.all_processes
       (Kmod.krun HZ msecs_to_jiffies jiffies_to_msecs es cfg).2).
Proof. apply KmodLaws.proj_krun; reflexivity. Qed.

(** X5.  [enqueue_process] on a ready queue in ascending order of effective
    priority keeps it in ascending order and puts the PCB behind every
    member whose effective priority is the same or numerically lower (FIFO
    among equals) and in front of every member with a numerically higher
    one; the members keep their relative order and the counter grows by
    one. *)
Theorem kmod_enqueue_process_keeps_order (proc : nat) (s : Kmod.kstate) :
  Kmod.queue_sorted (Kmod.all_processes s) (Kmod.ready_q_head s) ->
  let st := Kmod.all_processes s in
  let s' := Kmod.enqueue_process proc s in
  Kmod.queue_sorted st (Kmod.ready_q_head s') /\
  Kmod.ready_q_head s' =
    filter (fun i => Kmod.key st i <= Kmod.key st proc) (Kmod.ready_q_head s)
    ++ proc :: filter (fun i => Kmod.key st proc < Kmod.key st i)
                 (Kmod.ready_q_head s) /\
  Kmod.ready_q_count s' = to_int (Kmod.ready_q_count s + 1) /\
  Kmod.all_processes s' = st.
Proof.
  intros Hs. cbn zeta. split; [|split; [|split; reflexivity]].
  - apply KmodFacts.insert_by_priority_sorted. exact Hs.
  - apply KmodFacts.insert_by_priority_position. exact Hs.
Qed.

(** The PCB at position 0 (effective priority 0) enqueued into the queue
    R (0), B (1) of the aging run goes between the two. *)
Lemma kmod_enqueue_process_keeps_order_witness :
  Kmod.ready_q_head Scenario.aging_run_state = [1; 2]%nat /\
  Kmod.ready_q_head (Kmod.enqueue_process 0 Scenario.aging_run_state)
    = [1; 0; 2]%nat.
Proof.
  assert (Kmod.queue_sorted (Kmod.all_processes Scenario.aging_run_state)
            (Kmod.ready_q_head Scenario.aging_run_state)) as Hs.
  { repeat constructor; unfold Kmod.key; simpl; lia. }
  pose proof (kmod_enqueue_process_keeps_order 0 Scenario.aging_run_state Hs)
    as (_ & Hq & _).
  split; [reflexivity|]. rewrite Hq. reflexivity.
Defined.

(** X6.  [dequeue_process] on an empty ready queue returns no process and
    changes nothing; on a queue in ascending order it unlinks the first
    member, whose effective priority is numerically lowest among the
    members, decrements the counter and leaves the rest in order. *)
Theorem kmod_dequeue_process_takes_minimum (s : Kmod.kstate) :
  Kmod.queue_sorted (Kmod.all_processes s) (Kmod.ready_q_head s) ->
  match Kmod.dequeue_process s with
  | (Some proc, s') =>
      Kmod.ready_q_head s = proc :: Kmod.ready_q_head s' /\
      Forall (fun j => Kmod.key (Kmod.all_processes s) proc
                       <= Kmod.key (Kmod.all_processes s) j)
        (Kmod.ready_q_head s) /\
      Kmod.queue_sorted (Kmod.all_processes s') (Kmod.ready_q_head s') /\
      Kmod.ready_q_count s' = to_int (Kmod.ready_q_count s - 1) /\
      Kmod.all_processes s' = Kmod.all_processes s
  | (None, s') => Kmod.ready_q_head s = [] /\ s' = s
  end.
Proof.
  intros Hs. pose proof (KmodFacts.queue_sorted_dequeue_process s Hs) as [H1 H2].
  unfold Kmod.dequeue_process in *.
  destruct (Kmod.ready_q_head s) as [|proc rest]; simpl in *.
  - split; reflexivity.
  - repeat split; assumption.
Qed.

(** The head of the queue of the aging run. *)
Lemma kmod_dequeue_process_takes_minimum_witness :
  (Kmod.dequeue_process Scenario.aging_run_state).1 = Some 1%nat /\
  Forall (fun j => Kmod.key (Kmod.all_processes Scenario.aging_run_state) 1
                   <= Kmod.key (Kmod.all_processes Scenario.aging_run_state) j)
    [1; 2]%nat.
Proof.
  assert (Kmod.queue_sorted (Kmod.all_processes Scenario.aging_run_state)
            (Kmod.ready_q_head Scenario.aging_run_state)) as Hs.
  { repeat constructor; unfold Kmod.key; simpl; lia. }
  pose proof (kmod_dequeue_process_takes_minimum Scenario.aging_run_state Hs)
    as Hd.
  change (Kmod.dequeue_process Scenario.aging_run_state)
    with (Some 1%nat, Kmod.set_ready_q [2%nat] 1 Scenario.aging_run_state) in Hd.
  destruct Hd as (_ & Hmin & _). split; [reflexivity|exact Hmin].
Defined.

(** X7.  [check_waiting_processes] at the reading [jiffies] turns every
    WAITING PCB whose wakeup deadline has passed ([time_after_eq]) into a
    READY PCB with [last_update_jiffies = jiffies] and leaves every other
    PCB as it is; the PCBs it wakes are added to the ready queue, the
    running slot and the statistics are not touched. *)
Theorem kmod_check_waiting_processes_wakes_due (jiffies : Z) (s : Kmod.kstate) :
  let s' := Kmod.check_waiting_processes jiffies s in
  Kmod.all_processes s' =
    (fun p => if bool_decide (Kmod.state p = Kmod.PROC_WAITING)
                 && Kmod.time_after_eq jiffies (Kmod.wakeup_time_jiffies p)
              then Kmod.set_last_update_jiffies jiffies
                     (Kmod.set_state Kmod.PROC_READY p)
              else p) <$> Kmod.all_processes s /\
  Kmod.ready_q_head s' ≡ₚ
    filter (fun i =>
              let p := Kmod.all_processes s !!! i in
              bool_decide (Kmod.state p = Kmod.PROC_WAITING)
              && Kmod.time_after_eq jiffies (Kmod.wakeup_time_jiffies p) = true)
      (seq 0 (length (Kmod.all_processes s)))
    ++ Kmod.ready_q_head s /\
  Kmod.current_proc s' = Kmod.current_proc s /\
  Kmod.stats s' = Kmod.stats s.
Proof.
  cbn zeta. split; [apply KmodLaws.check_waiting_processes_all_processes|].
  apply (KmodLaws.fold_wake_process_queue jiffies
           (seq 0 (length (Kmod.all_processes s))) s).
  apply NoDup_seq.
Qed.

(** X8.  [apply_aging] of the kernel module sets the effective priority of
    a READY member of the ready queue to
    [max(0, base_priority - (waited seconds) / aging_factor_sec)], with the
    waited seconds counted from [last_update_jiffies] in whole seconds
    (provided the quotient fits the [int] it is stored in); it changes no
    other PCB and no other field and keeps the queue as it is, and with
    [aging_factor_sec <= 0] it changes nothing at all. *)
Theorem kmod_apply_aging_formula
    (HZ : Z) (jiffies : Z) (s : Kmod.kstate) (i : nat) (p : Kmod.custom_pcb) :
  Kmod.all_processes s !! i = Some p ->
  let a := Kmod.aging_factor_sec s in
  let waited_sec := to_ulong (jiffies - Kmod.last_update_jiffies p) / HZ in
  let s' := Kmod.apply_aging HZ jiffies s in
  Kmod.ready_q_head s' = Kmod.ready_q_head s /\
  (i ∉ Kmod.ready_q_head s \/ Kmod.state p <> Kmod.PROC_READY \/ a <= 0 ->
   Kmod.all_processes s' !! i = Some p) /\
  (i ∈ Kmod.ready_q_head s -> Kmod.state p = Kmod.PROC_READY ->
   0 < a < 2 ^ 31 -> int_range (Kmod.base_priority p) ->
   0 <= waited_sec / a <= Kmod.base_priority p + 2 ^ 31 ->
   Kmod.all_processes s' !! i =
     Some (Kmod.set_effective_priority
             (Z.max 0 (Kmod.base_priority p - waited_sec / a)) p)).
Proof.
  intros Hp a waited_sec s'.
  destruct (KmodFacts.apply_aging_members HZ jiffies s i) as [Hl Hq].
  fold s' in Hl, Hq. split; [exact Hq|]. split.
  - intros Hcase. rewrite Hl. destruct (decide _) as [Hin|Hnotin]; [|exact Hp].
    rewrite Hp. simpl. f_equal.
    destruct Hcase as [Hc|[Hc|Hc]]; [contradiction| |].
    + apply KmodFacts.apply_aging_pcb_not_ready. exact Hc.
    + apply KmodFacts.apply_aging_pcb_disabled. exact Hc.
  - intros Hin Hst Ha Hb Hw. rewrite Hl, decide_True by exact Hin.
    rewrite Hp. simpl. f_equal.
    apply KmodFacts.apply_aging_pcb_formula; assumption.
Qed.

(** The aging at jiffies 6500 of the process R of the aging run (base
    priority 2, READY since jiffies 4500, factor one second): two seconds
    of wait bring its effective priority to 0. *)
Lemma kmod_apply_aging_formula_witness :
  Kmod.effective_priority
    (Kmod.all_processes
       (Kmod.apply_aging Scenario.HZ 6500 Scenario.aging_run_state) !!! 1%nat)
  = 0.
Proof.
  pose proof (kmod_apply_aging_formula Scenario.HZ 6500
                Scenario.aging_run_state 1
                (Kmod.all_processes Scenario.aging_run_state !!! 1%nat)
                eq_refl) as (_ & _ & H).
  assert (1%nat ∈ Kmod.ready_q_head Scenario.aging_run_state) as Hin
    by repeat constructor.
  specialize (H Hin eq_refl ltac:(split; reflexivity)
                ltac:(split; [discriminate|reflexivity])
                ltac:(split; discriminate)).
  rewrite (list_lookup_total_correct _ _ _ H). reflexivity.
Defined.

(** X9.  In every state that the kernel module reaches, every PCB has an
    effective priority that is not negative and a base priority within
    0..10, whatever the readings of the clock and the module parameters. *)
Theorem kmod_priorities_stay_in_range
    (HZ : Z) (msecs_to_jiffies jiffies_to_msecs : Z -> Z)
    (es : list Kmod.kevent) (quantum aging : Z) :
  Forall (fun p => 0 <= Kmod.effective_priority p /\
                   0 <= Kmod.base_priority p <= 10)
    (Kmod.all_processes
       (Kmod.krun HZ msecs_to_jiffies jiffies_to_msecs es
          (Kmod.LoopTop, Kmod.kstate_init quantum aging)).2).
Proof. apply KmodFacts.priority_floor_krun. Qed.

(** X10.  In the kernel module TERMINATED is final: once a PCB is
    TERMINATED in a reachable state, no later step changes any of its
    fields (it is never re-enqueued, dispatched, aged, woken or charged
    waiting time). *)
Theorem kmod_terminated_is_final
    (HZ : Z) (msecs_to_jiffies jiffies_to_msecs : Z -> Z)
    (es1 es2 : list Kmod.kevent) (quantum aging : Z)
    (i : nat) (p : Kmod.custom_pcb) :
  let cfg := Kmod.krun HZ msecs_to_jiffies jiffies_to_msecs es1
               (Kmod.LoopTop, Kmod.kstate_init quantum aging) in
  Kmod.all_processes cfg.2 !! i = Some p ->
  Kmod.state p = Kmod.PROC_TERMINATED ->
  Kmod.all_processes
    (Kmod.krun HZ msecs_to_jiffies jiffies_to_msecs es2 cfg).2 !! i = Some p.
Proof.
  intros cfg Hp Hst. apply KmodLaws.terminated_krun; [|exact Hp|exact Hst].
  apply KmodFacts.queue_inv_krun.
Qed.

(** The process H of the aging run, terminated at the third pass, is the
    same PCB two passes later. *)
Lemma kmod_terminated_is_final_witness :
  Kmod.state (Kmod.all_processes Scenario.aging_run_state !!! 0%nat)
    = Kmod.PROC_TERMINATED /\
  Kmod.all_processes
    (Scenario.krun [Kmod.KBegin 4500 4500; Kmod.KEnd 5500;
                    Kmod.KBegin 5500 5500; Kmod.KEnd 6500]
       (Scenario.krun Scenario.aging_run Scenario.kernel_start)).2 !! 0%nat
  = Some (Kmod.all_processes Scenario.aging_run_state !!! 0%nat).
Proof.
  split; [reflexivity|].
  apply (kmod_terminated_is_final Scenario.HZ Scenario.msecs_to_jiffies
           Scenario.jiffies_to_msecs Scenario.aging_run
           [Kmod.KBegin 4500 4500; Kmod.KEnd 5500;
            Kmod.KBegin 5500 5500; Kmod.KEnd 6500] 1000 1 0
           (Kmod.all_processes Scenario.aging_run_state !!! 0%nat));
    reflexivity.
Defined.

(** X11.  A pass of the scheduler thread that starts between two events of
    an execution in which the writes and the halves of a pass run one at a
    time (so that no NEW write is between its two critical sections), and
    that runs its first half without a write in between, idles only when,
    after the wakeups and the aging, no PCB is READY or RUNNING, and then
    it adds one quantum to the idle time; otherwise it dispatches the head
    of the ready queue: that PCB is unlinked, marked RUNNING and put in the
    running slot, with a slice of
    [min(time_quantum_ms, remaining_time_ms)]. *)
Theorem kmod_idles_only_when_nothing_is_ready
    (HZ : Z) (msecs_to_jiffies jiffies_to_msecs : Z -> Z)
    (es : list Kmod.kevent) (quantum aging : Z) (j1 j2 : Z) :
  let cfg := Kmod.krun HZ msecs_to_jiffies jiffies_to_msecs es
               (Kmod.LoopTop, Kmod.kstate_init quantum aging) in
  cfg.1 = Kmod.LoopTop ->
  let s2 := Kmod.apply_aging HZ j2 (Kmod.check_waiting_processes j1 cfg.2) in
  match Kmod.iteration_begin HZ j1 j2 cfg.2 with
  | (Kmod.Idling, s') =>
      Forall (fun p => Kmod.state p <> Kmod.PROC_READY /\
                       Kmod.state p <> Kmod.PROC_RUNNING)
        (Kmod.all_processes s') /\
      Kmod.ready_q_head s2 = [] /\
      Kmod.all_processes s' = Kmod.all_processes s2 /\
      Kmod.total_idle_time_ms (Kmod.stats s')
        = to_ulong (Kmod.total_idle_time_ms (Kmod.stats cfg.2)
                    + to_ulong (Kmod.time_quantum_ms cfg.2))
  | (Kmod.Executing proc exec_time, s') =>
      head (Kmod.ready_q_head s2) = Some proc /\
      Kmod.ready_q_head s' = tail (Kmod.ready_q_head s2) /\
      Kmod.all_processes s' =
        alter (Kmod.set_state Kmod.PROC_RUNNING) proc (Kmod.all_processes s2) /\
      Kmod.current_proc s' = Some proc /\
      exec_time = Z.min (Kmod.time_quantum_ms cfg.2)
                    (Kmod.remaining_time_ms (Kmod.all_processes s2 !!! proc))
  | (Kmod.LoopTop, _) => False
  end.
Proof.
  intros cfg Hpc s2.
  pose proof (KmodFacts.queue_inv_krun HZ msecs_to_jiffies jiffies_to_msecs
                es quantum aging) as Hinv.
  fold cfg in Hinv. destruct cfg as [pc s]. simpl in Hpc. subst pc.
  apply (KmodLaws.iteration_begin_outcome HZ j1 j2 s Hinv).
Qed.

(** A pass on a fresh module idles for one quantum. *)
Lemma kmod_idles_only_when_nothing_is_ready_witness :
  Kmod.iteration_begin Scenario.HZ 0 0 (Kmod.kstate_init 1000 1) =
    (Kmod.Idling,
     Kmod.set_stats
       (Kmod.set_total_idle_time_ms 1000
          (Kmod.stats (Kmod.kstate_init 1000 1)))
       (Kmod.kstate_init 1000 1)) /\
  Kmod.total_idle_time_ms
    (Kmod.stats (Kmod.iteration_begin Scenario.HZ 0 0
                   (Kmod.kstate_init 1000 1)).2) = 1000.
Proof.
  pose proof (kmod_idles_only_when_nothing_is_ready Scenario.HZ
                Scenario.msecs_to_jiffies Scenario.jiffies_to_msecs
                [] 1000 1 0 0 eq_refl) as Hidle.
  split; [reflexivity|].
  change (Kmod.iteration_begin Scenario.HZ 0 0
            (Kmod.krun Scenario.HZ Scenario.msecs_to_jiffies
               Scenario.jiffies_to_msecs []
               (Kmod.LoopTop, Kmod.kstate_init 1000 1)).2)
    with (Kmod.Idling,
          Kmod.set_stats
            (Kmod.set_total_idle_time_ms 1000
               (Kmod.stats (Kmod.kstate_init 1000 1)))
            (Kmod.kstate_init 1000 1)) in Hidle.
  destruct Hidle as (_ & _ & _ & Hi). exact Hi.
Defined.

(** X12.  [update_statistics], run between two events of an execution of
    the kernel module in which the writes and the halves of a pass run one
    at a time, touches nothing but the statistics, and its counts describe
    the process list: running + ready + waiting + terminated is the number
    of PCBs (no PCB is ever NEW), the ready count is the length of the
    ready queue, at most one PCB is running, none when the running slot is
    empty, and [total_processes] is the number of PCBs as long as it fits
    an [int]. *)
Theorem kmod_statistics_count_the_processes
    (HZ : Z) (msecs_to_jiffies jiffies_to_msecs : Z -> Z)
    (es : list Kmod.kevent) (quantum aging : Z) :
  let s := (Kmod.krun HZ msecs_to_jiffies jiffies_to_msecs es
              (Kmod.LoopTop, Kmod.kstate_init quantum aging)).2 in
  let s' := Kmod.update_statistics s in
  let st := Kmod.stats s' in
  let n := Z.of_nat (length (Kmod.all_processes s)) in
  Kmod.all_processes s' = Kmod.all_processes s /\
  Kmod.ready_q_head s' = Kmod.ready_q_head s /\
  Kmod.current_proc s' = Kmod.current_proc s /\
  Kmod.running_processes st + Kmod.ready_processes st
    + Kmod.waiting_processes st + Kmod.terminated_processes st = n /\
  Kmod.ready_processes st = Z.of_nat (length (Kmod.ready_q_head s)) /\
  Kmod.running_processes st <= 1 /\
  (Kmod.current_proc s = None -> Kmod.running_processes st = 0) /\
  (n < 2 ^ 31 -> Kmod.total_processes st = n).
Proof.
  cbn zeta.
  set (cfg := Kmod.krun HZ msecs_to_jiffies jiffies_to_msecs es
                (Kmod.LoopTop, Kmod.kstate_init quantum aging)).
  pose proof (KmodFacts.queue_inv_krun HZ msecs_to_jiffies jiffies_to_msecs
                es quantum aging) as [Hmem _]. fold cfg in Hmem.
  assert (Forall (fun c => c <> Kmod.PROC_NEW) (Kmod.states cfg.2)) as Hnew.
  { apply KmodLaws.states_krun; try discriminate. constructor. }
  destruct (KmodLaws.membership_inv_counts _ _ _ Hmem) as (Hready & Hrun & Hnone).
  pose proof (KmodLaws.count_state_partition _ Hnew) as Hsum.
  unfold Kmod.update_statistics. simpl.
  repeat split; try assumption.
  intros Hn. rewrite to_int_id by (unfold int_range; lia).
  apply to_ulong_id. unfold ulong_range. lia.
Qed.

(** The counts after the aging run: one terminated process, two ready. *)
Lemma kmod_statistics_count_the_processes_witness :
  let st := Kmod.stats (Kmod.update_statistics Scenario.aging_run_state) in
  Kmod.total_processes st = 3 /\ Kmod.ready_processes st = 2 /\
  Kmod.running_processes st = 0.
Proof.
  pose proof (kmod_statistics_count_the_processes Scenario.HZ
                Scenario.msecs_to_jiffies Scenario.jiffies_to_msecs
                Scenario.aging_run 1000 1)
    as (_ & _ & _ & _ & Hready & _ & Hnone & Htotal).
  split; [apply Htotal; reflexivity|]. split; [exact Hready|].
  apply Hnone. reflexivity.
Defined.

(** X13.  The busy time that the kernel module accounts is the work it has
    handed out: in every state reached on inputs in range (bursts within
    [int], quanta not negative), [total_cpu_time_ms] equals the sum over
    all PCBs of [burst_time_ms - remaining_time_ms], modulo 2^64. *)
Theorem kmod_cpu_time_is_work_done
    (HZ : Z) (msecs_to_jiffies jiffies_to_msecs : Z -> Z)
    (es : list Kmod.kevent) (quantum aging : Z) :
  Forall Kmod.kevent_in_range es -> 0 <= quantum ->
  let s := (Kmod.krun HZ msecs_to_jiffies jiffies_to_msecs es
              (Kmod.LoopTop, Kmod.kstate_init quantum aging)).2 in
  Kmod.total_cpu_time_ms (Kmod.stats s)
  = to_ulong
      (foldr Z.add 0
         ((fun p => Kmod.burst_time_ms p - Kmod.remaining_time_ms p)
            <$> Kmod.all_processes s)).
Proof. intros Hes Hq. apply KmodLaws.cpu_inv_krun; assumption. Qed.

(** The aging run: H has received its 3000 ms, R 1000 ms of its 5000. *)
Lemma kmod_cpu_time_is_work_done_witness :
  Kmod.total_cpu_time_ms (Kmod.stats Scenario.aging_run_state) = 4000.
Proof.
  assert (Forall Kmod.kevent_in_range Scenario.aging_run) as Hes.
  { repeat constructor; unfold int_range; simpl; lia. }
  pose proof (kmod_cpu_time_is_work_done Scenario.HZ Scenario.msecs_to_jiffies
                Scenario.jiffies_to_msecs Scenario.aging_run 1000 1 Hes
                ltac:(lia)) as H.
  cbn zeta in H. etransitivity; [exact H|reflexivity].
Defined.

(** X14.  When a slice ends, the kernel thread charges its length as
    waiting time to every PCB that is READY at that moment (a PCB created
    or queued during the sleep included) and changes no field of any other
    PCB except the one that ran. *)
Theorem kmod_slice_charges_ready_processes
    (jiffies_to_msecs : Z -> Z) (proc : nat) (exec_time jiffies : Z)
    (s : Kmod.kstate) (i : nat) (p : Kmod.custom_pcb) :
  i <> proc ->
  Kmod.all_processes s !! i = Some p ->
  Kmod.all_processes
    (Kmod.post_execute jiffies_to_msecs proc exec_time jiffies s) !! i =
    Some (if bool_decide (Kmod.state p = Kmod.PROC_READY)
          then Kmod.set_wait_time_ms
                 (to_ulong (Kmod.wait_time_ms p + to_ulong exec_time)) p
          else p).
Proof. apply KmodLaws.post_execute_charges. Qed.

(** The fifth slice of the aging run (R runs for 1000 ms): B, which arrived
    in the middle of the fourth slice and was charged all of it, is charged
    another 1000 ms; the terminated H is not. *)
Lemma kmod_slice_charges_ready_processes_witness :
  let s := Scenario.running_R_state in
  let s' := Kmod.post_execute Scenario.jiffies_to_msecs 1 1000 5500 s in
  Kmod.wait_time_ms (Kmod.all_processes s !!! 2%nat) = 1000 /\
  Kmod.wait_time_ms (Kmod.all_processes s' !!! 2%nat) = 2000 /\
  Kmod.all_processes s' !! 0%nat = Kmod.all_processes s !! 0%nat.
Proof.
  cbn zeta.
  pose proof (kmod_slice_charges_ready_processes Scenario.jiffies_to_msecs
                1 1000 5500 Scenario.running_R_state 2
                (Kmod.all_processes Scenario.running_R_state !!! 2%nat)
                ltac:(discriminate) eq_refl) as HB.
  pose proof (kmod_slice_charges_ready_processes Scenario.jiffies_to_msecs
                1 1000 5500 Scenario.running_R_state 0
                (Kmod.all_processes Scenario.running_R_state !!! 0%nat)
                ltac:(discriminate) eq_refl) as HH.
  split; [reflexivity|]. split.
  - rewrite (list_lookup_total_correct _ _ _ HB). reflexivity.
  - rewrite HH. reflexivity.
Defined.

(** X15.  A WAIT command on a RUNNING or READY process of a reachable state
    marks it WAITING with the deadline [jiffies + msecs_to_jiffies(wait_ms)]
    and takes it out of the ready queue; a later [check_waiting_processes]
    at a reading [t] ticks after the command leaves it WAITING and out of
    the queue while [t < msecs_to_jiffies(wait_ms)], and from then on makes
    it READY again, linked in the ready queue, with
    [last_update_jiffies] set to that reading (both distances below
    2^63 ticks, the horizon of [time_after_eq]). *)
Theorem kmod_wait_then_wake
    (HZ : Z) (msecs_to_jiffies jiffies_to_msecs : Z -> Z)
    (es : list Kmod.kevent) (quantum aging : Z)
    (pid wait_ms j0 t : Z) (i : nat) :
  let s := (Kmod.krun HZ msecs_to_jiffies jiffies_to_msecs es
              (Kmod.LoopTop, Kmod.kstate_init quantum aging)).2 in
  find_index (fun p => Kmod.pid p =? pid) (Kmod.all_processes s) = Some i ->
  Kmod.state (Kmod.all_processes s !!! i) = Kmod.PROC_RUNNING \/
    Kmod.state (Kmod.all_processes s !!! i) = Kmod.PROC_READY ->
  0 <= msecs_to_jiffies wait_ms < 2 ^ 63 ->
  0 <= t < 2 ^ 63 ->
  let s1 := (Kmod.cmd_wait msecs_to_jiffies pid wait_ms j0 s).2 in
  let now := to_ulong (j0 + t) in
  let s2 := Kmod.check_waiting_processes now s1 in
  Kmod.state (Kmod.all_processes s1 !!! i) = Kmod.PROC_WAITING /\
  Kmod.wakeup_time_jiffies (Kmod.all_processes s1 !!! i)
    = to_ulong (j0 + msecs_to_jiffies wait_ms) /\
  (i ∉ Kmod.ready_q_head s1) /\
  if msecs_to_jiffies wait_ms <=? t
  then Kmod.state (Kmod.all_processes s2 !!! i) = Kmod.PROC_READY /\
       Kmod.last_update_jiffies (Kmod.all_processes s2 !!! i) = now /\
       i ∈ Kmod.ready_q_head s2
  else Kmod.state (Kmod.all_processes s2 !!! i) = Kmod.PROC_WAITING /\
       (i ∉ Kmod.ready_q_head s2).
Proof.
  cbn zeta. intros Hfind Hst Hw Ht.
  pose proof (KmodFacts.queue_inv_krun HZ msecs_to_jiffies jiffies_to_msecs
                es quantum aging) as Hinv.
  destruct (Kmod.krun HZ msecs_to_jiffies jiffies_to_msecs es
              (Kmod.LoopTop, Kmod.kstate_init quantum aging))
    as [pc s0] eqn:Hcfg.
  cbn [snd] in *.
  pose proof (KmodLaws.wait_then_wake msecs_to_jiffies pc pid wait_ms j0
                (to_ulong (j0 + t)) s0 i Hinv Hfind Hst) as H.
  cbn zeta in H.
  rewrite (KmodLaws.time_after_eq_offsets j0 t (msecs_to_jiffies wait_ms) Ht Hw)
    in H.
  exact H.
Qed.

(** WAIT 3 250 on the READY process R of the aging run, at jiffies 4600:
    still WAITING 100 ticks later, READY again 300 ticks later. *)
Lemma kmod_wait_then_wake_witness :
  let s1 := (Kmod.cmd_wait Scenario.msecs_to_jiffies 3 250 4600
               Scenario.aging_run_state).2 in
  Kmod.state (Kmod.all_processes s1 !!! 1%nat) = Kmod.PROC_WAITING /\
  Kmod.state (Kmod.all_processes
                (Kmod.check_waiting_processes 4700 s1) !!! 1%nat)
    = Kmod.PROC_WAITING /\
  Kmod.state (Kmod.all_processes
                (Kmod.check_waiting_processes 4900 s1) !!! 1%nat)
    = Kmod.PROC_READY.
Proof.
  cbn zeta.
  pose proof (kmod_wait_then_wake Scenario.HZ Scenario.msecs_to_jiffies
                Scenario.jiffies_to_msecs Scenario.aging_run 1000 1
                3 250 4600 100 1 eq_refl ltac:(right; reflexivity)
                ltac:(split; [discriminate|reflexivity])
                ltac:(split; [discriminate|reflexivity]))
    as (H0 & _ & _ & H100 & _).
  pose proof (kmod_wait_then_wake Scenario.HZ Scenario.msecs_to_jiffies
                Scenario.jiffies_to_msecs Scenario.aging_run 1000 1
                3 250 4600 300 1 eq_refl ltac:(right; reflexivity)
                ltac:(split; [discriminate|reflexivity])
                ltac:(split; [discriminate|reflexivity]))
    as (_ & _ & _ & H300 & _).
  split; [exact H0|]. split; [exact H100|exact H300].
Defined.

(** X16.  The end of a slice of a process that is still RUNNING: its
    remaining time drops by the slice [min(time_quantum_ms, remaining)] and
    the running slot is cleared; if the remaining time did not exceed the
    quantum the PCB is TERMINATED with remaining time 0, its turnaround is
    [jiffies_to_msecs(jiffies - arrival)] and the ready queue is untouched;
    otherwise it is preempted: READY again, [last_update_jiffies] reset, and
    linked back into the ready queue. *)
Theorem kmod_slice_ends_in_preemption_or_termination
    (jiffies_to_msecs : Z -> Z) (proc : nat) (jiffies : Z) (s : Kmod.kstate) :
  (proc < length (Kmod.all_processes s))%nat ->
  Kmod.state (Kmod.all_processes s !!! proc) = Kmod.PROC_RUNNING ->
  Kmod.remaining_bounded (Kmod.all_processes s !!! proc) ->
  0 <= Kmod.time_quantum_ms s ->
  let p := Kmod.all_processes s !!! proc in
  let exec_time := Z.min (Kmod.time_quantum_ms s) (Kmod.remaining_time_ms p) in
  let s' := Kmod.post_execute jiffies_to_msecs proc exec_time jiffies s in
  let p' := Kmod.all_processes s' !!! proc in
  Kmod.current_proc s' = None /\
  Kmod.remaining_time_ms p' = Kmod.remaining_time_ms p - exec_time /\
  if Kmod.remaining_time_ms p <=? Kmod.time_quantum_ms s
  then Kmod.state p' = Kmod.PROC_TERMINATED /\
       Kmod.remaining_time_ms p' = 0 /\
       Kmod.turnaround_time_ms p'
         = jiffies_to_msecs (to_ulong (jiffies - Kmod.arrival_time_jiffies p)) /\
       Kmod.ready_q_head s' = Kmod.ready_q_head s
  else Kmod.state p' = Kmod.PROC_READY /\
       Kmod.last_update_jiffies p' = jiffies /\
       Kmod.ready_q_head s' ≡ₚ proc :: Kmod.ready_q_head s.
Proof.
  intros Hlt Hrun [[Hr0 Hrb] Hb] Hq p exec_time.
  destruct (lookup_lt_is_Some_2 _ _ Hlt) as [p0 Hp0].
  assert (p = p0) as Hp by (apply list_lookup_total_correct; exact Hp0).
  fold p in Hrun, Hr0, Hrb, Hb.
  assert (to_int (Kmod.remaining_time_ms p - exec_time)
          = Kmod.remaining_time_ms p - exec_time) as Hint.
  { apply to_int_id. unfold int_range in *. unfold exec_time. lia. }
  unfold Kmod.post_execute. cbn zeta.
  set (l2 := map _ (alter _ proc (Kmod.all_processes s))).
  assert (l2 !! proc =
            Some (Kmod.set_remaining_time_ms
                    (Kmod.remaining_time_ms p - exec_time) p))
    as Hl2.
  { unfold l2. change (map ?f ?l) with (f <$> l).
    rewrite list_lookup_fmap, list_lookup_alter_eq, Hp0, <- Hp.
    cbn [fmap option_fmap option_map Kmod.state Kmod.set_remaining_time_ms].
    rewrite Hrun, bool_decide_false by discriminate.
    rewrite Hint. reflexivity. }
  cbn [Kmod.all_processes Kmod.set_stats Kmod.set_all_processes].
  rewrite (list_lookup_total_correct _ _ _ Hl2).
  cbn [Kmod.state Kmod.remaining_time_ms Kmod.set_remaining_time_ms].
  rewrite Hrun, bool_decide_false by discriminate.
  destruct (Z.leb_spec (Kmod.remaining_time_ms p - exec_time) 0) as [Hle|Hgt];
    cbn [Kmod.all_processes Kmod.set_current_proc Kmod.set_all_processes
           Kmod.enqueue_process Kmod.set_ready_q Kmod.current_proc
           Kmod.ready_q_head].
  - erewrite list_lookup_total_correct
      by (rewrite list_lookup_alter_eq, Hl2; reflexivity).
    rewrite (proj2 (Z.leb_le _ _)) by (unfold exec_time in *; lia).
    simpl. unfold exec_time in *. repeat split; lia.
  - erewrite list_lookup_total_correct
      by (rewrite list_lookup_alter_eq, Hl2; reflexivity).
    rewrite (proj2 (Z.leb_gt _ _)) by (unfold exec_time in *; lia).
    simpl. repeat split. apply insert_by_priority_Permutation.
Qed.

(** The fifth slice of the aging run preempts R with 3000 ms left; the
    third one terminated H. *)
Lemma kmod_slice_ends_in_preemption_or_termination_witness :
  let s := Scenario.running_R_state in
  let s' := Kmod.post_execute Scenario.jiffies_to_msecs 1 1000 5500 s in
  Kmod.remaining_time_ms (Kmod.all_processes s !!! 1%nat) = 4000 /\
  Kmod.remaining_time_ms (Kmod.all_processes s' !!! 1%nat) = 3000 /\
  Kmod.state (Kmod.all_processes s' !!! 1%nat) = Kmod.PROC_READY /\
  Kmod.current_proc s' = None.
Proof.
  cbn zeta.
  pose proof (kmod_slice_ends_in_preemption_or_termination
                Scenario.jiffies_to_msecs 1 5500 Scenario.running_R_state
                ltac:(vm_compute; lia) eq_refl
                ltac:(split; [split; discriminate|split; [discriminate|reflexivity]])
                ltac:(discriminate))
    as (Hcur & Hrem & Hst & _).
  split; [reflexivity|]. split; [exact Hrem|]. split; [exact Hst|exact Hcur].
Defined.

(** ** The simulator *)

(** X17.  [createProcess] of the simulator numbers the processes with the
    successive values of its counter [nextPid], in the order of their
    creation, as long as no other [Scheduler] object creates a process in
    between (the counter is a function-static that all [Scheduler] objects
    of the program share).  Along every run from any state, with the
    counter at any value: the pids of the earlier PCBs stay, the [k] PCBs
    created get the pids [nextPid], [nextPid + 1], ..., the counter ends
    [k] higher, and the pids are pairwise distinct if they were and the
    counter was above them.  For the first scheduler of a program the
    counter starts at 1. *)
Theorem sim_pids_are_consecutive
    (es : list Sim.event) (s0 s : Sim.Scheduler) :
  Sim.run es s0 = Some s ->
  exists k,
    length (Sim.allProcesses_ s) = (length (Sim.allProcesses_ s0) + k)%nat /\
    Sim.pid_ <$> Sim.allProcesses_ s =
      (Sim.pid_ <$> Sim.allProcesses_ s0)
      ++ ((fun i => Sim.nextPid s0 + Z.of_nat i) <$> seq 0 k) /\
    Sim.nextPid s = Sim.nextPid s0 + Z.of_nat k /\
    (Forall (fun p => Sim.pid_ p < Sim.nextPid s0) (Sim.allProcesses_ s0) ->
     NoDup (Sim.pid_ <$> Sim.allProcesses_ s0) ->
     NoDup (Sim.pid_ <$> Sim.allProcesses_ s)).
Proof.
  intros Hrun.
  destruct (SimLaws.pids_run es s0 s Hrun) as (k & Hlen & Hpids & Hnext).
  exists k. split; [exact Hlen|]. split; [exact Hpids|]. split; [exact Hnext|].
  intros Hbelow Hnd. rewrite Hpids. apply NoDup_app. split; [exact Hnd|]. split.
  - intros x Hx Hx'.
    apply list_elem_of_fmap in Hx as (p & -> & Hp).
    apply list_elem_of_fmap in Hx' as (i & Hi & _).
    pose proof (proj1 (Forall_forall _ _) Hbelow p Hp) as Hlt. simpl in Hlt. lia.
  - apply NoDup_fmap_seq. intros i j _ _. lia.
Qed.

(** The first scheduler of a program: the two processes get the pids 1
    and 2 and the counter is left at 3. *)
Lemma sim_pids_are_consecutive_witness :
  Sim.run Scenario.two_processes Sim.Scheduler_new
    = Some Scenario.two_processes_state /\
  exists k,
    length (Sim.allProcesses_ Scenario.two_processes_state)
      = (length (Sim.allProcesses_ Sim.Scheduler_new) + k)%nat /\
    Sim.pid_ <$> Sim.allProcesses_ Scenario.two_processes_state =
      (Sim.pid_ <$> Sim.allProcesses_ Sim.Scheduler_new)
      ++ ((fun i => Sim.nextPid Sim.Scheduler_new + Z.of_nat i) <$> seq 0 k) /\
    Sim.nextPid Scenario.two_processes_state
      = Sim.nextPid Sim.Scheduler_new + Z.of_nat k /\
    (Forall (fun p => Sim.pid_ p < Sim.nextPid Sim.Scheduler_new)
       (Sim.allProcesses_ Sim.Scheduler_new) ->
     NoDup (Sim.pid_ <$> Sim.allProcesses_ Sim.Scheduler_new) ->
     NoDup (Sim.pid_ <$> Sim.allProcesses_ Scenario.two_processes_state)).
Proof.
  split; [reflexivity|].
  exact (sim_pids_are_consecutive Scenario.two_processes Sim.Scheduler_new
           Scenario.two_processes_state eq_refl).
Defined.

(** X18.  No operation of the simulator changes the pid, the name, the base
    priority, the burst time or the arrival time of an existing PCB, and
    none removes or reorders PCBs: [allProcesses_] only grows at its tail
    (a terminated process stays in the list for ever). *)
Theorem sim_identity_fields_are_immutable
    (es : list Sim.event) (s s' : Sim.Scheduler) :
  Sim.run es s = Some s' ->
  (Sim.identity <$> Sim.allProcesses_ s) `prefix_of`
  (Sim.identity <$> Sim.allProcesses_ s').
Proof.
  revert s. induction es as [|e es IH]; intros s; simpl.
  - intros [= <-]. reflexivity.
  - destruct (Sim.do_event e s) as [s1|] eqn:He; [|discriminate].
    intros Hrun. etransitivity; [|apply (IH s1 Hrun)].
    destruct (SimLaws.proj_do_event Sim.identity ltac:(reflexivity)
                ltac:(reflexivity) ltac:(reflexivity) ltac:(reflexivity)
                ltac:(reflexivity) e s s1 He)
      as [[-> _]|(nm & pr & b & a & -> & _)]; [reflexivity|].
    apply prefix_app_r. reflexivity.
Qed.

(** The process A through the run with the simulated I/O. *)
Lemma sim_identity_fields_are_immutable_witness :
  Sim.identity <$> Sim.allProcesses_ Scenario.io_run_state
    = [(1, "A"%string, 5, 2000, 0)] /\
  (Sim.identity <$> Sim.allProcesses_ Sim.Scheduler_new) `prefix_of`
  (Sim.identity <$> Sim.allProcesses_ Scenario.io_run_state).
Proof.
  split; [reflexivity|].
  apply (sim_identity_fields_are_immutable Scenario.io_run
           Sim.Scheduler_new Scenario.io_run_state eq_refl).
Defined.

(** X19.  In the executions of the simulator in which the Control API
    calls and the passes of the worker run one at a time (none inside
    another), starting from a new scheduler, [getStats] describes
    [getProcessList] at the end of every call and of every pass: the total
    is the number of PCBs, each count is the number of PCBs in that state,
    the four counts add up to the total (no PCB is NEW once [createProcess]
    has returned), at most one PCB is RUNNING and it is the one in the
    running slot, and [cpuUtilization] is 100 when a PCB is RUNNING and 0
    otherwise. *)
Theorem sim_statistics_describe_the_process_list
    (es : list Sim.event) (s : Sim.Scheduler) :
  Sim.run es Sim.Scheduler_new = Some s ->
  let st := Sim.getStats s in
  let l := Sim.getProcessList s in
  Sim.totalProcesses st = Z.of_nat (length l) /\
  Sim.runningProcesses st = Sim.count_state Sim.RUNNING l /\
  Sim.readyProcesses st = Sim.count_state Sim.READY l /\
  Sim.waitingProcesses st = Sim.count_state Sim.WAITING l /\
  Sim.terminatedProcesses st = Sim.count_state Sim.TERMINATED l /\
  Sim.runningProcesses st + Sim.readyProcesses st + Sim.waitingProcesses st
    + Sim.terminatedProcesses st = Sim.totalProcesses st /\
  Sim.runningProcesses st <= 1 /\
  (forall i, (Sim.state_ <$> l) !! i = Some Sim.RUNNING ->
             Sim.currentProcess_ s = Some i) /\
  Sim.cpuUtilization st = (if 0 <? Sim.runningProcesses st then 100 else 0).
Proof.
  intros Hrun st l.
  assert (Sim.stats_fresh Sim.Scheduler_new) as Hf0 by (repeat split).
  assert (Sim.slot_inv (Sim.states Sim.Scheduler_new)
            (Sim.currentProcess_ Sim.Scheduler_new)) as Hs0.
  { split; [constructor|]. intros i Hi. discriminate. }
  destruct (SimLaws.stats_fresh_run es _ s Hrun Hf0)
    as (Ht & Hr & Hrd & Hw & Htm & Hcpu).
  pose proof (SimLaws.slot_inv_run es _ s Hrun Hs0) as Hslot.
  destruct (SimLaws.slot_inv_counts _ _ Hslot) as (Hsum & Hle & _).
  unfold st, l, Sim.getStats, Sim.getProcessList.
  split; [exact Ht|]. split; [exact Hr|]. split; [exact Hrd|].
  split; [exact Hw|]. split; [exact Htm|].
  split; [rewrite Ht, Hr, Hrd, Hw, Htm; exact Hsum|].
  split; [rewrite Hr; exact Hle|].
  split; [apply Hslot|]. rewrite Hcpu, Hr. reflexivity.
Qed.

(** The statistics after the two creations and one pass: A is running, B is
    ready. *)
Lemma sim_statistics_describe_the_process_list_witness :
  Sim.totalProcesses (Sim.getStats Scenario.two_processes_state) = 2 /\
  Sim.runningProcesses (Sim.getStats Scenario.two_processes_state) = 1 /\
  Sim.cpuUtilization (Sim.getStats Scenario.two_processes_state) = 100.
Proof.
  pose proof (sim_statistics_describe_the_process_list Scenario.two_processes
                Scenario.two_processes_state eq_refl)
    as (Ht & Hr & _ & _ & _ & _ & _ & _ & Hcpu).
  split; [exact Ht|]. split; [exact Hr|exact Hcpu].
Defined.

(** X20.  [pause] cannot be undone by [start]: while the scheduler is
    running, [start] returns at once, so after [pause] every further call
    of [start] and every pass of the loop leaves the whole state as it is;
    only [stop] followed by [start] clears the pause. *)
Theorem sim_pause_is_not_resumed_by_start
    (es : list Sim.event) (s : Sim.Scheduler) :
  Sim.running_ s = true ->
  Forall Sim.start_or_loop es ->
  Sim.run (Sim.EvPause :: es) s = Some (Sim.pause s) /\
  Sim.paused_ (Sim.pause s) = true /\
  Sim.run [Sim.EvPause; Sim.EvStop; Sim.EvStart] s
    = Some (Sim.set_flags true false s).
Proof.
  intros Hr Hes. split; [|split; [reflexivity|]].
  - simpl. apply SimLaws.paused_run; [exact Hr|reflexivity|exact Hes].
  - reflexivity.
Qed.

(** After [pause], a [start] and two passes of the loop change nothing. *)
Lemma sim_pause_is_not_resumed_by_start_witness :
  Sim.run [Sim.EvPause; Sim.EvStart; Sim.EvLoop 0 200; Sim.EvLoop 0 300]
    Scenario.two_processes_state
  = Some (Sim.pause Scenario.two_processes_state).
Proof.
  apply (sim_pause_is_not_resumed_by_start
           [Sim.EvStart; Sim.EvLoop 0 200; Sim.EvLoop 0 300]
           Scenario.two_processes_state eq_refl).
  repeat constructor.
Defined.

(** X21.  The pass of the scheduling loop over the blocked list subtracts
    the quantum from every timer; the entries whose timer is then at or
    below zero leave the list, their processes are marked READY and
    enqueued, the other entries stay in their order with the reduced
    (positive) timer. *)
Theorem sim_blocked_list_countdown
    (timeQuantumMs : Z) (blocked : list (nat * Z))
    (st : list Sim.Process) (queue : list nat) :
  let r := Sim.check_blocked timeQuantumMs blocked st queue in
  let done :=
    (filter (fun e : nat * Z => e.2 - timeQuantumMs <= 0) blocked).*1 in
  r.1.1 = fold_left (fun st proc => alter (Sim.setState Sim.READY) proc st)
            done st /\
  r.1.2 ≡ₚ done ++ queue /\
  r.2 = filter (fun e : nat * Z => 0 < e.2)
          ((fun e : nat * Z => (e.1, e.2 - timeQuantumMs)) <$> blocked) /\
  Forall (fun e : nat * Z => 0 < e.2) r.2.
Proof.
  cbn zeta.
  destruct (SimLaws.check_blocked_spec timeQuantumMs blocked st queue)
    as (H1 & H2 & H3).
  split; [exact H1|]. split; [exact H2|]. split; [exact H3|].
  rewrite H3. apply Forall_forall. intros e He.
  apply list_elem_of_filter in He as [Hpos _]. exact Hpos.
Qed.

(** X22.  A simulated I/O wait is short: on runs from a new scheduler in
    which [rand()] returns values that are not negative and the quantum is
    never set negative, every timer in the blocked list is between 1 and
    299 in every state. *)
Theorem sim_io_wait_is_bounded (es : list Sim.event) (s : Sim.Scheduler) :
  Forall Sim.event_in_range es ->
  Forall Sim.rand_in_range es ->
  Sim.run es Sim.Scheduler_new = Some s ->
  Forall (fun e : nat * Z => 0 < e.2 < 300) (Sim.blockedProcesses_ s).
Proof.
  intros Hes Hrs Hrun.
  assert (Sim.io_bounded Sim.Scheduler_new) as Hinit.
  { split; [simpl; lia|constructor]. }
  apply (SimLaws.io_bounded_run es _ s Hes Hrs Hrun Hinit).
Qed.

(** The tenth pass of the I/O run blocks A for 223 ms, of which 123 are
    left after the countdown of that pass. *)
Lemma sim_io_wait_is_bounded_witness :
  Sim.blockedProcesses_ Scenario.io_run_state = [(0%nat, 123)] /\
  Forall (fun e : nat * Z => 0 < e.2 < 300)
    (Sim.blockedProcesses_ Scenario.io_run_state).
Proof.
  split; [reflexivity|].
  apply (sim_io_wait_is_bounded Scenario.io_run Scenario.io_run_state).
  - repeat constructor; simpl; lia.
  - repeat constructor; simpl; lia.
  - reflexivity.
Defined.

(** X23.  A RUNNING process with remaining time [r > 0] that is given [n]
    slices of a quantum [q > 0] by [Process::execute] has
    [max(0, r - n q)] left; it is TERMINATED exactly when [n q >= r] and
    RUNNING otherwise, so it terminates at the slice number [ceil(r / q)],
    and further slices change nothing. *)
Theorem sim_slices_until_termination (n : nat) (q : Z) (p : Sim.Process) :
  Sim.state_ p = Sim.RUNNING -> 0 < q -> 0 < Sim.remainingTime_ p ->
  let p' := Nat.iter n (Sim.execute q) p in
  Sim.remainingTime_ p' = Z.max 0 (Sim.remainingTime_ p - Z.of_nat n * q) /\
  (Sim.state_ p' = Sim.TERMINATED <-> Sim.remainingTime_ p <= Z.of_nat n * q) /\
  (Sim.state_ p' = Sim.RUNNING <-> Z.of_nat n * q < Sim.remainingTime_ p).
Proof. apply SimLaws.execute_iter. Qed.

(** The running process A (200 ms left) with a quantum of 100 ms: RUNNING
    after one slice, TERMINATED after two and after five. *)
Lemma sim_slices_until_termination_witness :
  Sim.state_ (Nat.iter 1 (Sim.execute 100) Scenario.running_A) = Sim.RUNNING /\
  Sim.state_ (Nat.iter 2 (Sim.execute 100) Scenario.running_A)
    = Sim.TERMINATED /\
  Sim.remainingTime_ (Nat.iter 5 (Sim.execute 100) Scenario.running_A) = 0.
Proof.
  pose proof (sim_slices_until_termination 1 100 Scenario.running_A
                eq_refl ltac:(lia) ltac:(reflexivity)) as (_ & _ & H1).
  pose proof (sim_slices_until_termination 2 100 Scenario.running_A
                eq_refl ltac:(lia) ltac:(reflexivity)) as (_ & H2 & _).
  pose proof (sim_slices_until_termination 5 100 Scenario.running_A
                eq_refl ltac:(lia) ltac:(reflexivity)) as (H5 & _).
  split; [apply H1; reflexivity|]. split; [apply H2; discriminate|exact H5].
Defined.

(** X24.  [terminateProcess] marks the first PCB with the given pid
    TERMINATED whatever its state, and changes no state when there is none;
    it never touches the ready queue, the blocked list, the running slot
    or a remaining time (the PCB is not unlinked from any of them). *)
Theorem sim_terminateProcess_effect (pid now : Z) (s : Sim.Scheduler) :
  let s' := Sim.terminateProcess pid now s in
  Sim.state_ <$> Sim.allProcesses_ s' =
    match find_index (fun p => Sim.pid_ p =? pid) (Sim.allProcesses_ s) with
    | Some i => <[i := Sim.TERMINATED]> (Sim.state_ <$> Sim.allProcesses_ s)
    | None => Sim.state_ <$> Sim.allProcesses_ s
    end /\
  Sim.remainingTime_ <$> Sim.allProcesses_ s'
    = Sim.remainingTime_ <$> Sim.allProcesses_ s /\
  Sim.readyQueue_ s' = Sim.readyQueue_ s /\
  Sim.blockedProcesses_ s' = Sim.blockedProcesses_ s /\
  Sim.currentProcess_ s' = Sim.currentProcess_ s.
Proof. apply SimLaws.terminateProcess_spec. Qed.

(** X25.  [unblockProcess] marks the first WAITING PCB with the given pid
    READY and enqueues it; when no PCB with that pid is WAITING it changes
    no state and no queue.  In both cases the blocked list and the running
    slot stay as they are: an entry of the blocked list for that process
    is not removed. *)
Theorem sim_unblockProcess_effect (pid now : Z) (s : Sim.Scheduler) :
  let s' := Sim.unblockProcess pid now s in
  match find_index
          (fun p => (Sim.pid_ p =? pid)
                    && bool_decide (Sim.state_ p = Sim.WAITING))
          (Sim.allProcesses_ s) with
  | Some i =>
      Sim.state_ <$> Sim.allProcesses_ s'
        = <[i := Sim.READY]> (Sim.state_ <$> Sim.allProcesses_ s) /\
      Sim.readyQueue_ s' ≡ₚ i :: Sim.readyQueue_ s
  | None =>
      Sim.state_ <$> Sim.allProcesses_ s' = Sim.state_ <$> Sim.allProcesses_ s /\
      Sim.readyQueue_ s' = Sim.readyQueue_ s
  end /\
  Sim.blockedProcesses_ s' = Sim.blockedProcesses_ s /\
  Sim.currentProcess_ s' = Sim.currentProcess_ s.
Proof. apply SimLaws.unblockProcess_spec. Qed.

(** X26.  The aging of the simulator divides by the aging factor for every
    member of the ready queue and for no one else:
    [Scheduler::applyAging] fails, with the trap of the integer division,
    exactly when the factor is 0 and the ready queue is not empty, or the
    factor is -1 and the queue holds a process whose [waitTime] is
    [INT_MIN]; with any other factor, or with an empty queue, it
    returns. *)
Theorem sim_aging_traps_iff (s : Sim.Scheduler) :
  Sim.Scheduler_applyAging s = None <->
  (Sim.agingFactorSec_ s = 0 /\ Sim.readyQueue_ s <> []) \/
  (Sim.agingFactorSec_ s = -1 /\
   exists i, i ∈ Sim.readyQueue_ s /\
             Sim.waitTime (Sim.allProcesses_ s !!! i) = - 2 ^ 31).
Proof.
  unfold Sim.Scheduler_applyAging.
  pose proof (SimLaws.ReadyQueue_applyAging_None (Sim.agingFactorSec_ s)
                (Sim.allProcesses_ s) (Sim.readyQueue_ s)) as H.
  assert ((exists i, i ∈ Sim.readyQueue_ s /\
                     Sim.division_traps (Sim.agingFactorSec_ s)
                       (Sim.allProcesses_ s !!! i) = true) <->
          (Sim.agingFactorSec_ s = 0 /\ Sim.readyQueue_ s <> []) \/
          (Sim.agingFactorSec_ s = -1 /\
           exists i, i ∈ Sim.readyQueue_ s /\
                     Sim.waitTime (Sim.allProcesses_ s !!! i) = - 2 ^ 31))
    as Hspec.
  { split.
    - intros (i & Hi & Ht). apply SimLaws.division_traps_spec in Ht.
      destruct Ht as [Hz|[Hm Hw]].
      + left. split; [exact Hz|]. intros Hnil. rewrite Hnil in Hi. inversion Hi.
      + right. split; [exact Hm|]. exists i. split; assumption.
    - intros [[Hz Hne]|(Hm & i & Hi & Hw)].
      + destruct (Sim.readyQueue_ s) as [|i q] eqn:Hq; [contradiction|].
        exists i. split; [left|].
        apply SimLaws.division_traps_spec. left. exact Hz.
      + exists i. split; [exact Hi|].
        apply SimLaws.division_traps_spec. right. split; assumption. }
  rewrite <- Hspec, <- H.
  destruct (Sim.ReadyQueue_applyAging _ _ _) as [[st' q']|];
    split; try discriminate; reflexivity.
Qed.

(** X27.  [ReadyQueue] is a priority queue on [effectivePriority_].  On a
    queue whose vector is a heap: [enqueue] adds the process, keeps the
    other members and leaves a heap; [dequeue] and [peek] on an empty queue
    return the null pointer and leave it empty; on a queue that is not
    empty [dequeue] returns the process that [peek] shows, removes this one
    occurrence, leaves a heap, and no member of the queue has an effective
    priority numerically below that of the process returned. *)
Theorem sim_ready_queue_is_a_priority_queue
    (st : list Sim.Process) (q : list nat) :
  Sim.is_heap st q (length q) ->
  (forall x,
     Sim.enqueue st q x ≡ₚ x :: q /\
     Sim.is_heap st (Sim.enqueue st q x) (length (Sim.enqueue st q x))) /\
  match Sim.dequeue st q with
  | (Some c, q') =>
      Sim.peek q = Some c /\ Sim.empty q = false /\
      q ≡ₚ c :: q' /\
      Sim.is_heap st q' (length q') /\
      Forall (fun j => Sim.effectivePriority_ (st !!! c)
                       <= Sim.effectivePriority_ (st !!! j)) q
  | (None, q') =>
      q = [] /\ q' = [] /\ Sim.peek q = None /\ Sim.empty q = true
  end.
Proof.
  intros Hheap. split.
  - intros x. apply SimLaws.ReadyQueue_enqueue_spec. exact Hheap.
  - apply SimLaws.ReadyQueue_dequeue_spec. exact Hheap.
Qed.

(** B (priority 3) in front of A (priority 5): [dequeue] returns B. *)
Lemma sim_ready_queue_is_a_priority_queue_witness :
  let st := [Sim.set_effectivePriority 5 (Sim.new_Process 1 "A"%string 5 300);
             Sim.set_effectivePriority 3 (Sim.new_Process 2 "B"%string 3 300)] in
  Sim.is_heap st [1; 0]%nat 2 /\
  (Sim.dequeue st [1; 0]%nat).1 = Some 1%nat /\
  Forall (fun j => Sim.effectivePriority_ (st !!! 1%nat)
                   <= Sim.effectivePriority_ (st !!! j)) [1; 0]%nat.
Proof.
  cbn zeta.
  assert (Sim.is_heap
            [Sim.set_effectivePriority 5 (Sim.new_Process 1 "A"%string 5 300);
             Sim.set_effectivePriority 3 (Sim.new_Process 2 "B"%string 3 300)]
            [1; 0]%nat 2) as Hheap.
  { intros i Hi. assert (i = 1)%nat as -> by lia. vm_compute. discriminate. }
  split; [exact Hheap|]. split; [reflexivity|].
  exact (proj2 (proj2 (proj2 (proj2
           (proj2 (sim_ready_queue_is_a_priority_queue _ [1; 0]%nat Hheap)))))).
Defined.

(** X28.  In every state reached from a new scheduler the ready queue is a
    heap of pointers into the process list.  So whenever
    [selectNextProcess] finds the running slot vacant (empty, or holding a
    TERMINATED process) and the queue not empty, the process it makes
    RUNNING is a member of the queue with the numerically lowest effective
    priority of all members, and exactly this occurrence leaves the
    queue. *)
Theorem sim_dispatch_takes_lowest_priority
    (es : list Sim.event) (s : Sim.Scheduler) :
  Sim.run es Sim.Scheduler_new = Some s ->
  let st := Sim.allProcesses_ s in
  let s' := Sim.selectNextProcess s in
  Sim.is_heap st (Sim.readyQueue_ s) (length (Sim.readyQueue_ s)) /\
  Forall (fun i => (i < length st)%nat) (Sim.readyQueue_ s) /\
  (match Sim.currentProcess_ s with
   | None => True
   | Some c => Sim.state_ (st !!! c) = Sim.TERMINATED
   end ->
   Sim.readyQueue_ s <> [] ->
   exists c,
     Sim.currentProcess_ s' = Some c /\
     Sim.state_ <$> Sim.allProcesses_ s' !! c = Some Sim.RUNNING /\
     Sim.readyQueue_ s ≡ₚ c :: Sim.readyQueue_ s' /\
     Forall (fun j => Sim.effectivePriority_ (st !!! c)
                      <= Sim.effectivePriority_ (st !!! j))
       (Sim.readyQueue_ s)).
Proof.
  intros Hrun st s'.
  destruct (SimLaws.heap_inv_run es _ s Hrun SimLaws.heap_inv_Scheduler_new)
    as (Hheap & Hq & _ & _).
  split; [exact Hheap|]. split; [exact Hq|].
  intros Hvac Hne.
  pose proof (SimLaws.ReadyQueue_dequeue_spec st (Sim.readyQueue_ s) Hheap)
    as Hdq.
  unfold s', Sim.selectNextProcess.
  assert (match Sim.currentProcess_ s with
          | None => true
          | Some c =>
              bool_decide (Sim.state_ (Sim.allProcesses_ s !!! c) = Sim.TERMINATED)
          end = true) as ->.
  { destruct (Sim.currentProcess_ s); [|reflexivity].
    apply bool_decide_eq_true. exact Hvac. }
  fold st in Hdq |- *.
  destruct (Sim.dequeue st (Sim.readyQueue_ s)) as [[c|] q'].
  - destruct Hdq as (_ & -> & Hperm & _ & Hmin). simpl.
    exists c. split; [reflexivity|]. split; [|split; [exact Hperm|exact Hmin]].
    assert (c < length st)%nat as Hc.
    { apply (proj1 (Forall_forall _ _) Hq). rewrite Hperm. left. }
    rewrite list_lookup_alter_eq.
    destruct (lookup_lt_is_Some_2 st c Hc) as [p ->]. reflexivity.
  - destruct Hdq as (Hnil & _). contradiction.
Qed.

(** B of priority 3 is created after A of priority 5 and is dispatched
    first. *)
Lemma sim_dispatch_takes_lowest_priority_witness :
  Sim.run Scenario.low_after_high Sim.Scheduler_new
    = Some Scenario.low_after_high_state /\
  Sim.currentProcess_ Scenario.low_after_high_state = None /\
  Sim.readyQueue_ Scenario.low_after_high_state = [1; 0]%nat /\
  exists c,
    Sim.currentProcess_ (Sim.selectNextProcess Scenario.low_after_high_state)
      = Some c /\
    Sim.state_ <$>
      Sim.allProcesses_ (Sim.selectNextProcess Scenario.low_after_high_state)
        !! c = Some Sim.RUNNING /\
    Sim.readyQueue_ Scenario.low_after_high_state
      ≡ₚ c :: Sim.readyQueue_
                (Sim.selectNextProcess Scenario.low_after_high_state) /\
    Forall (fun j =>
              Sim.effectivePriority_
                (Sim.allProcesses_ Scenario.low_after_high_state !!! c)
              <= Sim.effectivePriority_
                   (Sim.allProcesses_ Scenario.low_after_high_state !!! j))
      (Sim.readyQueue_ Scenario.low_after_high_state).
Proof.
  split; [reflexivity|]. split; [reflexivity|]. split; [reflexivity|].
  apply (sim_dispatch_takes_lowest_priority Scenario.low_after_high
           Scenario.low_after_high_state eq_refl); [exact I|discriminate].
Defined.

(** X29.  When [ReadyQueue::applyAging] returns, the queue has the members
    it had and its vector is a heap for the new priorities, whatever the
    order before; the process list keeps its length; every PCB with a
    pointer in the queue has [effectivePriority_] set to [basePriority_]
    plus [waitTime] divided by the factor (truncated towards zero, not
    clamped to 0..10) and all its other fields as before; every PCB without
    a pointer in the queue is untouched. *)
Theorem sim_aging_recomputes_the_queued_priorities
    (agingFactor : Z) (st st' : list Sim.Process) (q q' : list nat) :
  Sim.ReadyQueue_applyAging agingFactor st q = Some (st', q') ->
  q' ≡ₚ q /\
  Sim.is_heap st' q' (length q') /\
  length st' = length st /\
  forall i,
    st' !! i =
      if decide (i ∈ q)
      then (fun p =>
              Sim.set_effectivePriority
                (Sim.basePriority_ p + Z.quot (Sim.waitTime p) agingFactor) p)
             <$> st !! i
      else st !! i.
Proof. apply SimLaws.ReadyQueue_applyAging_spec. Qed.

(** B with priority 5 and a wait of 2000 ms gets the priority 405; A, not
    in the queue, keeps 5. *)
Lemma sim_aging_recomputes_the_queued_priorities_witness :
  let st := [Sim.new_Process 1 "A"%string 5 300; Scenario.waited_2000] in
  let st' := [Sim.new_Process 1 "A"%string 5 300;
              Sim.set_effectivePriority 405 Scenario.waited_2000] in
  Sim.ReadyQueue_applyAging 5 st [1]%nat = Some (st', [1]%nat) /\
  length st' = length st /\
  Sim.is_heap st' [1]%nat 1.
Proof.
  cbn zeta.
  pose proof (sim_aging_recomputes_the_queued_priorities 5
                [Sim.new_Process 1 "A"%string 5 300; Scenario.waited_2000]
                [Sim.new_Process 1 "A"%string 5 300;
                 Sim.set_effectivePriority 405 Scenario.waited_2000]
                [1]%nat [1]%nat eq_refl) as (_ & Hheap & Hlen & _).
  split; [reflexivity|]. split; [exact Hlen|exact Hheap].
Defined.

(** X30.  A NEW write is two critical sections: the PCB is linked into
    [all_processes] under [sched_lock], and inserted into the ready queue by
    [enqueue_process] after the unlock; run without interruption this is
    the NEW command.  In between the new PCB is READY and not in the ready
    queue.  A WAIT command for its pid that runs in between finds it READY:
    it marks it WAITING and decrements [ready_q.count], while its
    [list_del] unlinks nothing; the [enqueue_process] of the NEW write then
    inserts the WAITING PCB into the ready queue, so that the queue is one
    longer and the counter is where it was, and if the queue was empty and
    the running slot is empty [select_next_process] dispatches the process
    that was told to wait. *)
Theorem kmod_wait_inside_new_write
    (msecs_to_jiffies : Z -> Z)
    (name : string) (burst_time priority jiffies : Z) (s : Kmod.kstate)
    (wait_ms jiffies' : Z) :
  0 < burst_time -> 0 <= priority <= 10 ->
  Forall (fun p => Kmod.pid p <> to_int (Kmod.next_pid s + 1))
    (Kmod.all_processes s) ->
  Forall (fun i => (i < length (Kmod.all_processes s))%nat)
    (Kmod.ready_q_head s) ->
  let proc := length (Kmod.all_processes s) in
  let new_pid := to_int (Kmod.next_pid s + 1) in
  exists s1,
    Kmod.cmd_new_link name burst_time priority true jiffies s
      = (Kmod.Written, Some proc, s1) /\
    Kmod.cmd_new name burst_time priority true jiffies s
      = (Kmod.Written, Kmod.enqueue_process proc s1) /\
    (Kmod.pid <$> Kmod.all_processes s1) !! proc = Some new_pid /\
    (Kmod.state <$> Kmod.all_processes s1) !! proc = Some Kmod.PROC_READY /\
    Kmod.ready_q_head s1 = Kmod.ready_q_head s /\
    (proc ∉ Kmod.ready_q_head s1) /\
    Kmod.ready_q_count s1 = Kmod.ready_q_count s /\
    (let s2 := (Kmod.cmd_wait msecs_to_jiffies new_pid wait_ms jiffies' s1).2 in
    let s3 := Kmod.enqueue_process proc s2 in
    (Kmod.state <$> Kmod.all_processes s2) !! proc = Some Kmod.PROC_WAITING /\
    Kmod.ready_q_head s2 = Kmod.ready_q_head s /\
    Kmod.ready_q_count s2 = to_int (Kmod.ready_q_count s - 1) /\
    (Kmod.state <$> Kmod.all_processes s3) !! proc = Some Kmod.PROC_WAITING /\
    Kmod.ready_q_head s3 ≡ₚ proc :: Kmod.ready_q_head s /\
    Kmod.ready_q_count s3 = to_int (Kmod.ready_q_count s) /\
    (Kmod.ready_q_head s = [] -> Kmod.current_proc s = None ->
     (Kmod.select_next_process s3).1 = Some proc /\
     (Kmod.state <$> Kmod.all_processes (Kmod.select_next_process s3).2) !! proc
       = Some Kmod.PROC_RUNNING)).
Proof.
  intros Hb Hp Hpids Hq proc new_pid.
  assert ((burst_time <=? 0) || (priority <? 0) || (10 <? priority) = false)
    as Hok.
  { rewrite !orb_false_iff. repeat split; [apply Z.leb_gt|apply Z.ltb_ge|apply Z.ltb_ge]; lia. }
  pose (pcb := Kmod.mkPcb new_pid (Kmod.strncpy 31 name) priority priority
                 burst_time burst_time Kmod.PROC_READY jiffies 0 0 jiffies 0).
  exists (Kmod.set_all_processes (Kmod.all_processes s ++ [pcb])
            (Kmod.set_next_pid new_pid s)).
  split.
  { unfold Kmod.cmd_new_link. rewrite Hok. reflexivity. }
  split.
  { rewrite KmodLaws.cmd_new_link_enqueue. unfold Kmod.cmd_new_link.
    rewrite Hok. reflexivity. }
  cbn [Kmod.all_processes Kmod.set_all_processes Kmod.set_next_pid
         Kmod.ready_q_head Kmod.ready_q_count].
  assert (proc ∉ Kmod.ready_q_head s) as Hnotin.
  { intros Hin. pose proof (proj1 (Forall_forall _ _) Hq proc Hin) as Hlt.
    unfold proc in Hlt. lia. }
  assert ((Kmod.all_processes s ++ [pcb]) !! proc = Some pcb) as Hlook.
  { unfold proc. rewrite lookup_app_r by lia. rewrite Nat.sub_diag. reflexivity. }
  split; [rewrite list_lookup_fmap, Hlook; reflexivity|].
  split; [rewrite list_lookup_fmap, Hlook; reflexivity|].
  split; [reflexivity|]. split; [exact Hnotin|]. split; [reflexivity|].
  cbn zeta. unfold Kmod.cmd_wait.
  cbn [Kmod.all_processes Kmod.set_all_processes Kmod.set_next_pid].
  rewrite (KmodLaws.find_index_app_last _ (Kmod.all_processes s) pcb).
  2:{ eapply List.Forall_impl; [|exact Hpids]. intros p Hne. simpl in Hne.
      apply Z.eqb_neq. exact Hne. }
  2:{ apply Z.eqb_eq. reflexivity. }
  fold proc. rewrite (list_lookup_total_correct _ _ _ Hlook).
  change (Kmod.state pcb) with Kmod.PROC_READY.
  rewrite (bool_decide_false (Kmod.PROC_READY = Kmod.PROC_RUNNING))
    by discriminate.
  rewrite (bool_decide_true (Kmod.PROC_READY = Kmod.PROC_READY))
    by reflexivity.
  cbn [orb snd Kmod.remove_process Kmod.set_ready_q Kmod.set_all_processes
         Kmod.all_processes Kmod.ready_q_head Kmod.ready_q_count
         Kmod.enqueue_process Kmod.set_next_pid Kmod.current_proc].
  rewrite (filter_Forall_id (fun j => j <> proc)).
  2:{ eapply List.Forall_impl; [|exact Hq]. intros i Hi. simpl in Hi.
      unfold proc. lia. }
  set (st2 := alter _ proc (Kmod.all_processes s ++ [pcb])).
  assert ((Kmod.state <$> st2) !! proc = Some Kmod.PROC_WAITING) as Hst2.
  { unfold st2. rewrite list_lookup_fmap, list_lookup_alter_eq, Hlook.
    reflexivity. }
  split; [exact Hst2|]. split; [reflexivity|]. split; [reflexivity|].
  split; [exact Hst2|].
  split; [apply insert_by_priority_Permutation|].
  split.
  { rewrite to_int_add_l. f_equal. lia. }
  intros Hnil Hcur. unfold Kmod.select_next_process.
  cbn [Kmod.current_proc Kmod.set_ready_q Kmod.set_all_processes
         Kmod.set_next_pid Kmod.enqueue_process Kmod.remove_process].
  rewrite Hcur. unfold Kmod.dequeue_process.
  cbn [Kmod.ready_q_head Kmod.set_ready_q Kmod.set_all_processes
         Kmod.set_next_pid Kmod.enqueue_process Kmod.remove_process].
  rewrite Hnil. cbn [Kmod.insert_by_priority fst snd filter list_filter].
  split; [reflexivity|].
  cbn [Kmod.all_processes Kmod.set_stats Kmod.set_current_proc
         Kmod.set_all_processes Kmod.set_ready_q Kmod.set_next_pid].
  rewrite list_lookup_fmap, list_lookup_alter_eq.
  cbn [Kmod.all_processes Kmod.enqueue_process Kmod.set_ready_q
         Kmod.set_all_processes].
  rewrite list_lookup_fmap in Hst2.
  destruct (st2 !! proc) as [p2|]; [reflexivity|discriminate].
Qed.

(** On a module that has just been loaded: NEW A, and WAIT for pid 2 before
    A is enqueued. *)
Lemma kmod_wait_inside_new_write_witness :
  let s := Kmod.kstate_init 1000 1 in
  let s1 := (Kmod.cmd_new_link "A"%string 300 5 true 0 s).2 in
  let s3 := Kmod.enqueue_process 0
              (Kmod.cmd_wait Scenario.msecs_to_jiffies 2 500 10 s1).2 in
  Kmod.state <$> Kmod.all_processes s1 = [Kmod.PROC_READY] /\
  Kmod.ready_q_head s1 = [] /\
  Kmod.state <$> Kmod.all_processes s3 = [Kmod.PROC_WAITING] /\
  Kmod.ready_q_head s3 = [0%nat] /\
  Kmod.ready_q_count s3 = 0 /\
  (Kmod.select_next_process s3).1 = Some 0%nat.
Proof.
  cbn zeta.
  destruct (kmod_wait_inside_new_write Scenario.msecs_to_jiffies "A"%string
              300 5 0 (Kmod.kstate_init 1000 1) 500 10
              ltac:(lia) ltac:(lia) ltac:(constructor) ltac:(constructor))
    as (s1 & Hlink & _ & _ & _ & _ & _ & _ & _ & _ & _ & _ & _ & _ & Hsel).
  injection Hlink as <-.
  split; [reflexivity|]. split; [reflexivity|]. split; [reflexivity|].
  split; [reflexivity|]. split; [reflexivity|].
  exact (proj1 (Hsel eq_refl eq_refl)).
Defined.
